(** * treetextconf: the line-oriented tree configuration parser

    A shallow embedding of the Go package [treetextconf] (the iterative
    parser: [NewParser], [nextLine], [iterParse], [ParseConfig]) and the
    properties its specification states about it; then
    [DebugPrintConfig], the recursive parser the iterative one replaces,
    and further properties of both.

    Go values are modelled as follows.
    - [int] is a 64-bit signed integer.  The two counters that grow with
      the input, [size] and [lineno], are [Z] with their additions wrapped
      by [wrap]; lengths of slices ([len]) are exact, and indices into a
      line stay between [-1] and its length.
    - [[]byte] is [list byte]; a Go [string] is a [string]; the conversion
      [string(b)] is [string_of_list_byte].
    - [*Config] is an address in a [Heap], an arena of [Config] cells.
      Allocation appends a cell; [addValue] and the assignment to [name]
      update a cell in place, so every holder of the address (the parent's
      [value] slice, the stack, the variable [c]) sees the update.
    - [error] is [option error]; [nil] is [None].
    - [*bufio.Reader] is the sequence of results its [ReadLine] will
      deliver, see [Reader]. *)

From Stdlib Require Import ZArith List String Bool Lia DecimalString Wf_nat.
From Stdlib.Strings Require Import Byte.
From stdpp Require Import base list.
Import ListNotations.
Open Scope Z_scope.

(** ** Machine integers *)

(** Go's [int] on a 64-bit platform: two's complement wrap-around. *)
Definition min_int : Z := - 2 ^ 63.
Definition max_int : Z := 2 ^ 63 - 1.
Definition wrap (z : Z) : Z := (z + 2 ^ 63) mod 2 ^ 64 - 2 ^ 63.

(** [len(x)] of a slice. *)
Definition len {A} (l : list A) : Z := Z.of_nat (length l).

(** [fmt.Sprintf("%d", z)]. *)
Definition itoa (z : Z) : string := NilZero.string_of_int (Z.to_int z).

(** ** Bytes and slices *)

Definition byte_space : byte := " "%byte.
Definition byte_tab : byte := x09.
Definition byte_quote : byte := "'"%byte.
Definition byte_hash : byte := "#"%byte.
Definition byte_colon : byte := ":"%byte.
Definition byte_lf : byte := x0a.
Definition byte_cr : byte := x0d.

(** [l[i]].  Go panics when [i] is out of range; every use below is in
    range, see [classify_in_range]. *)
Definition byteAt (l : list byte) (i : Z) : byte := nth (Z.to_nat i) l x00.

(** [l[lo:hi]].  Go panics unless [0 <= lo <= hi <= len(l)]; every use
    below satisfies it, see [classify_in_range]. *)
Definition slice {A} (l : list A) (lo hi : Z) : list A :=
  take (Z.to_nat (hi - lo)) (drop (Z.to_nat lo) l).

(** A line written as a string literal. *)
Definition bytes (s : string) : list byte := list_byte_of_string s.

(** ** Errors *)

(** [type ConfigError struct { context string; line int; col int }] *)
Module ConfigError.
Record t := mk { context : string; line : Z; col : Z }.
End ConfigError.

(** The values of Go's [error] interface that occur: the sentinel [io.EOF],
    any other error of the underlying reader, and [*ConfigError]. *)
Inductive error :=
| io_EOF
| io_failure (msg : string)
| config_error (e : ConfigError.t).

Definition is_EOF (err : option error) : bool :=
  match err with Some io_EOF => true | _ => false end.

(** ** The line source *)

(** [bufio.Reader] as the parser observes it: the successive successful
    results [(line, isPrefix)] of [ReadLine], then the error that ends the
    stream ([None] for [io.EOF]).  [ReadLine] returns an error only with
    an empty line and [isPrefix = false], and the parser never reads again
    after an error other than [io.EOF]. *)
Record Reader := { pending : list (list byte * bool); failure : option string }.

Definition stream_end (r : Reader) : error :=
  match failure r with None => io_EOF | Some msg => io_failure msg end.

(** [line, isPrefix, err = b.ReadLine()] *)
Definition ReadLine (b : Reader) : list byte * bool * option error * Reader :=
  match pending b with
  | [] => ([], false, Some (stream_end b), b)
  | (l, prefix) :: rest => (l, prefix, None, {| pending := rest; failure := failure b |})
  end.

(** ** The tree *)

Abbreviation ptr := nat.

(** [type Config struct { name string; value []*Config }] *)
Record Config := { name : string; value : list ptr }.

Abbreviation Heap := (list Config).

(** [&Config{...}] *)
Definition alloc (h : Heap) (c : Config) : Heap * ptr := (h ++ [c], length h).

(** [func (c *Config) addValue(v *Config) { c.value = append(c.value, v) }] *)
Definition addValue (h : Heap) (c v : ptr) : Heap :=
  alter (fun cell => {| name := name cell; value := value cell ++ [v] |}) c h.

(** [c.name = s] *)
Definition setName (h : Heap) (c : ptr) (s : string) : Heap :=
  alter (fun cell => {| name := s; value := value cell |}) c h.

(** ** The parser *)

(** [type Parser struct]: reader, current line, line number, size read so
    far and the two limits ([-1]: none). *)
Record Parser := {
  content : Reader;
  line : list byte;
  lineno : Z;
  size : Z;
  heightLimit : Z;
  sizeLimit : Z
}.

(** Assignments to the fields of [*p]. *)
Definition set_content (r : Reader) (p : Parser) : Parser :=
  {| content := r; line := line p; lineno := lineno p; size := size p;
     heightLimit := heightLimit p; sizeLimit := sizeLimit p |}.
Definition set_line (l : list byte) (p : Parser) : Parser :=
  {| content := content p; line := l; lineno := lineno p; size := size p;
     heightLimit := heightLimit p; sizeLimit := sizeLimit p |}.
Definition set_lineno (n : Z) (p : Parser) : Parser :=
  {| content := content p; line := line p; lineno := n; size := size p;
     heightLimit := heightLimit p; sizeLimit := sizeLimit p |}.
Definition set_size (n : Z) (p : Parser) : Parser :=
  {| content := content p; line := line p; lineno := lineno p; size := n;
     heightLimit := heightLimit p; sizeLimit := sizeLimit p |}.
Definition set_heightLimit (n : Z) (p : Parser) : Parser :=
  {| content := content p; line := line p; lineno := lineno p; size := size p;
     heightLimit := n; sizeLimit := sizeLimit p |}.
Definition set_sizeLimit (n : Z) (p : Parser) : Parser :=
  {| content := content p; line := line p; lineno := lineno p; size := size p;
     heightLimit := heightLimit p; sizeLimit := n |}.

(** [type ParserOptFunc func(p *Parser) error]; the error is a
    [ParserOptFuncError], a string. *)
Definition ParserOptFunc := Parser -> Parser + string.

(** [func HeightLimit(limit int) ParserOptFunc] *)
Definition HeightLimit (limit : Z) : ParserOptFunc := fun p =>
  if 0 <? limit then inl (set_heightLimit limit p)
  else inr "Height limit must be greater than 0."%string.

(** [func SizeLimit(limit int) ParserOptFunc] *)
Definition SizeLimit (limit : Z) : ParserOptFunc := fun p =>
  if 0 <? limit then inl (set_sizeLimit limit p)
  else inr "Size limit must be greater than 0."%string.

(** [for _, option := range options { if err := option(h); err != nil { return nil, err } }] *)
Fixpoint applyOptions (options : list ParserOptFunc) (h : Parser) : Parser + string :=
  match options with
  | [] => inl h
  | option :: rest =>
      match option h with
      | inr err => inr err
      | inl h' => applyOptions rest h'
      end
  end.

(** [func NewParser(content io.Reader, options ...ParserOptFunc)]: the
    parser, or the error of the first option that fails. *)
Definition NewParser (content : Reader) (options : list ParserOptFunc) : Parser + string :=
  applyOptions options
    {| content := content; line := []; lineno := 0; size := 0;
       heightLimit := -1; sizeLimit := -1 |}.

(** The texts of the [ConfigError] values. *)
Definition height_message (limit : Z) : string :=
  ("tree height exceeds limit: " ++ itoa limit)%string.
Definition size_message (limit : Z) : string :=
  ("size of config exceeds limit: " ++ itoa limit)%string.
Definition unterminated_message : string :=
  "Unterminated compound group, not enough ':'"%string.
Definition terminators_message : string :=
  "Too many compound terminators ':'"%string.

(** [func (p *Parser) checkHeight(height int) error]: fails when
    [height > p.heightLimit]. *)
Definition checkHeight (p : Parser) (height : Z) : option error :=
  if negb (heightLimit p =? -1) then
    if heightLimit p <? height then
      Some (config_error (ConfigError.mk (height_message (heightLimit p)) (lineno p) 0))
    else None
  else None.

(** [func (p *Parser) checkSize() error]: fails when
    [p.size >= p.sizeLimit]. *)
Definition checkSize (p : Parser) : option error :=
  if negb (sizeLimit p =? -1) then
    if sizeLimit p <=? size p then
      Some (config_error (ConfigError.mk (size_message (sizeLimit p)) (lineno p) 0))
    else None
  else None.

(** The [for prefix { ... }] loop of [nextLine], entered with
    [prefix = true]; [rest] is what the reader still holds, so that each
    round is one [ReadLine].  At the end of the stream [ReadLine] gives
    [(nil, false, err)]: [io.EOF] is let through, adds nothing and ends the
    loop; any other error is returned. *)
Fixpoint nextLine_more (rest : list (list byte * bool)) (p : Parser)
  : Parser * option error :=
  match rest with
  | [] =>
      match failure (content p) with
      | Some msg => (p, Some (io_failure msg))
      | None =>
          let p := set_size (wrap (size p + len (@nil byte))) p in
          match checkSize p with
          | Some err => (p, Some err)
          | None => (set_lineno (wrap (lineno p + 1)) (set_line (line p ++ []) p), None)
          end
      end
  | (tline, prefix) :: rest' =>
      let p := set_content {| pending := rest'; failure := failure (content p) |} p in
      let p := set_size (wrap (size p + len tline)) p in
      match checkSize p with
      | Some err => (p, Some err)
      | None =>
          let p := set_line (line p ++ tline) p in
          if prefix then nextLine_more rest' p
          else (set_lineno (wrap (lineno p + 1)) p, None)
      end
  end.

(** [func (p *Parser) nextLine() error], with the parser it leaves. *)
Definition nextLine (p : Parser) : Parser * option error :=
  let '(l, prefix, err, r) := ReadLine (content p) in
  let p := set_line l (set_content r p) in
  match err with
  | Some e => (p, Some e)
  | None =>
      let p := set_size (wrap (size p + len (line p))) p in
      match checkSize p with
      | Some e => (p, Some e)
      | None =>
          if prefix then nextLine_more (pending (content p)) p
          else (set_lineno (wrap (lineno p + 1)) p, None)
      end
  end.

(** ** One round of [iterParse] *)

(** The variables of [iterParse] that live across rounds of its loop, with
    the receiver [p] and the memory the [*Config] values point into. *)
Record LoopState := {
  parser : Parser;
  heap : Heap;
  stack : list ptr;
  c : ptr
}.

Definition set_parser (p : Parser) (s : LoopState) : LoopState :=
  {| parser := p; heap := heap s; stack := stack s; c := c s |}.

(** How a round ends: [Continue] for [continue] and for the end of the
    body, [Break] for [break out] with the value [err] then has. *)
Inductive Flow :=
| Continue (s : LoopState)
| Break (s : LoopState) (err : option error).

(** [for ; i < len(p.line); i++ { if p.line[i] != ' ' && p.line[i] != '\t' { break } }],
    with [n] the rounds left, [len(p.line) - i]. *)
Fixpoint skipBlank (n : nat) (l : list byte) (i : Z) : Z :=
  match n with
  | O => i
  | S n' =>
      if negb (Byte.eqb (byteAt l i) byte_space) && negb (Byte.eqb (byteAt l i) byte_tab)
      then i
      else skipBlank n' l (i + 1)
  end.

(** The scan for the name: value separator,
    [for ; i < end; i++ { ... }], with [n] the rounds left, [end - i];
    the result is the final [nvPairNameEnd]. *)
Fixpoint scanPair (n : nat) (l : list byte) (i : Z)
    (nvPairNameEnd : Z) (foundNVPairMaybe : bool) : Z :=
  match n with
  | O => nvPairNameEnd
  | S n' =>
      if Byte.eqb (byteAt l i) byte_colon then
        scanPair n' l (i + 1) nvPairNameEnd true
      else if foundNVPairMaybe && Byte.eqb (byteAt l i) byte_space then
        scanPair n' l (i + 1) (i - 1) foundNVPairMaybe
      else if foundNVPairMaybe then
        scanPair n' l (i + 1) nvPairNameEnd false
      else
        scanPair n' l (i + 1) nvPairNameEnd foundNVPairMaybe
  end.

(** What the first half of the loop body computes from [p.line]: nothing
    for a line it skips ([continue]), else the local variables [start],
    [foundContentStart], [end], [endToken] and [nvPairNameEnd].  Both
    branches of the content marker test leave [start = i]: the marker sets
    [i++; start = i], its absence keeps [start := i]. *)
Record Scan := {
  start : Z;
  foundContentStart : bool;
  end_ : Z;
  endToken : byte;
  nvPairNameEnd : Z
}.

Definition classify (l : list byte) : option Scan :=
  let i := skipBlank (length l) l 0 in
  if i =? len l then None
  else
    let foundContentStart := Byte.eqb (byteAt l i) byte_quote in
    if negb foundContentStart && Byte.eqb (byteAt l i) byte_hash then None
    else
      let i := if foundContentStart then i + 1 else i in
      let start := i in
      let end_ := len l in
      let endToken := byteAt l (end_ - 1) in
      let end_ :=
        if Byte.eqb endToken byte_colon then end_ - 1
        else if Byte.eqb endToken byte_quote then
               (if negb (start =? end_) then end_ - 1 else end_)
        else end_ in
      Some {| start := start; foundContentStart := foundContentStart;
              end_ := end_; endToken := endToken;
              nvPairNameEnd := scanPair (Z.to_nat (end_ - i)) l i (-1) false |}.

(** [stack[len(stack)-1]] *)
Definition top (stack : list ptr) : ptr := nth (length stack - 1) stack 0%nat.

(** The second half of the loop body: [newConf := &Config{}] and the
    [switch (endToken)]. *)
Definition build (k : Scan) (s : LoopState) : Flow :=
  let p := parser s in
  let '(h, newConf) := alloc (heap s) {| name := ""; value := [] |} in
  if Byte.eqb (endToken k) byte_colon then
    if (start k =? end_ k) && negb (foundContentStart k) then
      let stack := removelast (stack s) in
      if len stack =? 0 then
        Break {| parser := p; heap := h; stack := stack; c := c s |} None
      else
        Continue {| parser := p; heap := h; stack := stack; c := top stack |}
    else
      let h := addValue h (c s) newConf in
      let h := setName h newConf (string_of_list_byte (slice (line p) (start k) (end_ k))) in
      let stack := stack s ++ [newConf] in
      let s' := {| parser := p; heap := h; stack := stack; c := newConf |} in
      match checkHeight p (len stack - 1) with
      | Some err => Break s' (Some err)
      | None => Continue s'
      end
  else
    if negb (nvPairNameEnd k =? -1) then
      let h := setName h newConf
                 (string_of_list_byte (slice (line p) (start k) (nvPairNameEnd k))) in
      let '(h, newNewConf) :=
        alloc h {| name := string_of_list_byte (slice (line p) (nvPairNameEnd k + 2) (end_ k));
                   value := [] |} in
      let h := addValue h newConf newNewConf in
      let h := addValue h (c s) newConf in
      Continue {| parser := p; heap := h; stack := stack s; c := c s |}
    else
      let h := setName h newConf (string_of_list_byte (slice (line p) (start k) (end_ k))) in
      let h := addValue h (c s) newConf in
      Continue {| parser := p; heap := h; stack := stack s; c := c s |}.

Definition body (s : LoopState) : Flow :=
  match classify (line (parser s)) with
  | None => Continue s
  | Some k => build k s
  end.

(** One round of [for err = p.nextLine(); err == nil; err = p.nextLine()]:
    the call of [nextLine], the test and the body.  A failed test leaves
    the loop with [err] set, as a [break] does. *)
Definition round (s : LoopState) : Flow :=
  let '(p, err) := nextLine (parser s) in
  match err with
  | Some e => Break (set_parser p s) (Some e)
  | None => body (set_parser p s)
  end.

(** What the reader still holds bounds the rounds left. *)
Definition unread (s : LoopState) : nat := length (pending (content (parser s))).

(** ** The loop, [iterParse] and [ParseConfig] *)

(** A call of [nextLine] that returns no error has taken at least one
    result off the reader, so the loop of [iterParse] ends. *)
Lemma nextLine_more_unread rest p p' :
  pending (content p) = rest ->
  nextLine_more rest p = (p', None) ->
  (length (pending (content p')) <= length rest)%nat.
Proof.
  revert p. induction rest as [|[tline prefix] rest IH]; intros p Hp; simpl.
  - destruct (failure (content p)); [discriminate|].
    destruct (checkSize _); [discriminate|]. intros [= <-]. simpl. now rewrite Hp.
  - destruct (checkSize _); [discriminate|].
    destruct prefix.
    + intros H. apply IH in H; [lia|reflexivity].
    + intros [= <-]. simpl. lia.
Qed.

Lemma nextLine_unread p p' :
  nextLine p = (p', None) ->
  (length (pending (content p')) < length (pending (content p)))%nat.
Proof.
  unfold nextLine, ReadLine.
  destruct (pending (content p)) as [|[l prefix] rest] eqn:E; [discriminate|].
  simpl. destruct (checkSize _); [discriminate|].
  destruct prefix.
  - intros H. apply nextLine_more_unread in H; [simpl in H; lia|reflexivity].
  - intros [= <-]. simpl. lia.
Qed.

Lemma build_parser k s s' : build k s = Continue s' -> parser s' = parser s.
Proof.
  unfold build. simpl.
  repeat match goal with
         | |- context [if ?b then _ else _] => destruct b
         | |- context [match ?x with Some _ => _ | None => _ end] => destruct x
         end; intros [= <-]; reflexivity.
Qed.

Lemma body_parser s s' : body s = Continue s' -> parser s' = parser s.
Proof.
  unfold body. destruct (classify _); [apply build_parser|].
  intros [= <-]; reflexivity.
Qed.

Lemma round_unread s s' : round s = Continue s' -> (unread s' < unread s)%nat.
Proof.
  unfold round, unread. destruct (nextLine (parser s)) as [p [e|]] eqn:E; [discriminate|].
  intros H. apply body_parser in H. rewrite H. simpl.
  now apply nextLine_unread.
Qed.

(** One round and, if it stays in the loop, the rounds after it: the body
    of the recursion below, which [round_unread] makes well founded. *)
Definition iterLoop_body (s : LoopState)
    (again : forall s', (unread s' < unread s)%nat -> LoopState * option error)
  : LoopState * option error :=
  match round s as f return round s = f -> LoopState * option error with
  | Continue s' => fun H => again s' (round_unread s s' H)
  | Break s' err => fun _ => (s', err)
  end eq_refl.

(** The loop of [iterParse], from the state at its head to the state and
    the [err] it is left with. *)
Definition iterLoop : LoopState -> LoopState * option error :=
  Fix (well_founded_ltof LoopState unread) (fun _ => (LoopState * option error)%type)
    iterLoop_body.

(** The statements of [iterParse] after its loop. *)
Definition iterParse_result (s : LoopState) (err : option error) : option error :=
  if is_EOF err && (1 <? len (stack s)) then
    Some (config_error (ConfigError.mk unterminated_message (lineno (parser s)) 0))
  else if len (stack s) =? 0 then
    Some (config_error (ConfigError.mk terminators_message (lineno (parser s)) 0))
  else if negb (is_EOF err) then err
  else None.

(** [func (p *Parser) iterParse(root *Config) error], with the parser and
    the memory it leaves. *)
Definition iterParse (p : Parser) (h : Heap) (root : ptr) : LoopState * option error :=
  let stack := [root] in
  let c := top stack in
  let '(s, err) := iterLoop {| parser := p; heap := h; stack := stack; c := c |} in
  (s, iterParse_result s err).

(** What a call of [ParseConfig] leaves: the returned [root] and [err],
    the memory [root] points into and the parser. *)
Record Parsed := {
  root : ptr;
  err : option error;
  memory : Heap;
  after : Parser
}.

Definition root_name : string := "__root__".

(** [func (p *Parser) ParseConfig()], returning a [*Config] and an [error]. *)
Definition ParseConfig (p : Parser) : Parsed :=
  let '(h, root) := alloc [] {| name := root_name; value := [] |} in
  let '(s, err) := iterParse p h root in
  {| root := root; err := err; memory := heap s; after := parser s |}.

(** ** Reading the result *)

(** The tree a [*Config] stands for. *)
#[local] Set Warnings "-register-all".
Inductive Tree := Node (label : string) (children : list Tree).

(** The tree below address [a], to depth [depth]. *)
Fixpoint tree_at (depth : nat) (h : Heap) (a : ptr) : Tree :=
  match depth with
  | O => Node "" []
  | S d =>
      match h !! a with
      | Some cell => Node (name cell) (map (tree_at d h) (value cell))
      | None => Node "" []
      end
  end.

(** [conf.value[i]], if there is one. *)
Definition child (h : Heap) (a : ptr) (i : nat) : option ptr :=
  match h !! a with
  | Some cell => value cell !! i
  | None => None
  end.

(** ** [DebugPrintConfig] *)

(** [for i := 0; i < depth; i++ { padding.WriteRune('-') }], with [n] the
    rounds of the loop. *)
Fixpoint dashes (n : nat) : string :=
  match n with
  | O => EmptyString
  | S n' => String (Ascii.ascii_of_byte "-"%byte) (dashes n')
  end.

(** [for _, v := range root.value { ... }]: what the calls write, one after
    the other; nothing if one of them does not return. *)
Definition each (call : ptr -> option (list string)) : list ptr -> option (list string) :=
  fix go (vs : list ptr) : option (list string) :=
    match vs with
    | [] => Some []
    | v :: vs' =>
        match call v with
        | None => None
        | Some out =>
            match go vs' with
            | None => None
            | Some out' => Some (out ++ out')
            end
        end
    end.

(** [func DebugPrintConfig(root *Config, depth int)]: the strings its calls
    of [fmt.Printf("%s%s\n", ...)] write to the standard output, in order.
    [fuel] bounds the depth of the recursion; [None] is a run that needs
    more, or that meets a pointer into no cell. *)
Fixpoint DebugPrintConfig (fuel : nat) (h : Heap) (root : ptr) (depth : Z)
  : option (list string) :=
  match fuel with
  | O => None
  | S fuel' =>
      match h !! root with
      | None => None
      | Some cell =>
          match each (fun v => DebugPrintConfig fuel' h v (depth + 1)) (value cell) with
          | None => None
          | Some out =>
              Some ((dashes (Z.to_nat depth) ++ name cell
                     ++ String (Ascii.ascii_of_byte byte_lf) EmptyString)%string :: out)
          end
      end
  end.

(** ** [bufio.NewReader] over a byte string *)

(** The parser reads through [bufio.NewReader(r)], whose buffer holds
    [defaultBufSize] bytes.  For [r = strings.NewReader(s)] the results of
    [ReadLine] are a function of [s], given here after the Go library:
    a line ends at ["\n"], which is dropped with a ["\r"] before it; a
    line that fills the buffer without one is handed out in pieces with
    [isPrefix] set, keeping a final ["\r"] back for the next piece. *)
Definition defaultBufSize : nat := 4096.

(** [ReadSlice('\n')] on what is left to read, with [room] bytes of
    buffer: the bytes before the delimiter, what is left after it, and
    whether the delimiter was found within [room] bytes. *)
Fixpoint readSlice (room : nat) (s : list byte) : list byte * list byte * bool :=
  match room, s with
  | O, _ => ([], s, false)
  | _, [] => ([], [], false)
  | S r, b :: s' =>
      if Byte.eqb b byte_lf then ([], s', true)
      else let '(l, rest, found) := readSlice r s' in (b :: l, rest, found)
  end.

Definition ends_cr (l : list byte) : bool :=
  match l with
  | [] => false
  | _ => Byte.eqb (List.last l x00) byte_cr
  end.

(** One [ReadLine] on a non-empty rest of input. *)
Definition readLine (s : list byte) : (list byte * bool) * list byte :=
  let '(l, rest, found) := readSlice defaultBufSize s in
  if found then ((if ends_cr l then removelast l else l, false), rest)
  else if (length l <? defaultBufSize)%nat then ((l, false), rest)
  else if ends_cr l then ((removelast l, true), byte_cr :: rest)
  else ((l, true), rest).

(** A [ReadLine] on input that is left takes at least one byte of it. *)
Lemma readSlice_length room s l rest found :
  readSlice room s = (l, rest, found) ->
  (length l + length rest + (if found then 1 else 0) = length s)%nat
  /\ (found = false -> length l = Nat.min room (length s)).
Proof.
  revert s l rest found. induction room as [|r IH]; intros s l rest found; simpl.
  - intros [= <- <- <-]. simpl. split; [lia|reflexivity].
  - destruct s as [|b s']; [intros [= <- <- <-]; simpl; split; [lia|reflexivity]|].
    destruct (Byte.eqb b byte_lf).
    + intros [= <- <- <-]. simpl. split; [lia|discriminate].
    + destruct (readSlice r s') as [[l' rest'] found'] eqn:E.
      intros [= <- <- <-]. destruct (IH _ _ _ _ E) as [H1 H2].
      simpl. split; [lia|]. intros F. rewrite (H2 F). reflexivity.
Qed.

Lemma readLine_shorter b s chunk rest :
  readLine (b :: s) = (chunk, rest) -> (length rest < length (b :: s))%nat.
Proof.
  unfold readLine.
  destruct (readSlice defaultBufSize (b :: s)) as [[l r] found] eqn:E.
  destruct (readSlice_length _ _ _ _ _ E) as [H1 H2].
  destruct found.
  - intros [= _ <-]. lia.
  - specialize (H2 eq_refl).
    destruct (Nat.ltb_spec (length l) defaultBufSize).
    + intros [= _ <-]. simpl length in *. lia.
    + assert (length l = defaultBufSize) as Hl by lia.
      assert (1 < defaultBufSize)%nat as HB by (unfold defaultBufSize; lia).
      destruct (ends_cr l); intros [= _ <-]; simpl length in *; lia.
Qed.

(** One [ReadLine] and those after it, until the input is used up: the
    body of the recursion below, which [readLine_shorter] makes well
    founded. *)
Definition lines_of_body (s : list byte)
    (again : forall s', (length s' < length s)%nat -> list (list byte * bool))
  : list (list byte * bool) :=
  match s as s0
        return (forall s', (length s' < length s0)%nat -> list (list byte * bool)) ->
               list (list byte * bool) with
  | [] => fun _ => []
  | b :: t => fun again =>
      match readLine (b :: t) as r
            return readLine (b :: t) = r -> list (list byte * bool) with
      | (chunk, rest) => fun H => chunk :: again rest (readLine_shorter b t chunk rest H)
      end eq_refl
  end again.

(** Every result [ReadLine] gives before the end of the input [s]. *)
Definition lines_of : list byte -> list (list byte * bool) :=
  Fix (well_founded_ltof (list byte) (@length byte))
    (fun _ => list (list byte * bool)) lines_of_body.

(** [bufio.NewReader(strings.NewReader(s))]: the input ends with [io.EOF]. *)
Definition bufio_NewReader (s : string) : Reader :=
  {| pending := lines_of (bytes s); failure := None |}.

(** [NewParser(strings.NewReader(s), options...)] followed by
    [ParseConfig()], as the package's tests call them. *)
Definition parse_string (s : string) (options : list ParserOptFunc) : Parsed + string :=
  match NewParser (bufio_NewReader s) options with
  | inl p => inl (ParseConfig p)
  | inr e => inr e
  end.

(** The returned tree, for display. *)
Definition tree_of (r : Parsed) : Tree := tree_at (length (memory r)) (memory r) (root r).

(** ** The recursive variant *)

(** The recursive parser in [treetextconf.go], which the iterative parser
    above replaces.  [NewParser], [checkSize], [nextLine] and the scan of
    a line are the same in both.  Its [checkHeight] compares with [>=]. *)
Module Recursive.
Definition checkHeight (p : Parser) (height : Z) : option error :=
  if negb (heightLimit p =? -1) then
    if heightLimit p <=? height then
      Some (config_error (ConfigError.mk (height_message (heightLimit p)) (lineno p) 0))
    else None
  else None.

(** [func (p *Parser) recursiveParse(c *Config, height int) error], with
    the parser and the memory it leaves, and its loop
    [for err = p.nextLine(); err != io.EOF; err = p.nextLine()].  The
    loop goes on after an error of [nextLine] that is not [io.EOF], with
    the line read so far; after an error of the reader it reads again,
    and [Reader] then gives the same error again, so the properties of
    this parser are stated for readers that end with [io.EOF].  A call
    and a round of the loop each take one unit of [fuel]; [None] is a run
    that needs more.  [height] is bounded by the number of lines read and
    kept exact. *)
Fixpoint recursiveParse (fuel : nat) (p : Parser) (h : Heap) (c : ptr) (height : Z)
    {struct fuel} : option (Parser * Heap * option error) :=
  match fuel with
  | O => None
  | S fuel' =>
      match checkHeight p height with
      | Some err => Some (p, h, Some err)
      | None => loop fuel' p h c height
      end
  end
with loop (fuel : nat) (p : Parser) (h : Heap) (c : ptr) (height : Z)
    {struct fuel} : option (Parser * Heap * option error) :=
  match fuel with
  | O => None
  | S fuel' =>
      let '(p, err) := nextLine p in
      if is_EOF err then
        if 0 <? height then
          Some (p, h,
                Some (config_error (ConfigError.mk unterminated_message (lineno p) 0)))
        else Some (p, h, err)
      else
        match classify (line p) with
        | None => loop fuel' p h c height
        | Some k =>
            let '(h, newConf) := alloc h {| name := ""; value := [] |} in
            if Byte.eqb (endToken k) byte_colon then
              if (start k =? end_ k) && negb (foundContentStart k) then
                Some (p, h, None)
              else
                let h := addValue h c newConf in
                let h := setName h newConf
                           (string_of_list_byte (slice (line p) (start k) (end_ k))) in
                match recursiveParse fuel' p h newConf (height + 1) with
                | None => None
                | Some (p, h, Some err) => Some (p, h, Some err)
                | Some (p, h, None) => loop fuel' p h c height
                end
            else
              if negb (nvPairNameEnd k =? -1) then
                let h := setName h newConf
                           (string_of_list_byte (slice (line p) (start k) (nvPairNameEnd k))) in
                let '(h, newNewConf) :=
                  alloc h {| name := string_of_list_byte
                                       (slice (line p) (nvPairNameEnd k + 2) (end_ k));
                             value := [] |} in
                let h := addValue h newConf newNewConf in
                let h := addValue h c newConf in
                loop fuel' p h c height
              else
                let h := setName h newConf
                           (string_of_list_byte (slice (line p) (start k) (end_ k))) in
                let h := addValue h c newConf in
                loop fuel' p h c height
        end
  end.

(** [func (p *Parser) ParseConfig()] of the recursive parser: a return of
    [nil] by [recursiveParse] is a close at the root, [io.EOF] is the
    good end. *)
Definition ParseConfig (fuel : nat) (p : Parser) : option Parsed :=
  let '(h, root) := alloc [] {| name := root_name; value := [] |} in
  match recursiveParse fuel p h root 0 with
  | None => None
  | Some (p, h, err) =>
      Some {| root := root;
              err := match err with
                     | None =>
                         Some (config_error
                                 (ConfigError.mk terminators_message (lineno p) 0))
                     | Some e => if is_EOF (Some e) then None else Some e
                     end;
              memory := h;
              after := p |}
  end.
End Recursive.

(** * Notions used in the properties *)

(** [reaches s s']: the loop entered in [s] comes to its head again in
    [s'], after some rounds. *)
Inductive reaches (s : LoopState) : LoopState -> Prop :=
| reaches_here : reaches s s
| reaches_round s1 s2 : reaches s s1 -> round s1 = Continue s2 -> reaches s s2.

(** The state [iterParse] enters its loop in, inside [ParseConfig]. *)
Definition entry (p : Parser) : LoopState :=
  {| parser := p; heap := [ {| name := root_name; value := [] |} ];
     stack := [0%nat]; c := 0%nat |}.

(** [grows h h']: every cell of [h] is in [h'] at its address, under its
    name, with its children and possibly more after them. *)
Definition grows (h h' : Heap) : Prop :=
  forall a cell, h !! a = Some cell ->
    exists more, h' !! a = Some {| name := name cell; value := value cell ++ more |}.

(** The four ways the [switch] of the loop body can go. *)
Definition is_close (k : Scan) : bool :=
  Byte.eqb (endToken k) byte_colon && ((start k =? end_ k) && negb (foundContentStart k)).
Definition is_open (k : Scan) : bool :=
  Byte.eqb (endToken k) byte_colon && negb ((start k =? end_ k) && negb (foundContentStart k)).
Definition is_pair (k : Scan) : bool :=
  negb (Byte.eqb (endToken k) byte_colon) && negb (nvPairNameEnd k =? -1).
Definition is_leaf (k : Scan) : bool :=
  negb (Byte.eqb (endToken k) byte_colon) && (nvPairNameEnd k =? -1).

(** [&Config{}] *)
Definition blank : Config := {| name := ""; value := [] |}.

(** The text between [start] and [end]. *)
Definition span (l : list byte) (k : Scan) : string :=
  string_of_list_byte (slice l (start k) (end_ k)).

(** The state after the push of an open-scope line. *)
Definition pushed (k : Scan) (s : LoopState) : LoopState :=
  let n := length (heap s) in
  {| parser := parser s;
     heap := setName (addValue (heap s ++ [blank]) (c s) n) n (span (line (parser s)) k);
     stack := stack s ++ [n];
     c := n |}.

(** The bytes the loop body skips at the head of a line. *)
Definition is_blank (b : byte) : bool :=
  Byte.eqb b byte_space || Byte.eqb b byte_tab.

(** What [classify] finds on a line of blanks [ws] followed by [b :: tl]
    with [b] no blank. *)
Definition classified (ws : list byte) (b : byte) (tl : list byte) : option Scan :=
  let l := ws ++ b :: tl in
  let foundContentStart := Byte.eqb b byte_quote in
  if negb foundContentStart && Byte.eqb b byte_hash then None
  else
    let i := if foundContentStart then len ws + 1 else len ws in
    let endToken := List.last (b :: tl) x00 in
    let end_ :=
      if Byte.eqb endToken byte_colon then len l - 1
      else if Byte.eqb endToken byte_quote then
             (if negb (i =? len l) then len l - 1 else len l)
      else len l in
    Some {| start := i; foundContentStart := foundContentStart;
            end_ := end_; endToken := endToken;
            nvPairNameEnd := scanPair (Z.to_nat (end_ - i)) l i (-1) false |}.

(** The parser [NewParser] builds around a reader, with the given limits. *)
Definition fresh (r : Reader) (heightLimit sizeLimit : Z) : Parser :=
  {| content := r; line := []; lineno := 0; size := 0;
     heightLimit := heightLimit; sizeLimit := sizeLimit |}.

(** The tree and the error of a parse of [s] without limits. *)
Definition run (s : string) : Tree * option error :=
  let r := ParseConfig (fresh (bufio_NewReader s) (-1) (-1)) in
  (tree_of r, err r).

(** The state at the head of the loop after [n] more rounds, or where the
    loop is left before that. *)
Fixpoint after_rounds (n : nat) (s : LoopState) : LoopState :=
  match n with
  | O => s
  | S n' =>
      match round s with
      | Continue s' => after_rounds n' s'
      | Break _ _ => s
      end
  end.

(** Each node on the stack has the next one among its children. *)
Definition linked (h : Heap) (st : list ptr) : Prop :=
  forall i a b, st !! i = Some a -> st !! S i = Some b ->
    exists cell, h !! a = Some cell /\ b ∈ value cell.

(** What every round keeps: the root is at the bottom of the stack, [c] is
    its top, its entries are allocated and form a path from the root. *)
Record sound (s : LoopState) : Prop := {
  sound_root : exists rest, stack s = 0%nat :: rest;
  sound_top : c s = top (stack s);
  sound_alloc : forall i a, stack s !! i = Some a -> (a < length (heap s))%nat;
  sound_linked : linked (heap s) (stack s)
}.

(** The two shapes of an open-scope line: blanks, the content marker, any
    content and the terminator; or blanks, a content that starts with
    neither a blank nor the marker nor [#], and the terminator. *)
Definition open_line (ws content : list byte) (escaped : bool) : list byte :=
  ws ++ (if escaped then [byte_quote] else []) ++ content ++ [byte_colon].

(** A content that needs no content marker before it. *)
Definition plain_content (content : list byte) : Prop :=
  match content with
  | [] => False
  | b :: _ => is_blank b = false /\ b <> byte_quote /\ b <> byte_hash
  end.

(** Lines of text joined by line feeds. *)
Definition lf : string := String (Ascii.ascii_of_byte byte_lf) EmptyString.
Definition text (ls : list string) : string := String.concat lf ls.

(** Whether an error is the one [checkHeight] makes. *)
Definition is_height_error (e : option error) : Prop :=
  exists limit n, e = Some (config_error (ConfigError.mk (height_message limit) n 0)).

(** [descends h a d b]: in [h], node [b] is [d] levels below node [a]. *)
Inductive descends (h : Heap) (a : ptr) : nat -> ptr -> Prop :=
| descends_here : descends h a 0 a
| descends_child d b cell x :
    descends h a d b -> h !! b = Some cell -> x ∈ value cell -> descends h a (S d) x.

(** The bytes of a run of [ReadLine] results. *)
Definition chunk_bytes (cs : list (list byte * bool)) : Z :=
  fold_right (fun ch n => len (fst ch) + n) 0 cs.

(** An [int] holds a value in its range. *)
Definition is_int (z : Z) : Prop := wrap z = z.

(** The state a round leaves, whichever way it ends. *)
Definition flow_state (f : Flow) : LoopState :=
  match f with Continue s => s | Break s _ => s end.

(** [accounted p0 p]: since [p0] the parser has read the results [used]
    and counted their bytes, and nothing else. *)
Definition accounted (p0 p : Parser) : Prop :=
  is_int (size p)
  /\ exists used,
       pending (content p0) = used ++ pending (content p)
       /\ size p = wrap (size p0 + chunk_bytes used).

(** The state with its parser changed by [f]. *)
Definition on_parser (f : Parser -> Parser) (s : LoopState) : LoopState :=
  set_parser (f (parser s)) s.

(** The same end of a round, in the state changed by [g]. *)
Definition flow_map (g : LoopState -> LoopState) (fl : Flow) : Flow :=
  match fl with
  | Continue s => Continue (g s)
  | Break s e => Break (g s) e
  end.

(** [within p]: the counter is not negative and, with all that is left to
    read, stays under the limit. *)
Definition within (p : Parser) : Prop :=
  0 <= size p
  /\ size p + chunk_bytes (pending (content p)) < sizeLimit p
  /\ sizeLimit p <= max_int.

(** The parser without its size limit. *)
Definition no_size_limit (p : Parser) : Parser := set_sizeLimit (-1) p.

(** Closes a goal whose first hypothesis equates different constructors. *)
Ltac absurd_eq := let X := fresh in intros X; discriminate X.

(** The parser without its depth limit. *)
Definition no_height_limit (p : Parser) : Parser := set_heightLimit (-1) p.

(** The nesting depth the parse is at: [len(stack) - 1]. *)
Definition depth (s : LoopState) : Z := len (stack s) - 1.

(** Whether the round of [s] pushes a node: its line is an open-scope
    line. *)
Definition pushes (s : LoopState) : bool :=
  match nextLine (parser s) with
  | (p', None) =>
      match classify (line p') with
      | Some k => is_open k
      | None => false
      end
  | _ => false
  end.

(** Without the depth limit a round does the same, except that a push
    which the check refused now goes on. *)
Definition unchecked (pushing : bool) (fl : Flow) : Flow :=
  match fl with
  | Continue s' => Continue (on_parser no_height_limit s')
  | Break s' e =>
      if pushing then Continue (on_parser no_height_limit s')
      else Break (on_parser no_height_limit s') e
  end.

(** A colon at [j] with a space right after it. *)
Definition colon_space (l : list byte) (j : Z) : Prop :=
  byteAt l j = byte_colon /\ byteAt l (j + 1) = byte_space.

(** The split point as the specification words it: [j] is the place of
    the last colon with a space right after it, both within [[s, e)]. *)
Definition last_colon_space (l : list byte) (s e j : Z) : Prop :=
  s <= j /\ j + 1 < e /\ colon_space l j
  /\ forall j', j < j' -> j' + 1 < e -> ~ colon_space l j'.




(** ** Further notions *)







(** A line that is neither skipped nor ends in the terminator: blanks,
    the content, with the content marker before it or not, and with the
    content marker after it or not. *)
Definition content_line (ws content : list byte) (escaped closed : bool) : list byte :=
  ws ++ (if escaped then [byte_quote] else [])
     ++ content ++ (if closed then [byte_quote] else []).

(** A content that needs no content marker after it. *)
Definition open_ended (content : list byte) : Prop :=
  match content with
  | [] => True
  | _ => List.last content x00 <> byte_colon /\ List.last content x00 <> byte_quote
  end.


(** [ordered h]: the children of a cell are allocated and have greater
    addresses than the cell. *)
Definition ordered (h : Heap) : Prop :=
  forall a cell i x,
    h !! a = Some cell -> value cell !! i = Some x -> (a < x < length h)%nat.

(** [unshared h]: no address is a child of two cells, or twice a child of
    one. *)
Definition unshared (h : Heap) : Prop :=
  forall a b cell_a cell_b i j x,
    h !! a = Some cell_a -> h !! b = Some cell_b ->
    value cell_a !! i = Some x -> value cell_b !! j = Some x ->
    a = b /\ i = j.

(** [extends h h' c]: [h'] is [h] with new cells after it, of which only
    the first may have a child, a new cell too, and with the first new
    cell added as the last child of [c]. *)
Definition extends (h h' : Heap) (c : ptr) : Prop :=
  (length h < length h')%nat
  /\ (exists cell,
        h !! c = Some cell
        /\ h' !! c = Some {| name := name cell; value := value cell ++ [length h] |})
  /\ (forall a, a <> c -> (a < length h)%nat -> h' !! a = h !! a)
  /\ (forall a cell i x,
        (length h <= a)%nat -> h' !! a = Some cell -> value cell !! i = Some x ->
        a = length h /\ i = 0%nat /\ (length h < x < length h')%nat).

(** Whether the reader ends with [io.EOF]. *)
Definition at_eof (r : Reader) : bool :=
  match failure r with None => true | Some _ => false end.

(** The first logical line of what a reader holds and what follows it:
    the results up to the first that is no prefix, joined.  A line that
    is still open when the results end is closed by [io.EOF], and by
    nothing else. *)
Fixpoint take_line (eof : bool) (chunks : list (list byte * bool))
  : option (list byte * list (list byte * bool)) :=
  match chunks with
  | [] => if eof then Some ([], []) else None
  | (l, prefix) :: rest =>
      if prefix then
        match take_line eof rest with
        | Some (l', rest') => Some (l ++ l', rest')
        | None => None
        end
      else Some (l, rest)
  end.

(** The number of logical lines in [chunks]; [open] tells whether a line
    is open before them. *)
Fixpoint count_lines (open : bool) (chunks : list (list byte * bool)) : Z :=
  match chunks with
  | [] => if open then 1 else 0
  | (_, prefix) :: rest => (if prefix then 0 else 1) + count_lines prefix rest
  end.

(** The iterative parser's counterpart of a recursive parser: the
    recursive parser refuses a depth the iterative one refuses under a
    limit that is one less. *)
Definition shifted (p : Parser) : Parser :=
  set_heightLimit (if heightLimit p =? -1 then -1 else heightLimit p - 1) p.

(** [comparable p]: no size limit, a reader that ends with [io.EOF], and
    a height limit that [HeightLimit] can have set. *)
Definition comparable (p : Parser) : Prop :=
  sizeLimit p = -1
  /\ failure (content p) = None
  /\ (heightLimit p = -1 \/ 0 < heightLimit p).

(** The errors other than the size error. *)
Definition unterminated (n : Z) : error :=
  config_error (ConfigError.mk unterminated_message n 0).
Definition too_high (limit n : Z) : error :=
  config_error (ConfigError.mk (height_message limit) n 0).

(** Fuel that is enough for the recursive parser on the input of [p]. *)
Definition enough (p : Parser) : nat := (2 * length (pending (content p)) + 2)%nat.

(** [siblings h x y]: [x] is a child of a node of which [y] is a later
    child. *)
Definition siblings (h : Heap) (x y : ptr) : Prop :=
  exists a cell i j,
    h !! a = Some cell /\ value cell !! i = Some x /\ value cell !! j = Some y
    /\ (i < j)%nat.

(** [in_order h]: a node and all below it were made before the later
    children of its parent. *)
Definition in_order (h : Heap) : Prop :=
  forall x y d z, siblings h x y -> descends h x d z -> (z < y)%nat.

(** [rightmost h c]: [c] is below no node that has a later sibling. *)
Definition rightmost (h : Heap) (c : ptr) : Prop :=
  forall x y d, siblings h x y -> ~ descends h x d c.

(** Each element is less than all after it. *)
Fixpoint ascending (l : list nat) : Prop :=
  match l with
  | [] => True
  | x :: l' => Forall (lt x) l' /\ ascending l'
  end.

(** What [DebugPrintConfig] writes for the node at an address and a
    depth. *)
Definition printed (h : Heap) (node : ptr * nat) : string :=
  (dashes (snd node)
   ++ match h !! fst node with Some cell => name cell | None => EmptyString end
   ++ String (Ascii.ascii_of_byte byte_lf) EmptyString)%string.

(** * Properties *)

(** ** The loop *)

Lemma iterLoop_round s :
  iterLoop s =
  match round s with
  | Continue s' => iterLoop s'
  | Break s' err => (s', err)
  end.
Proof.
  unfold iterLoop. rewrite Corelib.Init.Wf.Fix_eq.
  - unfold iterLoop_body at 1.
    generalize (round_unread s). destruct (round s); reflexivity.
  - clear s. intros s f g Hfg. unfold iterLoop_body.
    generalize (round_unread s). destruct (round s); [|reflexivity].
    intros l. apply Hfg.
Qed.

Lemma lines_of_step s :
  lines_of s =
  match s with
  | [] => []
  | _ => let '(chunk, rest) := readLine s in chunk :: lines_of rest
  end.
Proof.
  unfold lines_of. rewrite Corelib.Init.Wf.Fix_eq.
  - destruct s as [|b t]; [reflexivity|]. unfold lines_of_body at 1.
    generalize (readLine_shorter b t). destruct (readLine (b :: t)); reflexivity.
  - clear s. intros s f g Hfg. destruct s as [|b t]; [reflexivity|].
    unfold lines_of_body.
    generalize (readLine_shorter b t). destruct (readLine (b :: t)) as [chunk rest].
    intros l. f_equal. apply Hfg.
Qed.

Lemma iterLoop_reaches s s' : reaches s s' -> iterLoop s = iterLoop s'.
Proof.
  induction 1 as [|s1 s2 _ IH H]; [reflexivity|].
  rewrite IH, (iterLoop_round s1), H. reflexivity.
Qed.

Lemma reaches_trans s1 s2 s3 : reaches s1 s2 -> reaches s2 s3 -> reaches s1 s3.
Proof.
  intros H12 H23. induction H23; [assumption|].
  eapply reaches_round; eassumption.
Qed.

(** The loop always ends, in a round that leaves it. *)
Lemma iterLoop_leaves s :
  exists s1 s2 err,
    reaches s s1 /\ round s1 = Break s2 err /\ iterLoop s = (s2, err).
Proof.
  remember (unread s) as n eqn:Hn. revert s Hn.
  induction n as [n IH] using lt_wf_ind. intros s ->.
  destruct (round s) as [s'|s' e] eqn:R.
  - destruct (IH (unread s') (round_unread _ _ R) s' eq_refl) as (s1 & s2 & e & H1 & H2 & H3).
    exists s1, s2, e. split; [|split; [assumption|]].
    + eapply reaches_trans; [|eassumption].
      eapply reaches_round; [apply reaches_here|assumption].
    + rewrite iterLoop_round, R. assumption.
  - exists s, s', e. split; [apply reaches_here|]. split; [assumption|].
    rewrite iterLoop_round, R. reflexivity.
Qed.

(** A property kept by every round that stays in the loop holds wherever
    the loop comes. *)
Lemma reaches_invariant (I : LoopState -> Prop) s s' :
  (forall s1 s2, I s1 -> round s1 = Continue s2 -> I s2) ->
  I s -> reaches s s' -> I s'.
Proof.
  intros Hstep H0. induction 1 as [|s1 s2 _ IH H]; [assumption|].
  eapply Hstep; eassumption.
Qed.

Lemma ParseConfig_entry p :
  ParseConfig p =
  let '(s, err) := iterLoop (entry p) in
  {| root := 0%nat; err := iterParse_result s err; memory := heap s; after := parser s |}.
Proof.
  unfold ParseConfig, iterParse, alloc, entry, top. simpl.
  destruct (iterLoop _) as [s e]. reflexivity.
Qed.

(** [ParseConfig] returns what the last round leaves. *)
Lemma ParseConfig_leaves p :
  exists s1 s2 e,
    reaches (entry p) s1 /\ round s1 = Break s2 e /\
    ParseConfig p =
    {| root := 0%nat; err := iterParse_result s2 e; memory := heap s2; after := parser s2 |}.
Proof.
  destruct (iterLoop_leaves (entry p)) as (s1 & s2 & e & H1 & H2 & H3).
  exists s1, s2, e. split; [assumption|]. split; [assumption|].
  rewrite ParseConfig_entry, H3. reflexivity.
Qed.

Lemma ParseConfig_reaches p s s' e :
  reaches (entry p) s -> round s = Break s' e ->
  ParseConfig p =
  {| root := 0%nat; err := iterParse_result s' e; memory := heap s'; after := parser s' |}.
Proof.
  intros H R. rewrite ParseConfig_entry, (iterLoop_reaches _ _ H), iterLoop_round, R.
  reflexivity.
Qed.

(** ** Memory: cells are only added and appended to *)

Lemma grows_refl h : grows h h.
Proof.
  intros a [nm vs] H. exists []. now rewrite app_nil_r.
Qed.

Lemma grows_trans h1 h2 h3 : grows h1 h2 -> grows h2 h3 -> grows h1 h3.
Proof.
  intros H12 H23 a cell H.
  destruct (H12 _ _ H) as [m1 H1]. destruct (H23 _ _ H1) as [m2 H2].
  exists (m1 ++ m2). simpl in H2. now rewrite app_assoc.
Qed.

Lemma grows_app h h' l : grows h h' -> grows h (h' ++ l).
Proof.
  intros G a cell H. destruct (G _ _ H) as [m Hm].
  exists m. now apply lookup_app_l_Some.
Qed.

Lemma grows_addValue h h' a v : grows h h' -> grows h (addValue h' a v).
Proof.
  intros G b cell H. destruct (G _ _ H) as [m Hm]. unfold addValue.
  destruct (decide (a = b)) as [->|Hne].
  - exists (m ++ [v]). rewrite list_lookup_alter_eq, Hm. simpl.
    now rewrite app_assoc.
  - exists m. now rewrite list_lookup_alter_ne.
Qed.

Lemma grows_setName h h' a nm :
  (length h <= a)%nat -> grows h h' -> grows h (setName h' a nm).
Proof.
  intros Ha G b cell H. destruct (G _ _ H) as [m Hm]. exists m.
  unfold setName. rewrite list_lookup_alter_ne; [assumption|].
  apply lookup_lt_Some in H. lia.
Qed.

Lemma grows_length h h' : grows h h' -> (length h <= length h')%nat.
Proof.
  intros G. destruct h as [|x h0] eqn:E using rev_ind; [simpl; lia|].
  destruct (G (length h0) x) as [m Hm].
  - now rewrite list_lookup_middle.
  - apply lookup_lt_Some in Hm. rewrite length_app. simpl. lia.
Qed.

Create HintDb heap.
#[local] Hint Resolve grows_refl grows_app grows_addValue grows_setName : heap.

Lemma build_close k s :
  is_close k = true ->
  build k s =
  let stack' := removelast (stack s) in
  if len stack' =? 0
  then Break {| parser := parser s; heap := heap s ++ [blank]; stack := stack'; c := c s |} None
  else Continue {| parser := parser s; heap := heap s ++ [blank]; stack := stack';
                   c := top stack' |}.
Proof.
  unfold is_close, build, alloc. intros [-> ->]%andb_true_iff. reflexivity.
Qed.

Lemma build_open k s :
  is_open k = true ->
  build k s =
  match checkHeight (parser s) (len (stack s ++ [length (heap s)]) - 1) with
  | Some err => Break (pushed k s) (Some err)
  | None => Continue (pushed k s)
  end.
Proof.
  unfold is_open, build, alloc. intros [-> ->%negb_true_iff]%andb_true_iff. reflexivity.
Qed.

Lemma build_pair k s :
  is_pair k = true ->
  build k s =
  let n := length (heap s) in
  let l := line (parser s) in
  Continue
    {| parser := parser s;
       heap := addValue
                 (addValue
                    (setName (heap s ++ [blank]) n
                       (string_of_list_byte (slice l (start k) (nvPairNameEnd k)))
                     ++ [ {| name := string_of_list_byte (slice l (nvPairNameEnd k + 2) (end_ k));
                             value := [] |} ])
                    n (S n))
                 (c s) n;
       stack := stack s; c := c s |}.
Proof.
  unfold is_pair, build, alloc. intros [->%negb_true_iff ->]%andb_true_iff.
  simpl. unfold setName. rewrite length_alter, length_app. simpl.
  replace (length (heap s) + 1)%nat with (S (length (heap s))) by lia. reflexivity.
Qed.

Lemma build_leaf k s :
  is_leaf k = true ->
  build k s =
  let n := length (heap s) in
  Continue
    {| parser := parser s;
       heap := addValue (setName (heap s ++ [blank]) n (span (line (parser s)) k)) (c s) n;
       stack := stack s; c := c s |}.
Proof.
  unfold is_leaf, build, alloc. intros [->%negb_true_iff ->]%andb_true_iff. reflexivity.
Qed.

Lemma scan_cases k :
  is_close k = true \/ is_open k = true \/ is_pair k = true \/ is_leaf k = true.
Proof.
  unfold is_close, is_open, is_pair, is_leaf.
  destruct (Byte.eqb _ _), (_ && negb _), (nvPairNameEnd k =? -1); simpl; auto.
Qed.

Lemma build_grows k s :
  grows (heap s)
    (match build k s with Continue s' => heap s' | Break s' _ => heap s' end).
Proof.
  destruct (scan_cases k) as [H|[H|[H|H]]].
  - rewrite (build_close _ _ H). simpl. destruct (_ =? _); simpl; auto with heap.
  - rewrite (build_open _ _ H). destruct (checkHeight _ _); simpl; auto with heap.
  - rewrite (build_pair _ _ H). simpl. auto 6 with heap.
  - rewrite (build_leaf _ _ H). simpl. auto with heap.
Qed.

Lemma round_grows s :
  grows (heap s)
    (match round s with Continue s' => heap s' | Break s' _ => heap s' end).
Proof.
  unfold round. destruct (nextLine (parser s)) as [p [e|]]; simpl; [apply grows_refl|].
  unfold body. simpl. destruct (classify (line p)) as [k|]; [|apply grows_refl].
  apply (build_grows k (set_parser p s)).
Qed.

Lemma reaches_grows s s' : reaches s s' -> grows (heap s) (heap s').
Proof.
  induction 1 as [|s1 s2 _ IH H]; [apply grows_refl|].
  eapply grows_trans; [exact IH|].
  pose proof (round_grows s1) as G. now rewrite H in G.
Qed.

(** The memory [ParseConfig] leaves has grown from the one it started
    with, which held the root alone. *)
Lemma ParseConfig_grows p :
  root (ParseConfig p) = 0%nat /\
  grows [ {| name := root_name; value := [] |} ] (memory (ParseConfig p)).
Proof.
  destruct (ParseConfig_leaves p) as (s1 & s2 & e & H1 & H2 & ->). simpl.
  split; [reflexivity|].
  eapply grows_trans; [apply (reaches_grows _ _ H1)|].
  pose proof (round_grows s1) as G. now rewrite H2 in G.
Qed.

(** C8. For every parser, whatever its input and its limits and whether
    [ParseConfig] returns an error or not, the [*Config] it returns is a
    cell of the memory and its name is ["__root__"]; for empty input the
    root is there, without children and without an error. *)
Theorem ParseConfig_root_name :
  (forall p : Parser,
      exists children,
        memory (ParseConfig p) !! root (ParseConfig p)
        = Some {| name := "__root__"; value := children |})
  /\ (forall l n z h sz,
        let r := ParseConfig {| content := bufio_NewReader ""; line := l; lineno := n;
                                size := z; heightLimit := h; sizeLimit := sz |} in
        memory r !! root r = Some {| name := "__root__"; value := [] |}
        /\ err r = None).
Proof.
  split.
  - intros p. destruct (ParseConfig_grows p) as [-> G].
    destruct (G 0%nat _ eq_refl) as [more Hm]. exists more. exact Hm.
  - intros l n z h sz r. subst r.
    rewrite ParseConfig_entry, iterLoop_round. unfold round, nextLine, ReadLine.
    change (pending (content (parser (entry _)))) with (lines_of []).
    rewrite lines_of_step. simpl. split; reflexivity.
Qed.

(** ** Lines by their shape *)

Lemma len_app {A} (l1 l2 : list A) : len (l1 ++ l2) = len l1 + len l2.
Proof. unfold len. rewrite length_app. lia. Qed.

Lemma len_nonneg {A} (l : list A) : 0 <= len l.
Proof. unfold len. lia. Qed.

Lemma byteAt_app_r pre l i :
  0 <= i -> byteAt (pre ++ l) (len pre + i) = byteAt l i.
Proof.
  intros Hi. unfold byteAt, len.
  replace (Z.to_nat (Z.of_nat (length pre) + i)) with (length pre + Z.to_nat i)%nat by lia.
  now rewrite app_nth2_plus.
Qed.

Lemma byteAt_middle pre b l : byteAt (pre ++ b :: l) (len pre) = b.
Proof.
  replace (len pre) with (len pre + 0) by lia. now rewrite byteAt_app_r.
Qed.

Lemma byteAt_last l b : byteAt (l ++ [b]) (len (l ++ [b]) - 1) = b.
Proof.
  rewrite len_app. replace (len l + len [b] - 1) with (len l) by (unfold len; simpl; lia).
  apply byteAt_middle.
Qed.

Lemma slice_middle {A} (pre l post : list A) :
  slice (pre ++ l ++ post) (len pre) (len pre + len l) = l.
Proof.
  unfold slice, len.
  replace (Z.to_nat (Z.of_nat (length pre) + Z.of_nat (length l) - Z.of_nat (length pre)))
    with (length l) by lia.
  rewrite Nat2Z.id, drop_app_length, take_app_length. reflexivity.
Qed.

Lemma skipBlank_blanks ws : forall pre rest n,
  forallb is_blank ws = true ->
  match rest with [] => True | b :: _ => is_blank b = false end ->
  (length ws + length rest <= n)%nat ->
  skipBlank n (pre ++ ws ++ rest) (len pre) = len pre + len ws.
Proof.
  induction ws as [|w ws IH]; intros pre rest n Hws Hrest Hn; simpl in *.
  - unfold len at 3. simpl. rewrite Z.add_0_r.
    destruct n as [|n]; [reflexivity|]. simpl.
    destruct rest as [|b rest].
    + rewrite app_nil_r. unfold byteAt, len. rewrite Nat2Z.id, nth_overflow by lia. reflexivity.
    + rewrite byteAt_middle. unfold is_blank in Hrest.
      apply orb_false_iff in Hrest as [-> ->]. reflexivity.
  - apply andb_true_iff in Hws as [Hw Hws].
    destruct n as [|n]; [lia|]. simpl.
    rewrite byteAt_middle. unfold is_blank in Hw.
    replace (negb (Byte.eqb w byte_space) && negb (Byte.eqb w byte_tab)) with false
      by (destruct (Byte.eqb w byte_space), (Byte.eqb w byte_tab); simpl in *; congruence).
    replace (len pre + 1) with (len (pre ++ [w])) by (rewrite len_app; reflexivity).
    replace (pre ++ w :: ws ++ rest) with ((pre ++ [w]) ++ ws ++ rest)
      by (rewrite <- app_assoc; reflexivity).
    rewrite IH; [|assumption|assumption|lia].
    rewrite len_app. unfold len. simpl length. lia.
Qed.

Lemma classify_shape ws b tl :
  forallb is_blank ws = true -> is_blank b = false ->
  classify (ws ++ b :: tl) = classified ws b tl.
Proof.
  intros Hws Hb. unfold classify, classified.
  pose proof (skipBlank_blanks ws [] (b :: tl) (length (ws ++ b :: tl)) Hws Hb) as Hs.
  simpl in Hs. change (len []) with 0 in Hs.
  rewrite Hs, Z.add_0_l by (rewrite length_app; simpl; lia).
  replace (len ws =? len (ws ++ b :: tl)) with false
    by (symmetry; apply Z.eqb_neq; rewrite len_app; unfold len; simpl length; lia).
  rewrite byteAt_middle.
  assert (byteAt (ws ++ b :: tl) (len (ws ++ b :: tl) - 1) = List.last (b :: tl) x00) as ->.
  { destruct (exists_last (l := b :: tl)) as (l' & x & E); [discriminate|].
    rewrite E, last_last, app_assoc. apply byteAt_last. }
  reflexivity.
Qed.

Lemma classify_blank ws : forallb is_blank ws = true -> classify ws = None.
Proof.
  intros Hws. unfold classify.
  pose proof (skipBlank_blanks ws [] [] (length ws) Hws I) as Hs.
  simpl in Hs. rewrite app_nil_r in Hs. change (len []) with 0 in Hs.
  rewrite Hs, Z.add_0_l, Z.eqb_refl by lia. reflexivity.
Qed.

(** ** The stack of open nodes *)

Lemma round_next s p' :
  nextLine (parser s) = (p', None) -> round s = body (set_parser p' s).
Proof. unfold round. now intros ->. Qed.

Lemma round_stop s p' e :
  nextLine (parser s) = (p', Some e) -> round s = Break (set_parser p' s) (Some e).
Proof. unfold round. now intros ->. Qed.

(** While the loop runs the root is at the bottom of the stack. *)
Lemma round_stack_root s s' :
  (exists rest, stack s = 0%nat :: rest) -> round s = Continue s' ->
  exists rest, stack s' = 0%nat :: rest.
Proof.
  intros [rest Hst]. unfold round.
  destruct (nextLine (parser s)) as [p' [e|]]; [discriminate|].
  unfold body. simpl. destruct (classify (line p')) as [k|]; [|intros [= <-]; eauto].
  destruct (scan_cases k) as [H|[H|[H|H]]].
  - rewrite (build_close _ _ H). simpl. rewrite Hst.
    destruct rest as [|a rest]; [discriminate|].
    change (removelast (0%nat :: a :: rest)) with (0%nat :: removelast (a :: rest)).
    intros [= <-]. simpl. eauto.
  - rewrite (build_open _ _ H). destruct (checkHeight _ _); [discriminate|].
    intros [= <-]. simpl. rewrite Hst. simpl. eauto.
  - rewrite (build_pair _ _ H). intros [= <-]. simpl. eauto.
  - rewrite (build_leaf _ _ H). intros [= <-]. simpl. eauto.
Qed.

Lemma reaches_stack_root p s :
  reaches (entry p) s -> exists rest, stack s = 0%nat :: rest.
Proof.
  apply (reaches_invariant (fun s => exists rest, stack s = 0%nat :: rest)).
  - apply round_stack_root.
  - exists []. reflexivity.
Qed.

(** C5. Wherever the parse has come with only the root left on the stack,
    a close-scope line (blanks, then a single [:]) as the next line ends it
    there: [ParseConfig] returns the root with the error
    ["Too many compound terminators ':'"] at that line's number, the
    memory holds the tree built so far (and the unused cell of the round),
    and nothing more is read. *)
Theorem close_at_root_stops p s p' ws :
  reaches (entry p) s ->
  stack s = [root (ParseConfig p)] ->
  nextLine (parser s) = (p', None) ->
  forallb is_blank ws = true ->
  line p' = ws ++ [byte_colon] ->
  ParseConfig p =
  {| root := 0%nat;
     err := Some (config_error
                    (ConfigError.mk "Too many compound terminators ':'" (lineno p') 0));
     memory := heap s ++ [blank];
     after := p' |}.
Proof.
  intros Hr Hst Hn Hws Hl.
  apply (ParseConfig_reaches p s
           {| parser := p'; heap := heap s ++ [blank]; stack := []; c := c s |} None Hr).
  rewrite (round_next _ _ Hn). unfold body. simpl. rewrite Hl.
  rewrite classify_shape by (assumption || reflexivity).
  unfold classified. simpl.
  rewrite len_app. change (len [byte_colon]) with 1.
  replace (len ws + 1 - 1) with (len ws) by lia.
  rewrite Z.sub_diag. simpl.
  rewrite build_close by (unfold is_close; simpl; now rewrite Z.eqb_refl).
  simpl. rewrite Hst. reflexivity.
Qed.

Lemma nextLine_end p :
  pending (content p) = [] -> failure (content p) = None ->
  nextLine p = (set_line [] (set_content (content p) p), Some io_EOF).
Proof.
  intros Hp Hf. unfold nextLine, ReadLine, stream_end. rewrite Hp, Hf. reflexivity.
Qed.

(** C6. Wherever the parse has come when the input ends: [ParseConfig]
    returns the tree as it is; with only the root on the stack there is no
    error, with anything more on it the error is
    ["Unterminated compound group, not enough ':'"] and carries the number
    of the last line read. *)
Theorem end_of_input p s :
  reaches (entry p) s ->
  pending (content (parser s)) = [] ->
  failure (content (parser s)) = None ->
  let r := ParseConfig p in
  memory r = heap s
  /\ lineno (after r) = lineno (parser s)
  /\ (stack s = [root r] -> err r = None)
  /\ (stack s <> [root r] ->
      err r = Some (config_error
                      (ConfigError.mk "Unterminated compound group, not enough ':'"
                         (lineno (parser s)) 0))).
Proof.
  intros Hr Hp Hf r. subst r.
  rewrite (ParseConfig_reaches p s _ _ Hr (round_stop _ _ _ (nextLine_end _ Hp Hf))).
  simpl. split; [reflexivity|]. split; [reflexivity|].
  destruct (reaches_stack_root _ _ Hr) as [rest Hst].
  unfold iterParse_result. simpl. rewrite Hst. split.
  - intros [= ->]. reflexivity.
  - intros Hne. destruct rest as [|a rest]; [congruence|].
    unfold len. simpl length.
    replace (1 <? Z.of_nat (S (S (length rest)))) with true
      by (symmetry; apply Z.ltb_lt; lia).
    reflexivity.
Qed.

Lemma reaches_after_rounds n s : reaches s (after_rounds n s).
Proof.
  revert s. induction n as [|n IH]; intros s; simpl; [apply reaches_here|].
  destruct (round s) as [s'|] eqn:R; [|apply reaches_here].
  eapply reaches_trans; [|apply IH].
  eapply reaches_round; [apply reaches_here|exact R].
Qed.

Lemma close_at_root_stops_witness :
  err (ParseConfig (fresh (bufio_NewReader ":") (-1) (-1)))
  = Some (config_error (ConfigError.mk "Too many compound terminators ':'" 1 0)).
Proof.
  rewrite (close_at_root_stops (fresh (bufio_NewReader ":") (-1) (-1))
             (entry (fresh (bufio_NewReader ":") (-1) (-1)))
             {| content := {| pending := []; failure := None |};
                line := [byte_colon]; lineno := 1; size := 1;
                heightLimit := -1; sizeLimit := -1 |}
             []).
  - reflexivity.
  - apply reaches_here.
  - vm_compute. reflexivity.
  - vm_compute. reflexivity.
  - reflexivity.
  - reflexivity.
Defined.

Lemma end_of_input_witness :
  err (ParseConfig (fresh (bufio_NewReader "a:") (-1) (-1)))
  = Some (config_error
            (ConfigError.mk "Unterminated compound group, not enough ':'" 1 0))
  /\ err (ParseConfig (fresh (bufio_NewReader "a") (-1) (-1))) = None.
Proof.
  split.
  - set (p := fresh (bufio_NewReader "a:") (-1) (-1)).
    assert (pending (content (parser (after_rounds 1 (entry p)))) = []) as Hp
      by (vm_compute; reflexivity).
    assert (failure (content (parser (after_rounds 1 (entry p)))) = None) as Hf
      by (vm_compute; reflexivity).
    destruct (end_of_input p (after_rounds 1 (entry p)) (reaches_after_rounds _ _) Hp Hf)
      as (_ & _ & _ & H).
    rewrite H; [vm_compute; reflexivity|].
    vm_compute. discriminate.
  - set (p := fresh (bufio_NewReader "a") (-1) (-1)).
    assert (pending (content (parser (after_rounds 1 (entry p)))) = []) as Hp
      by (vm_compute; reflexivity).
    assert (failure (content (parser (after_rounds 1 (entry p)))) = None) as Hf
      by (vm_compute; reflexivity).
    destruct (end_of_input p (after_rounds 1 (entry p)) (reaches_after_rounds _ _) Hp Hf)
      as (_ & _ & H & _).
    apply H. vm_compute. reflexivity.
Defined.

(** ** The stack is a path in the tree *)

Lemma top_snoc st a : top (st ++ [a]) = a.
Proof.
  unfold top. rewrite length_app. simpl.
  replace (length st + 1 - 1)%nat with (length st) by lia.
  now rewrite nth_middle.
Qed.

Lemma top_lookup st : st <> [] -> st !! (length st - 1)%nat = Some (top st).
Proof.
  intros Hne. destruct (exists_last Hne) as (st' & a & ->).
  rewrite top_snoc, length_app. simpl.
  replace (length st' + 1 - 1)%nat with (length st') by lia.
  now apply list_lookup_middle.
Qed.

Lemma lookup_removelast {A} (st : list A) i a :
  removelast st !! i = Some a -> st !! i = Some a.
Proof.
  rewrite removelast_firstn_len. intros H. apply lookup_take_Some in H. tauto.
Qed.

Lemma linked_grows h h' st : grows h h' -> linked h st -> linked h' st.
Proof.
  intros G L i a b Ha Hb. destruct (L i a b Ha Hb) as (cell & Hc & Hin).
  destruct (G _ _ Hc) as [more Hm]. eexists. split; [exact Hm|].
  simpl. apply elem_of_app. now left.
Qed.

Lemma sound_c s : sound s -> (c s < length (heap s))%nat.
Proof.
  intros [[rest Hst] Htop Halloc _]. apply (Halloc (length (stack s) - 1)%nat).
  rewrite Htop. apply top_lookup. rewrite Hst. discriminate.
Qed.

Lemma sound_entry p : sound (entry p).
Proof.
  split; simpl.
  - exists []. reflexivity.
  - reflexivity.
  - intros [|i] a; simpl; [intros [= <-]; lia|discriminate].
  - intros [|i] a b; simpl; discriminate.
Qed.

(** The same stack over a memory that has grown. *)
Lemma sound_grows s p' h' :
  sound s -> grows (heap s) h' ->
  sound {| parser := p'; heap := h'; stack := stack s; c := c s |}.
Proof.
  intros [Hroot Htop Halloc Hlinked] G. split; simpl; try assumption.
  - intros i a Ha. pose proof (Halloc i a Ha). pose proof (grows_length _ _ G). lia.
  - eapply linked_grows; eassumption.
Qed.

(** The memory after a push: the new cell carries the name and no
    children, and is the last child of the node that was on top. *)
Lemma pushed_heap k s cell :
  heap s !! c s = Some cell ->
  heap (pushed k s) !! length (heap s)
  = Some {| name := span (line (parser s)) k; value := [] |}
  /\ heap (pushed k s) !! c s
     = Some {| name := name cell; value := value cell ++ [length (heap s)] |}
  /\ length (heap (pushed k s)) = S (length (heap s)).
Proof.
  intros Hc. pose proof (lookup_lt_Some _ _ _ Hc) as Hlt.
  unfold pushed, setName, addValue. simpl. split; [|split].
  - rewrite list_lookup_alter_eq, list_lookup_alter_ne by lia.
    rewrite list_lookup_middle by reflexivity. reflexivity.
  - rewrite list_lookup_alter_ne by lia.
    rewrite list_lookup_alter_eq, lookup_app_l, Hc by assumption. reflexivity.
  - rewrite !length_alter, length_app. simpl. lia.
Qed.

Lemma grows_pushed k s : grows (heap s) (heap (pushed k s)).
Proof. unfold pushed. simpl. auto with heap. Qed.

Lemma sound_pushed k s : sound s -> sound (pushed k s).
Proof.
  intros Hs. pose proof (sound_c _ Hs) as Hc.
  destruct (lookup_lt_is_Some_2 _ _ Hc) as [cell Hcell].
  destruct (pushed_heap k s cell Hcell) as (Hnew & Hpar & Hlen).
  destruct Hs as [[rest Hst] Htop Halloc Hlinked]. split.
  - exists (rest ++ [length (heap s)]). simpl. now rewrite Hst.
  - simpl. now rewrite top_snoc.
  - intros i a. rewrite Hlen. simpl. intros [[_ Ha]|[_ <-]]%lookup_snoc_Some; [|lia].
    pose proof (Halloc i a Ha). lia.
  - intros i a b. simpl.
    intros [[Hi Ha]|[Hi <-]]%lookup_snoc_Some; intros [[Hi' Hb]|[Hi' <-]]%lookup_snoc_Some;
      try lia.
    + eapply linked_grows; [apply grows_pushed|exact Hlinked|exact Ha|exact Hb].
    + assert (a = c s) as ->.
      { rewrite Htop. pose proof (top_lookup (stack s)) as Ht.
        rewrite Hst in Ht at 1. specialize (Ht ltac:(discriminate)).
        replace (length (stack s) - 1)%nat with i in Ht by lia. congruence. }
      eexists. split; [exact Hpar|]. simpl. apply elem_of_app. right.
      apply list_elem_of_singleton. reflexivity.
Qed.

Lemma sound_popped s p' h' :
  sound s -> grows (heap s) h' -> removelast (stack s) <> [] ->
  sound {| parser := p'; heap := h'; stack := removelast (stack s);
           c := top (removelast (stack s)) |}.
Proof.
  intros [[rest Hst] Htop Halloc Hlinked] G Hne. split; simpl.
  - rewrite Hst in *. destruct rest as [|a rest]; [now elim Hne|].
    exists (removelast (a :: rest)). reflexivity.
  - reflexivity.
  - intros i a Ha%lookup_removelast. pose proof (Halloc i a Ha).
    pose proof (grows_length _ _ G). lia.
  - intros i a b Ha%lookup_removelast Hb%lookup_removelast.
    eapply linked_grows; [exact G|exact Hlinked|exact Ha|exact Hb].
Qed.

Lemma body_sound s s' : sound s -> body s = Continue s' -> sound s'.
Proof.
  intros Hs. unfold body. destruct (classify _) as [k|]; [|now intros [= <-]].
  pose proof (build_grows k s) as G.
  destruct (scan_cases k) as [H|[H|[H|H]]].
  - rewrite (build_close _ _ H) in *. simpl in *.
    destruct (len (removelast (stack s)) =? 0) eqn:E; [discriminate|].
    intros [= <-]. apply sound_popped; [assumption|assumption|].
    intros Hnil. rewrite Hnil in E. discriminate.
  - rewrite (build_open _ _ H). destruct (checkHeight _ _); [discriminate|].
    intros [= <-]. now apply sound_pushed.
  - rewrite (build_pair _ _ H) in *. simpl in *. intros [= <-].
    now apply sound_grows.
  - rewrite (build_leaf _ _ H) in *. simpl in *. intros [= <-].
    now apply sound_grows.
Qed.

Lemma sound_set_parser p' s : sound s -> sound (set_parser p' s).
Proof. intros [? ? ? ?]. split; assumption. Qed.

Lemma round_sound s s' : sound s -> round s = Continue s' -> sound s'.
Proof.
  intros Hs. unfold round. destruct (nextLine (parser s)) as [p' [e|]]; [discriminate|].
  apply body_sound. now apply sound_set_parser.
Qed.

Lemma reaches_sound p s : reaches (entry p) s -> sound s.
Proof.
  apply (reaches_invariant sound); [apply round_sound|apply sound_entry].
Qed.

(** ** Open-scope lines *)

Lemma byte_eqb_ne (a b : byte) : a <> b -> Byte.eqb a b = false.
Proof.
  intros Hne. destruct (Byte.eqb a b) eqn:E; [|reflexivity].
  apply Byte.byte_dec_bl in E. contradiction.
Qed.

Lemma last_snoc_cons (b : byte) l x : List.last (b :: l ++ [x]) x00 = x.
Proof. change (b :: l ++ [x]) with ((b :: l) ++ [x]). apply last_last. Qed.

Lemma classify_open ws content escaped :
  forallb is_blank ws = true ->
  (escaped = false -> plain_content content) ->
  exists k, classify (open_line ws content escaped) = Some k
            /\ is_open k = true
            /\ span (open_line ws content escaped) k = string_of_list_byte content.
Proof.
  intros Hws Hplain. unfold open_line. destruct escaped.
  - simpl app. rewrite classify_shape by (assumption || reflexivity).
    unfold classified. rewrite last_snoc_cons. simpl.
    eexists. split; [reflexivity|]. split.
    + unfold is_open. simpl. now rewrite andb_false_r.
    + unfold span. simpl. f_equal.
      replace (ws ++ byte_quote :: content ++ [byte_colon])
        with ((ws ++ [byte_quote]) ++ content ++ [byte_colon])
        by (rewrite <- app_assoc; reflexivity).
      replace (len ws + 1) with (len (ws ++ [byte_quote])) by (now rewrite len_app).
      replace (len ((ws ++ [byte_quote]) ++ content ++ [byte_colon]) - 1)
        with (len (ws ++ [byte_quote]) + len content)
        by (rewrite !len_app; change (len [byte_colon]) with 1; lia).
      apply slice_middle.
  - simpl app. destruct content as [|b tl]; [now elim (Hplain eq_refl)|].
    destruct (Hplain eq_refl) as (Hb & Hq & Hh).
    change ((b :: tl) ++ [byte_colon]) with (b :: tl ++ [byte_colon]).
    rewrite classify_shape by assumption.
    unfold classified. rewrite last_snoc_cons.
    rewrite (byte_eqb_ne _ _ Hq), (byte_eqb_ne _ _ Hh). simpl.
    eexists. split; [reflexivity|]. split.
    + unfold is_open. simpl. apply negb_true_iff, andb_false_iff. left.
      apply Z.eqb_neq. change (b :: tl ++ [byte_colon]) with ((b :: tl) ++ [byte_colon]).
      rewrite !len_app. unfold len. simpl length. lia.
    + unfold span. simpl. f_equal.
      change (b :: tl ++ [byte_colon]) with ((b :: tl) ++ [byte_colon]).
      replace (len (ws ++ (b :: tl) ++ [byte_colon]) - 1) with (len ws + len (b :: tl))
        by (rewrite !len_app; change (len [byte_colon]) with 1; lia).
      apply slice_middle.
Qed.

(** C4. Wherever the parse has come, an open-scope line (blanks, then the
    content, escaped by the content marker or not, then the terminator)
    adds exactly one cell: a node named by the whole content, without
    children, which is pushed on the stack; no name: value split is made,
    whether the round goes on or is stopped by the depth check.  So
    ["test: 123:"] followed by a close line gives the root one child named
    ["test: 123"] with no children. *)
Theorem open_scope_name :
  (forall p s p' ws content escaped,
      reaches (entry p) s ->
      nextLine (parser s) = (p', None) ->
      forallb is_blank ws = true ->
      (escaped = false -> plain_content content) ->
      line p' = open_line ws content escaped ->
      exists s',
        (round s = Continue s' \/ exists e, round s = Break s' (Some e))
        /\ stack s' = stack s ++ [length (heap s)]
        /\ length (heap s') = S (length (heap s))
        /\ heap s' !! length (heap s)
           = Some {| name := string_of_list_byte content; value := [] |})
  /\ (let r := ParseConfig
                  (fresh (bufio_NewReader (text ["test: 123:"%string; ":"%string; ""%string]))
                     (-1) (-1)) in
      err r = None /\ tree_of r = Node "__root__" [Node "test: 123" []]).
Proof.
  split.
  - intros p s p' ws content escaped Hr Hn Hws Hplain Hl.
    destruct (classify_open ws content escaped Hws Hplain) as (k & Hk & Hopen & Hspan).
    pose proof (sound_set_parser p' _ (reaches_sound _ _ Hr)) as Hs.
    destruct (lookup_lt_is_Some_2 _ _ (sound_c _ Hs)) as [cell Hcell].
    destruct (pushed_heap k _ cell Hcell) as (Hnew & _ & Hlen).
    exists (pushed k (set_parser p' s)).
    split; [|split; [reflexivity|split; [exact Hlen|]]].
    + rewrite (round_next _ _ Hn). unfold body. simpl. rewrite Hl, Hk.
      rewrite (build_open _ _ Hopen). destruct (checkHeight _ _); eauto.
    + rewrite <- Hspan, <- Hl. exact Hnew.
  - vm_compute. split; reflexivity.
Qed.

Lemma open_scope_name_witness :
  exists s',
    round (entry (fresh (bufio_NewReader "  'a: b:") (-1) (-1))) = Continue s'
    /\ heap s' !! 1%nat = Some {| name := "a: b"; value := [] |}.
Proof.
  destruct (proj1 open_scope_name
              (fresh (bufio_NewReader "  'a: b:") (-1) (-1))
              (entry (fresh (bufio_NewReader "  'a: b:") (-1) (-1)))
              {| content := {| pending := []; failure := None |};
                 line := bytes "  'a: b:"; lineno := 1; size := 8;
                 heightLimit := -1; sizeLimit := -1 |}
              (bytes "  ") (bytes "a: b") true)
    as (s' & [Hround|[e Hround]] & _ & _ & Hcell).
  - apply reaches_here.
  - vm_compute. reflexivity.
  - reflexivity.
  - discriminate.
  - reflexivity.
  - exists s'. split; [exact Hround|exact Hcell].
  - exfalso. revert Hround. vm_compute. discriminate.
Defined.

(** ** The limits and the errors of a round *)

Lemma nextLine_more_limits rest p p' e :
  nextLine_more rest p = (p', e) ->
  heightLimit p' = heightLimit p /\ sizeLimit p' = sizeLimit p.
Proof.
  revert p. induction rest as [|[tline prefix] rest IH]; intros p; simpl.
  - destruct (failure (content p)); [intros [= <- _]; auto|].
    destruct (checkSize _); intros [= <- _]; auto.
  - destruct (checkSize _); [intros [= <- _]; auto|].
    destruct prefix; [|intros [= <- _]; auto].
    intros H. apply IH in H. exact H.
Qed.

Lemma nextLine_limits p p' e :
  nextLine p = (p', e) ->
  heightLimit p' = heightLimit p /\ sizeLimit p' = sizeLimit p.
Proof.
  unfold nextLine. destruct (ReadLine (content p)) as [[[l prefix] [e0|]] r].
  - intros [= <- _]. auto.
  - destruct (checkSize _); [intros [= <- _]; auto|].
    destruct prefix; [|intros [= <- _]; auto].
    intros H. apply nextLine_more_limits in H. exact H.
Qed.

Lemma round_limits s :
  let s' := match round s with Continue s' => s' | Break s' _ => s' end in
  heightLimit (parser s') = heightLimit (parser s)
  /\ sizeLimit (parser s') = sizeLimit (parser s).
Proof.
  unfold round. destruct (nextLine (parser s)) as [p' e] eqn:E.
  apply nextLine_limits in E. destruct e as [e|]; [exact E|].
  unfold body. simpl. destruct (classify _) as [k|]; [|exact E].
  unfold build, alloc. simpl.
  repeat match goal with
         | |- context [if ?b then _ else _] => destruct b
         | |- context [match ?x with Some _ => _ | None => _ end] => destruct x
         end; exact E.
Qed.

Lemma reaches_limits s s' :
  reaches s s' ->
  heightLimit (parser s') = heightLimit (parser s)
  /\ sizeLimit (parser s') = sizeLimit (parser s).
Proof.
  induction 1 as [|s1 s2 _ [IH1 IH2] H]; [auto|].
  pose proof (round_limits s1) as L. rewrite H in L. simpl in L.
  destruct L as [L1 L2]. split; congruence.
Qed.

(** The errors [nextLine] returns: the one that ends the stream, or the
    size error; either way the line number has not been advanced. *)
Lemma nextLine_more_error rest p p' e :
  nextLine_more rest p = (p', Some e) ->
  (e = stream_end (content p) /\ e <> io_EOF
   \/ e = config_error (ConfigError.mk (size_message (sizeLimit p)) (lineno p) 0))
  /\ lineno p' = lineno p.
Proof.
  revert p. induction rest as [|[tline prefix] rest IH]; intros p; simpl.
  - unfold stream_end. destruct (failure (content p)) eqn:F.
    + intros [= <- <-]. split; [left; split; [reflexivity|discriminate]|reflexivity].
    + unfold checkSize. simpl. destruct (negb _); [|discriminate].
      destruct (_ <=? _); [|discriminate]. intros [= <- <-]. auto.
  - unfold checkSize at 1. simpl. destruct (negb (sizeLimit p =? -1)) eqn:N.
    + destruct (_ <=? _).
      * intros [= <- <-]. auto.
      * destruct prefix; [|discriminate]. intros H. apply IH in H. exact H.
    + destruct prefix; [|discriminate]. intros H. apply IH in H. exact H.
Qed.

Lemma nextLine_error p p' e :
  nextLine p = (p', Some e) ->
  (e = stream_end (content p)
   \/ e = config_error (ConfigError.mk (size_message (sizeLimit p)) (lineno p) 0))
  /\ lineno p' = lineno p.
Proof.
  unfold nextLine, ReadLine.
  destruct (pending (content p)) as [|[l prefix] rest] eqn:E.
  - intros [= <- <-]. auto.
  - simpl. unfold checkSize at 1. simpl. destruct (negb (sizeLimit p =? -1)) eqn:N.
    + destruct (_ <=? _).
      * intros [= <- <-]. auto.
      * destruct prefix; [|discriminate]. intros H. apply nextLine_more_error in H.
        simpl in H. destruct H as [[[-> _]| ->] ->]; auto.
    + destruct prefix; [|discriminate]. intros H. apply nextLine_more_error in H.
      simpl in H. destruct H as [[[-> _]| ->] ->]; auto.
Qed.

(** A depth error comes from a round that pushed: it read a line, found
    it an open-scope line, pushed the node and failed the depth check. *)
Lemma height_error_round s1 s2 e :
  (exists rest, stack s1 = 0%nat :: rest) ->
  round s1 = Break s2 e ->
  is_height_error (iterParse_result s2 e) ->
  exists p' k,
    nextLine (parser s1) = (p', None)
    /\ classify (line p') = Some k
    /\ is_open k = true
    /\ s2 = pushed k (set_parser p' s1)
    /\ checkHeight p' (len (stack s1 ++ [length (heap s1)]) - 1) = e
    /\ iterParse_result s2 e = e.
Proof.
  intros [rest Hst] R (limit & n & He). unfold round in R.
  destruct (nextLine (parser s1)) as [p' [e0|]] eqn:N.
  - exfalso. injection R as <- <-. apply nextLine_error in N as [N _].
    revert He. unfold iterParse_result. simpl. rewrite Hst.
    destruct N as [->| ->].
    + unfold stream_end. destruct (failure _); simpl.
      * discriminate.
      * destruct (1 <? _); discriminate.
    + simpl. discriminate.
  - unfold body in R. simpl in R. destruct (classify (line p')) as [k|] eqn:K; [|discriminate].
    destruct (scan_cases k) as [H|[H|[H|H]]].
    + exfalso. rewrite (build_close _ _ H) in R. simpl in R.
      destruct (len (removelast (stack s1)) =? 0) eqn:E; [|discriminate].
      injection R as <- <-. revert He. unfold iterParse_result. simpl. rewrite E.
      discriminate.
    + rewrite (build_open _ _ H) in R. simpl in R.
      destruct (checkHeight p' _) as [e1|] eqn:C; [|discriminate].
      injection R as <- <-. exists p', k. repeat split; try assumption; try reflexivity.
      unfold iterParse_result. simpl. rewrite Hst.
      unfold checkHeight in C. destruct (negb _); [|discriminate].
      destruct (_ <? _); [|discriminate]. injection C as <-. simpl.
      replace (len ((0%nat :: rest) ++ [length (heap s1)]) =? 0) with false; [reflexivity|].
      symmetry. apply Z.eqb_neq. unfold len. simpl. lia.
    + rewrite (build_pair _ _ H) in R. discriminate.
    + rewrite (build_leaf _ _ H) in R. discriminate.
Qed.

(** ** The depth error *)

Lemma descends_grows h h' a d b : grows h h' -> descends h a d b -> descends h' a d b.
Proof.
  intros G. induction 1 as [|d b cell x _ IH Hc Hx]; [constructor|].
  destruct (G _ _ Hc) as [more Hm].
  eapply descends_child; [exact IH|exact Hm|].
  simpl. apply elem_of_app. now left.
Qed.

Lemma linked_descends h st rest :
  st = 0%nat :: rest -> linked h st ->
  forall i a, st !! i = Some a -> descends h 0%nat i a.
Proof.
  intros Hst L. induction i as [|i IH]; intros a Ha.
  - rewrite Hst in Ha. injection Ha as <-. constructor.
  - assert (is_Some (st !! i)) as [b Hb].
    { apply lookup_lt_is_Some. apply lookup_lt_Some in Ha. lia. }
    destruct (L i b a Hb Ha) as (cell & Hc & Hin).
    eapply descends_child; [apply IH; exact Hb|exact Hc|exact Hin].
Qed.

Lemma sound_descends s :
  sound s -> descends (heap s) 0%nat (length (stack s) - 1) (c s).
Proof.
  intros Hs. destruct (sound_root _ Hs) as [rest Hst].
  eapply linked_descends; [exact Hst|apply (sound_linked _ Hs)|].
  rewrite (sound_top _ Hs). apply top_lookup. rewrite Hst. discriminate.
Qed.

(** C9. When [ParseConfig] returns the depth error, the line read last is
    an open-scope line and the node it opened is in the returned tree: it
    is a cell of the memory, named by the line's content and without
    children, and it is the last child of a node that descends from the
    root; its depth is beyond the limit. *)
Theorem depth_error_keeps_node p :
  is_height_error (err (ParseConfig p)) ->
  let r := ParseConfig p in
  exists k a parent parent_name siblings d,
    classify (line (after r)) = Some k
    /\ is_open k = true
    /\ memory r !! a = Some {| name := span (line (after r)) k; value := [] |}
    /\ memory r !! parent = Some {| name := parent_name; value := siblings ++ [a] |}
    /\ descends (memory r) (root r) d parent
    /\ heightLimit p < Z.of_nat (S d).
Proof.
  intros He r. subst r.
  destruct (ParseConfig_leaves p) as (s1 & s2 & e & Hr & Hround & Hp).
  rewrite Hp in *. simpl in *.
  pose proof (reaches_sound _ _ Hr) as Hs.
  destruct (height_error_round s1 s2 e (sound_root _ Hs) Hround He)
    as (p' & k & Hn & Hk & Hopen & -> & Hcheck & Hres).
  pose proof (sound_set_parser p' _ Hs) as Hs'.
  destruct (lookup_lt_is_Some_2 _ _ (sound_c _ Hs')) as [cell Hcell].
  destruct (pushed_heap k _ cell Hcell) as (Hnew & Hpar & _).
  exists k, (length (heap s1)), (c s1), (name cell), (value cell),
    (length (stack s1) - 1)%nat.
  split; [exact Hk|]. split; [exact Hopen|]. split; [exact Hnew|].
  split; [exact Hpar|]. split.
  - apply (descends_grows (heap s1)); [apply (grows_pushed k (set_parser p' s1))|].
    now apply sound_descends.
  - destruct (reaches_limits _ _ Hr) as [HL _].
    destruct (nextLine_limits _ _ _ Hn) as [HL' _]. simpl in HL.
    rewrite Hres in He. destruct He as (limit & n & ->). revert Hcheck. unfold checkHeight.
    destruct (negb _); [|discriminate].
    destruct (heightLimit p' <? _) eqn:E; [|discriminate]. intros _.
    apply Z.ltb_lt in E. rewrite len_app in E. unfold len in E. simpl in E.
    destruct (sound_root _ Hs) as [rest Hst]. rewrite Hst in *. simpl in *. lia.
Qed.

Lemma depth_error_keeps_node_witness :
  exists k a parent parent_name siblings d,
    classify (bytes "b:") = Some k
    /\ memory (ParseConfig (fresh (bufio_NewReader (text ["a:"%string; "b:"%string])) 1 (-1)))
         !! a = Some {| name := span (bytes "b:") k; value := [] |}
    /\ memory (ParseConfig (fresh (bufio_NewReader (text ["a:"%string; "b:"%string])) 1 (-1)))
         !! parent = Some {| name := parent_name; value := siblings ++ [a] |}
    /\ 1 < Z.of_nat (S d).
Proof.
  destruct (depth_error_keeps_node
              (fresh (bufio_NewReader (text ["a:"%string; "b:"%string])) 1 (-1)))
    as (k & a & parent & parent_name & siblings & d & Hk & _ & Ha & Hp & _ & Hd).
  - exists 1, 2. vm_compute. reflexivity.
  - exists k, a, parent, parent_name, siblings, d.
    split; [exact Hk|]. split; [exact Ha|]. split; [exact Hp|exact Hd].
Defined.

(** ** What [nextLine] reads and counts *)

Lemma chunk_bytes_app cs1 cs2 :
  chunk_bytes (cs1 ++ cs2) = chunk_bytes cs1 + chunk_bytes cs2.
Proof.
  induction cs1 as [|ch cs1 IH]; simpl; [reflexivity|]. rewrite IH. lia.
Qed.

Lemma chunk_bytes_nonneg cs : 0 <= chunk_bytes cs.
Proof.
  induction cs as [|ch cs IH]; simpl; [lia|]. pose proof (len_nonneg (fst ch)). lia.
Qed.

Lemma chunk_bytes_concat cs : chunk_bytes cs = len (concat (map fst cs)).
Proof.
  induction cs as [|ch cs IH]; simpl; [reflexivity|]. now rewrite len_app, IH.
Qed.

Lemma wrap_small z : min_int <= z <= max_int -> wrap z = z.
Proof.
  unfold wrap, min_int, max_int. intros H.
  rewrite Z.mod_small by lia. lia.
Qed.

Lemma wrap_add_l a b : wrap (wrap a + b) = wrap (a + b).
Proof.
  unfold wrap. f_equal.
  replace ((a + 2 ^ 63) mod 2 ^ 64 - 2 ^ 63 + b + 2 ^ 63)
    with ((a + 2 ^ 63) mod 2 ^ 64 + b) by lia.
  rewrite Zplus_mod_idemp_l. f_equal. lia.
Qed.

Lemma wrap_idem a : wrap (wrap a) = wrap a.
Proof.
  pose proof (wrap_add_l a 0) as H. now rewrite !Z.add_0_r in H.
Qed.

Lemma is_int_wrap z : is_int (wrap z).
Proof. apply wrap_idem. Qed.

(** What a call of [nextLine] does to the reader, the counter and the
    line: it takes some results [used] off the reader and adds their
    bytes to [size]; when it returns no error it has taken at least one,
    [line] is their concatenation, and the line number has advanced. *)
Lemma nextLine_more_consumes rest p p' e :
  pending (content p) = rest ->
  is_int (size p) ->
  nextLine_more rest p = (p', e) ->
  exists used,
    rest = used ++ pending (content p')
    /\ failure (content p') = failure (content p)
    /\ size p' = wrap (size p + chunk_bytes used)
    /\ (e = None ->
        line p' = line p ++ concat (map fst used)
        /\ lineno p' = wrap (lineno p + 1)).
Proof.
  revert p. induction rest as [|[tline prefix] rest IH]; intros p Hp Hsz; simpl.
  - destruct (failure (content p)) eqn:F.
    + intros [= <- <-]. exists []. simpl. rewrite Hp, F, Z.add_0_r.
      repeat split; try congruence; try discriminate.
    + change (len []) with 0. destruct (checkSize _); intros [= <- <-];
        exists []; simpl; rewrite Hp, F; repeat split; try discriminate; try now rewrite app_nil_r.
  - destruct (checkSize _).
    + intros [= <- <-]. exists [(tline, prefix)]. simpl. rewrite Z.add_0_r.
      repeat split; try discriminate.
    + destruct prefix.
      * intros H. apply IH in H; [|reflexivity|apply is_int_wrap].
        destruct H as (used & H1 & H2 & H3 & H4). simpl in *.
        exists ((tline, true) :: used). simpl. rewrite <- H1.
        split; [reflexivity|]. split; [exact H2|]. split.
        -- rewrite H3, wrap_add_l. f_equal. lia.
        -- intros He. destruct (H4 He) as [H5 H6]. rewrite H5, H6.
           now rewrite <- app_assoc.
      * intros [= <- <-]. exists [(tline, false)]. simpl.
        rewrite Z.add_0_r, app_nil_r. repeat split; try discriminate.
Qed.

Lemma nextLine_consumes p p' e :
  is_int (size p) ->
  nextLine p = (p', e) ->
  exists used,
    pending (content p) = used ++ pending (content p')
    /\ failure (content p') = failure (content p)
    /\ size p' = wrap (size p + chunk_bytes used)
    /\ (e = None ->
        used <> []
        /\ line p' = concat (map fst used)
        /\ lineno p' = wrap (lineno p + 1)).
Proof.
  intros Hsz. unfold nextLine, ReadLine.
  destruct (pending (content p)) as [|[l prefix] rest] eqn:E.
  - intros [= <- <-]. exists []. simpl. rewrite Z.add_0_r.
    repeat split; try congruence; try discriminate.
  - simpl. destruct (checkSize _).
    + intros [= <- <-]. exists [(l, prefix)]. simpl. rewrite Z.add_0_r.
      repeat split; try discriminate.
    + destruct prefix.
      * intros H. apply nextLine_more_consumes in H; [|reflexivity|apply is_int_wrap].
        destruct H as (used & H1 & H2 & H3 & H4). simpl in *.
        exists ((l, true) :: used). simpl. rewrite <- H1.
        split; [reflexivity|]. split; [exact H2|]. split.
        -- rewrite H3, wrap_add_l. f_equal. lia.
        -- intros He. destruct (H4 He) as [H5 H6]. rewrite H5, H6.
           repeat split; try discriminate.
      * intros [= <- <-]. exists [(l, false)]. simpl.
        rewrite Z.add_0_r, app_nil_r. repeat split; try discriminate.
Qed.

Lemma build_flow_parser k s : parser (flow_state (build k s)) = parser s.
Proof.
  destruct (scan_cases k) as [H|[H|[H|H]]].
  - rewrite (build_close _ _ H). simpl. now destruct (_ =? _).
  - rewrite (build_open _ _ H). now destruct (checkHeight _ _).
  - now rewrite (build_pair _ _ H).
  - now rewrite (build_leaf _ _ H).
Qed.

(** The parser after a round is the one its call of [nextLine] left. *)
Lemma round_parser s :
  exists e, nextLine (parser s) = (parser (flow_state (round s)), e).
Proof.
  unfold round. destruct (nextLine (parser s)) as [p' [e|]]; simpl; [eauto|].
  exists None. f_equal. unfold body. simpl.
  destruct (classify _) as [k|]; [|reflexivity].
  now rewrite build_flow_parser.
Qed.

Lemma accounted_refl p : is_int (size p) -> accounted p p.
Proof.
  intros H. split; [exact H|]. exists []. simpl. now rewrite Z.add_0_r.
Qed.

Lemma accounted_nextLine p0 p p' e :
  accounted p0 p -> nextLine p = (p', e) -> accounted p0 p'.
Proof.
  intros (Hint & used & Hu & Hs) Hn.
  destruct (nextLine_consumes _ _ _ Hint Hn) as (used' & H1 & _ & H3 & _).
  split; [rewrite H3; apply is_int_wrap|].
  exists (used ++ used'). split.
  - now rewrite Hu, H1, app_assoc.
  - rewrite H3, Hs, wrap_add_l, chunk_bytes_app. f_equal. lia.
Qed.

Lemma accounted_round p0 s :
  accounted p0 (parser s) -> accounted p0 (parser (flow_state (round s))).
Proof.
  intros H. destruct (round_parser s) as [e He].
  eapply accounted_nextLine; eassumption.
Qed.

Lemma reaches_accounted p0 s s' :
  accounted p0 (parser s) -> reaches s s' -> accounted p0 (parser s').
Proof.
  intros H0. induction 1 as [|s1 s2 _ IH H]; [assumption|].
  pose proof (accounted_round p0 s1 IH) as A. now rewrite H in A.
Qed.

Lemma ParseConfig_accounted p :
  is_int (size p) -> accounted p (after (ParseConfig p)).
Proof.
  intros Hint. destruct (ParseConfig_leaves p) as (s1 & s2 & e & Hr & Hround & ->).
  simpl. pose proof (reaches_accounted p (entry p) s1 (accounted_refl p Hint) Hr) as A.
  apply accounted_round in A. now rewrite Hround in A.
Qed.

(** ** What [bufio] hands out *)

Lemma readSlice_no_lf room s l rest found :
  readSlice room s = (l, rest, found) -> ~ In byte_lf l.
Proof.
  revert s l rest found. induction room as [|r IH]; intros s l rest found; simpl.
  - intros [= <- _ _]. auto.
  - destruct s as [|b s']; [intros [= <- _ _]; auto|].
    destruct (Byte.eqb b byte_lf) eqn:E; [intros [= <- _ _]; auto|].
    destruct (readSlice r s') as [[l' rest'] found'] eqn:R.
    intros [= <- _ _]. intros [->|Hin].
    + now rewrite Byte.byte_dec_lb in E.
    + exact (IH _ _ _ _ R Hin).
Qed.

Lemma In_removelast {A} (x : A) l : In x (removelast l) -> In x l.
Proof.
  destruct l as [|a l] using rev_ind; [auto|].
  rewrite removelast_last. intros H. apply in_or_app. now left.
Qed.

Lemma readLine_chunk s chunk rest :
  s <> [] ->
  readLine s = (chunk, rest) ->
  ~ In byte_lf (fst chunk) /\ len (fst chunk) + len rest <= len s.
Proof.
  intros Hne. unfold readLine.
  destruct (readSlice defaultBufSize s) as [[l r] found] eqn:E.
  pose proof (readSlice_no_lf _ _ _ _ _ E) as Hlf.
  destruct (readSlice_length _ _ _ _ _ E) as [H1 H2].
  assert (forall l0 : list byte, l0 <> [] -> len (removelast l0) = len l0 - 1) as Hrl.
  { intros l0 H0. destruct (exists_last H0) as (l1 & x & ->).
    rewrite removelast_last, len_app. unfold len. simpl. lia. }
  assert (ends_cr l = true -> l <> []) as Hcr by (destruct l; [discriminate|discriminate]).
  unfold len in *.
  destruct found; [|destruct (_ <? _)%nat]; destruct (ends_cr l) eqn:C;
    intros [= <- <-]; simpl; (split; [auto using In_removelast|]);
    try (specialize (Hrl l (Hcr eq_refl))); simpl length; lia.
Qed.

Lemma lines_of_chunks s :
  Forall (fun ch => ~ In byte_lf (fst ch)) (lines_of s)
  /\ chunk_bytes (lines_of s) <= len s.
Proof.
  remember (length s) as n eqn:Hn. revert s Hn.
  induction n as [n IH] using lt_wf_ind. intros s ->.
  rewrite lines_of_step. destruct s as [|b s].
  - split; [constructor|]. simpl. unfold len. simpl. lia.
  - destruct (readLine (b :: s)) as [chunk rest] eqn:R.
    assert (b :: s <> []) as Hne by discriminate.
    destruct (readLine_chunk _ _ _ Hne R) as [Hlf Hlen].
    destruct (IH (length rest) (readLine_shorter _ _ _ _ R) rest eq_refl) as [IH1 IH2].
    split; [constructor; assumption|]. simpl. lia.
Qed.

(** C10. The counter that [checkSize] compares with the limit counts the
    bytes of the lines as [ReadLine] hands them out: each logical line
    read adds the length of its content, and over a whole call of
    [ParseConfig] on a text the counter ends as the sum of the bytes of
    what was read, none of which is a line feed.  So the 39 bytes of the
    three lines of the size test count as 37. *)
Theorem size_counts_line_bytes :
  (forall p p',
      is_int (size p) ->
      nextLine p = (p', None) ->
      size p' = wrap (size p + len (line p')))
  /\ (forall s hl sl,
        len (bytes s) <= max_int ->
        let r := ParseConfig (fresh (bufio_NewReader s) hl sl) in
        exists used,
          lines_of (bytes s) = used ++ pending (content (after r))
          /\ size (after r) = chunk_bytes used
          /\ Forall (fun ch => ~ In byte_lf (fst ch)) used)
  /\ (let s := text ["a bunch of words"%string; "more words"%string; " more words"%string] in
      len (bytes s) = 39
      /\ size (after (ParseConfig (fresh (bufio_NewReader s) (-1) (-1)))) = 37).
Proof.
  split; [|split].
  - intros p p' Hint Hn.
    destruct (nextLine_consumes _ _ _ Hint Hn) as (used & _ & _ & Hs & Hl).
    destruct (Hl eq_refl) as (_ & -> & _).
    now rewrite <- chunk_bytes_concat.
  - intros s hl sl Hlen r.
    destruct (ParseConfig_accounted (fresh (bufio_NewReader s) hl sl))
      as (_ & used & Hu & Hs); [reflexivity|].
    fold r in Hu, Hs. simpl in Hu, Hs.
    destruct (lines_of_chunks (bytes s)) as [Hlf Hsum].
    rewrite Hu in Hlf, Hsum. rewrite chunk_bytes_app in Hsum.
    apply Forall_app in Hlf as [Hlf _].
    exists used. split; [exact Hu|]. split; [|exact Hlf].
    rewrite Hs. apply wrap_small.
    pose proof (chunk_bytes_nonneg used).
    pose proof (chunk_bytes_nonneg (pending (content (after r)))).
    unfold min_int, max_int in *. lia.
  - vm_compute. split; reflexivity.
Qed.

Lemma size_counts_line_bytes_witness :
  exists used,
    lines_of (bytes (text ["ab"%string; "c"%string]))
    = used ++ pending (content (after (ParseConfig
                 (fresh (bufio_NewReader (text ["ab"%string; "c"%string])) (-1) (-1)))))
    /\ size (after (ParseConfig
                 (fresh (bufio_NewReader (text ["ab"%string; "c"%string])) (-1) (-1))))
       = chunk_bytes used.
Proof.
  destruct (proj1 (proj2 size_counts_line_bytes) (text ["ab"%string; "c"%string]) (-1) (-1))
    as (used & H1 & H2 & _).
  - vm_compute. discriminate.
  - exists used. split; [exact H1|exact H2].
Defined.

(** ** The same parse under other limits *)

(** The loop body looks at the parser for the line and for the depth
    check only. *)
Lemma build_on_parser f k s :
  line (f (parser s)) = line (parser s) ->
  (forall h, checkHeight (f (parser s)) h = checkHeight (parser s) h) ->
  build k (on_parser f s) = flow_map (on_parser f) (build k s).
Proof.
  intros Hl Hc. unfold build, alloc, on_parser. simpl. rewrite Hl, Hc.
  repeat match goal with
         | |- context [if ?b then _ else _] => destruct b
         | |- context [match ?x with Some _ => _ | None => _ end] => destruct x
         end; reflexivity.
Qed.

Lemma body_on_parser f s :
  line (f (parser s)) = line (parser s) ->
  (forall h, checkHeight (f (parser s)) h = checkHeight (parser s) h) ->
  body (on_parser f s) = flow_map (on_parser f) (body s).
Proof.
  intros Hl Hc. unfold body. simpl. rewrite Hl.
  destruct (classify _) as [k|]; [|reflexivity].
  now apply build_on_parser.
Qed.

Lemma checkSize_spec p :
  checkSize p = None <-> (sizeLimit p = -1 \/ size p < sizeLimit p).
Proof.
  unfold checkSize. destruct (sizeLimit p =? -1) eqn:E; simpl.
  - apply Z.eqb_eq in E. tauto.
  - apply Z.eqb_neq in E. destruct (sizeLimit p <=? size p) eqn:L.
    + apply Z.leb_le in L. split; [discriminate|lia].
    + apply Z.leb_gt in L. tauto.
Qed.

Lemma checkSize_error p e :
  checkSize p = Some e ->
  e = config_error (ConfigError.mk (size_message (sizeLimit p)) (lineno p) 0)
  /\ sizeLimit p <> -1 /\ sizeLimit p <= size p.
Proof.
  unfold checkSize. destruct (sizeLimit p =? -1) eqn:E; simpl; [discriminate|].
  apply Z.eqb_neq in E. destruct (sizeLimit p <=? size p) eqn:L; [|discriminate].
  apply Z.leb_le in L. intros [= <-]. auto.
Qed.

Lemma nextLine_more_within rest p p' e :
  pending (content p) = rest -> within p ->
  nextLine_more rest p = (p', e) ->
  nextLine_more rest (no_size_limit p) = (no_size_limit p', e).
Proof.
  revert p. induction rest as [|[tline prefix] rest IH]; intros p Hp (H0 & H1 & H2); simpl.
  - destruct (failure (content p)); [now intros [= <- <-]|].
    change (len []) with 0. rewrite Z.add_0_r.
    rewrite Hp in H1. simpl in H1.
    rewrite wrap_small by (unfold min_int, max_int in *; lia).
    rewrite (proj2 (checkSize_spec _)) by (simpl; lia).
    try rewrite (proj2 (checkSize_spec _)) by (simpl; lia).
    now intros [= <- <-].
  - rewrite Hp in H1. simpl in H1.
    pose proof (len_nonneg tline). pose proof (chunk_bytes_nonneg rest).
    rewrite wrap_small by (unfold min_int, max_int in *; lia).
    rewrite (proj2 (checkSize_spec _)) by (simpl; lia).
    try rewrite (proj2 (checkSize_spec _)) by (simpl; lia).
    destruct prefix; [|now intros [= <- <-]].
    intros Hm. apply IH in Hm; [exact Hm|reflexivity|].
    unfold within. simpl. lia.
Qed.

Lemma nextLine_within p p' e :
  within p -> nextLine p = (p', e) ->
  nextLine (no_size_limit p) = (no_size_limit p', e).
Proof.
  intros (H0 & H1 & H2). unfold nextLine, ReadLine. simpl.
  destruct (pending (content p)) as [|[l prefix] rest] eqn:E; [now intros [= <- <-]|].
  simpl in *.
  pose proof (len_nonneg l). pose proof (chunk_bytes_nonneg rest).
  rewrite wrap_small by (unfold min_int, max_int in *; lia).
  rewrite (proj2 (checkSize_spec _)) by (simpl; lia).
  try rewrite (proj2 (checkSize_spec _)) by (simpl; lia).
  destruct prefix; [|now intros [= <- <-]].
  intros Hm. apply nextLine_more_within in Hm; [exact Hm|reflexivity|].
  unfold within. simpl. lia.
Qed.

Lemma nextLine_keeps_within p p' e :
  within p -> nextLine p = (p', e) -> within p'.
Proof.
  intros (H0 & H1 & H2) Hn.
  pose proof (chunk_bytes_nonneg (pending (content p))) as Hnn.
  assert (is_int (size p)) as Hint
      by (apply wrap_small; unfold min_int, max_int in *; lia).
  destruct (nextLine_consumes _ _ _ Hint Hn) as (used & Hu & _ & Hs & _).
  destruct (nextLine_limits _ _ _ Hn) as [_ HL].
  rewrite Hu, chunk_bytes_app in H1.
  pose proof (chunk_bytes_nonneg used).
  pose proof (chunk_bytes_nonneg (pending (content p'))).
  rewrite wrap_small in Hs by (unfold min_int, max_int in *; lia).
  unfold within. rewrite Hs, HL. lia.
Qed.

Lemma round_within s :
  within (parser s) ->
  round (on_parser no_size_limit s) = flow_map (on_parser no_size_limit) (round s)
  /\ within (parser (flow_state (round s))).
Proof.
  intros Hw. split.
  - unfold round. simpl. destruct (nextLine (parser s)) as [p' e] eqn:N.
    rewrite (nextLine_within _ _ _ Hw N). destruct e as [e|]; [reflexivity|].
    apply (body_on_parser no_size_limit (set_parser p' s)); reflexivity.
  - destruct (round_parser s) as [e He]. eapply nextLine_keeps_within; eassumption.
Qed.

(** With a size limit that the whole input stays under, the loop does what
    it does without a size limit. *)
Lemma iterLoop_within s :
  within (parser s) ->
  iterLoop (on_parser no_size_limit s)
  = (on_parser no_size_limit (fst (iterLoop s)), snd (iterLoop s)).
Proof.
  remember (unread s) as n eqn:Hn. revert s Hn.
  induction n as [n IH] using lt_wf_ind. intros s -> Hw.
  destruct (round_within s Hw) as [Hround Hw'].
  rewrite (iterLoop_round s), (iterLoop_round (on_parser no_size_limit s)), Hround.
  destruct (round s) as [s'|s' e] eqn:R; simpl; [|reflexivity].
  apply (IH (unread s') (round_unread _ _ R) s' eq_refl Hw').
Qed.

Lemma nextLine_more_passes rest p p' :
  nextLine_more rest p = (p', None) -> checkSize p' = None.
Proof.
  revert p. induction rest as [|[tline prefix] rest IH]; intros p; simpl.
  - destruct (failure (content p)); [absurd_eq|].
    destruct (checkSize (set_size _ _)) eqn:C; [absurd_eq|]. intros [= <-].
    apply checkSize_spec. apply checkSize_spec in C. exact C.
  - destruct (checkSize (set_size _ _)) eqn:C; [absurd_eq|].
    destruct prefix; [apply IH|]. intros [= <-].
    apply checkSize_spec. apply checkSize_spec in C. exact C.
Qed.

(** After every line it reads, [nextLine] has put the count through the
    check. *)
Lemma nextLine_passes p p' : nextLine p = (p', None) -> checkSize p' = None.
Proof.
  unfold nextLine. destruct (ReadLine (content p)) as [[[l prefix] [e0|]] r]; [absurd_eq|].
  destruct (checkSize (set_size _ _)) eqn:C; [absurd_eq|].
  destruct prefix; [apply nextLine_more_passes|]. intros [= <-].
  apply checkSize_spec. apply checkSize_spec in C. exact C.
Qed.

Lemma nextLine_EOF p p' :
  nextLine p = (p', Some io_EOF) ->
  pending (content p) = [] /\ pending (content p') = [] /\ size p' = size p.
Proof.
  unfold nextLine, ReadLine.
  destruct (pending (content p)) as [|[l prefix] rest] eqn:E.
  - intros [= <- _]. simpl. auto.
  - simpl. destruct (checkSize _) eqn:C.
    + apply checkSize_error in C as [-> _]. absurd_eq.
    + destruct prefix; [|absurd_eq]. intros H.
      apply nextLine_more_error in H as [[[_ H]|H] _]; [now elim H|discriminate].
Qed.

Lemma iterParse_result_on_parser f s e :
  lineno (f (parser s)) = lineno (parser s) ->
  iterParse_result (on_parser f s) e = iterParse_result s e.
Proof. intros H. unfold iterParse_result. simpl. now rewrite H. Qed.

(** A parse that ends without an error has read all its input, and the
    count of it all has passed the check. *)
Lemma ParseConfig_accepts p :
  checkSize p = None ->
  err (ParseConfig p) = None ->
  pending (content (after (ParseConfig p))) = []
  /\ checkSize (after (ParseConfig p)) = None.
Proof.
  intros H0. destruct (ParseConfig_leaves p) as (s1 & s2 & e & Hr & Hround & ->).
  simpl. intros He.
  assert (checkSize (parser s1) = None) as Hpass.
  { revert Hr. apply (reaches_invariant (fun s => checkSize (parser s) = None)); [|exact H0].
    intros sa sb _ R. unfold round in R.
    destruct (nextLine (parser sa)) as [p' [e0|]] eqn:N; [discriminate|].
    apply body_parser in R. rewrite R. simpl. exact (nextLine_passes _ _ N). }
  destruct (reaches_stack_root _ _ Hr) as [rest Hst].
  unfold round in Hround.
  destruct (nextLine (parser s1)) as [p' [e0|]] eqn:N.
  - injection Hround as <- <-. simpl in *. revert He. unfold iterParse_result. simpl.
    rewrite Hst. destruct e0 as [|msg|ce]; simpl; try discriminate.
    intros _. destruct (nextLine_limits _ _ _ N) as [_ HL].
    apply nextLine_EOF in N as (_ & Hp & Hs). split; [exact Hp|].
    apply checkSize_spec. apply checkSize_spec in Hpass.
    rewrite Hs, HL. exact Hpass.
  - exfalso. unfold body in Hround. simpl in Hround.
    destruct (classify (line p')) as [k|]; [|discriminate].
    destruct (scan_cases k) as [H|[H|[H|H]]].
    + rewrite (build_close _ _ H) in Hround. simpl in Hround.
      destruct (len (removelast (stack s1)) =? 0) eqn:E; [|discriminate].
      injection Hround as <- <-. revert He. unfold iterParse_result. simpl. now rewrite E.
    + rewrite (build_open _ _ H) in Hround. simpl in Hround.
      destruct (checkHeight p' _) as [e1|] eqn:C; [|discriminate].
      injection Hround as <- <-. revert He. unfold iterParse_result. simpl.
      rewrite Hst. unfold checkHeight in C. destruct (negb _); [|discriminate].
      destruct (_ <? _); [|discriminate]. injection C as <-. simpl.
      replace (len ((0%nat :: rest) ++ [length (heap s1)]) =? 0) with false; [discriminate|].
      symmetry. apply Z.eqb_neq. unfold len. simpl. lia.
    + rewrite (build_pair _ _ H) in Hround. discriminate.
    + rewrite (build_leaf _ _ H) in Hround. discriminate.
Qed.

Lemma ParseConfig_limits p :
  heightLimit (after (ParseConfig p)) = heightLimit p
  /\ sizeLimit (after (ParseConfig p)) = sizeLimit p.
Proof.
  destruct (ParseConfig_leaves p) as (s1 & s2 & e & Hr & Hround & ->). simpl.
  destruct (reaches_limits _ _ Hr) as [H1 H2].
  pose proof (round_limits s1) as L. rewrite Hround in L. simpl in *.
  destruct L as [L1 L2]. split; congruence.
Qed.

(** With a size limit that the whole input stays under, [ParseConfig]
    returns what it returns without a size limit. *)
Lemma ParseConfig_within p :
  within p ->
  root (ParseConfig p) = root (ParseConfig (no_size_limit p))
  /\ err (ParseConfig p) = err (ParseConfig (no_size_limit p))
  /\ memory (ParseConfig p) = memory (ParseConfig (no_size_limit p)).
Proof.
  intros Hw. rewrite !ParseConfig_entry.
  change (entry (no_size_limit p)) with (on_parser no_size_limit (entry p)).
  rewrite (iterLoop_within (entry p) Hw).
  destruct (iterLoop (entry p)) as [s e]. simpl.
  split; [reflexivity|]. split; reflexivity.
Qed.

(** C7. The size check fails exactly when the count has reached the
    limit.  [nextLine] makes it after every line it reads, on the count of
    all bytes read so far, so that a line which brings the count to the
    limit is refused with the size error.  An input that stays under the
    limit with all its bytes is parsed as without a limit, and an input
    that is parsed without error has stayed under the limit.  The 37
    bytes of the size test are refused under a limit of 25 and accepted
    under one of 38. *)
Theorem size_limit_check :
  (forall p, checkSize p = None <-> (sizeLimit p = -1 \/ size p < sizeLimit p))
  /\ (forall p p',
        is_int (size p) ->
        nextLine p = (p', None) ->
        size p' = wrap (size p + len (line p')) /\ checkSize p' = None)
  /\ (forall p l rest,
        pending (content p) = (l, false) :: rest ->
        sizeLimit p <> -1 ->
        sizeLimit p <= wrap (size p + len l) ->
        exists p',
          nextLine p
          = (p', Some (config_error
                         (ConfigError.mk (size_message (sizeLimit p)) (lineno p) 0))))
  /\ (forall p,
        0 <= size p ->
        size p + chunk_bytes (pending (content p)) < sizeLimit p <= max_int ->
        root (ParseConfig p) = root (ParseConfig (no_size_limit p))
        /\ err (ParseConfig p) = err (ParseConfig (no_size_limit p))
        /\ memory (ParseConfig p) = memory (ParseConfig (no_size_limit p)))
  /\ (forall p,
        sizeLimit p <> -1 ->
        0 <= size p < sizeLimit p ->
        size p + chunk_bytes (pending (content p)) <= max_int ->
        err (ParseConfig p) = None ->
        size p + chunk_bytes (pending (content p)) < sizeLimit p)
  /\ (let s := text ["a bunch of words"%string; "more words"%string; " more words"%string] in
      err (ParseConfig (fresh (bufio_NewReader s) (-1) 25))
      = Some (config_error (ConfigError.mk "size of config exceeds limit: 25" 1 0))
      /\ err (ParseConfig (fresh (bufio_NewReader s) (-1) 37))
         = Some (config_error (ConfigError.mk "size of config exceeds limit: 37" 2 0))
      /\ err (ParseConfig (fresh (bufio_NewReader s) (-1) 38)) = None).
Proof.
  split; [exact checkSize_spec|].
  split; [|split; [|split; [|split]]].
  - intros p p' Hint Hn. split; [|exact (nextLine_passes _ _ Hn)].
    destruct (nextLine_consumes _ _ _ Hint Hn) as (used & _ & _ & Hs & Hl).
    destruct (Hl eq_refl) as (_ & -> & _). now rewrite <- chunk_bytes_concat.
  - intros p l rest Hp Hne Hle. unfold nextLine, ReadLine. rewrite Hp. simpl.
    unfold checkSize. simpl.
    replace (sizeLimit p =? -1) with false by (symmetry; now apply Z.eqb_neq).
    replace (sizeLimit p <=? wrap (size p + len l)) with true
      by (symmetry; now apply Z.leb_le).
    simpl. eauto.
  - intros p H0 [H1 H2]. apply ParseConfig_within. unfold within. auto.
  - intros p Hne [H0 H1] Hmax He.
    assert (checkSize p = None) as Hc by (apply checkSize_spec; lia).
    destruct (ParseConfig_accepts p Hc He) as [Hpend Hpass].
    apply checkSize_spec in Hpass.
    destruct (ParseConfig_limits p) as [_ HL]. rewrite HL in Hpass.
    pose proof (chunk_bytes_nonneg (pending (content p))) as Hnn.
    destruct (ParseConfig_accounted p) as (_ & used & Hu & Hs).
    { apply wrap_small. unfold min_int, max_int in *. lia. }
    rewrite Hpend, app_nil_r in Hu. subst used.
    rewrite wrap_small in Hs by (unfold min_int, max_int in *; lia).
    lia.
  - vm_compute. repeat split; reflexivity.
Qed.

Lemma size_limit_check_witness :
  err (ParseConfig (fresh (bufio_NewReader "ab") (-1) 3))
  = err (ParseConfig (no_size_limit (fresh (bufio_NewReader "ab") (-1) 3)))
  /\ (exists p',
         nextLine (fresh (bufio_NewReader "ab") (-1) 2)
         = (p', Some (config_error (ConfigError.mk (size_message 2) 0 0))))
  /\ 0 + chunk_bytes (pending (content (fresh (bufio_NewReader "ab") (-1) 3))) < 3.
Proof.
  destruct size_limit_check as (_ & _ & Hreject & Haccept & Hunder & _).
  split; [|split].
  - apply (Haccept (fresh (bufio_NewReader "ab") (-1) 3)).
    + simpl. lia.
    + vm_compute. split; [reflexivity|discriminate].
  - apply (Hreject (fresh (bufio_NewReader "ab") (-1) 2) (bytes "ab") []).
    + vm_compute. reflexivity.
    + simpl. discriminate.
    + vm_compute. discriminate.
  - apply (Hunder (fresh (bufio_NewReader "ab") (-1) 3)).
    + simpl. discriminate.
    + simpl. lia.
    + vm_compute. discriminate.
    + vm_compute. reflexivity.
Defined.

(** ** The depth limit *)

Lemma checkHeight_spec p h :
  checkHeight p h = None <-> (heightLimit p = -1 \/ h <= heightLimit p).
Proof.
  unfold checkHeight. destruct (heightLimit p =? -1) eqn:E; simpl.
  - apply Z.eqb_eq in E. tauto.
  - apply Z.eqb_neq in E. destruct (heightLimit p <? h) eqn:L.
    + apply Z.ltb_lt in L. split; [discriminate|lia].
    + apply Z.ltb_ge in L. tauto.
Qed.

Lemma checkHeight_error p h e :
  checkHeight p h = Some e ->
  e = config_error (ConfigError.mk (height_message (heightLimit p)) (lineno p) 0)
  /\ heightLimit p <> -1 /\ heightLimit p < h.
Proof.
  unfold checkHeight. destruct (heightLimit p =? -1) eqn:E; simpl; [discriminate|].
  apply Z.eqb_neq in E. destruct (heightLimit p <? h) eqn:L; [|discriminate].
  apply Z.ltb_lt in L. intros [= <-]. auto.
Qed.

(** [nextLine] does not look at the depth limit. *)
Lemma nextLine_more_no_height rest p :
  nextLine_more rest (no_height_limit p)
  = (no_height_limit (fst (nextLine_more rest p)), snd (nextLine_more rest p)).
Proof.
  revert p. induction rest as [|[tline prefix] rest IH]; intros p; simpl.
  - destruct (failure (content p)); [reflexivity|].
    unfold checkSize. simpl.
    destruct (negb (sizeLimit p =? -1)); [|reflexivity].
    destruct (sizeLimit p <=? _); reflexivity.
  - unfold checkSize. simpl.
    destruct (negb (sizeLimit p =? -1)); [destruct (sizeLimit p <=? _); [reflexivity|]|];
      (destruct prefix; [|reflexivity]);
      exact (IH (set_line (line p ++ tline)
                   (set_size (wrap (size p + len tline))
                      (set_content {| pending := rest; failure := failure (content p) |} p)))).
Qed.

Lemma nextLine_no_height p :
  nextLine (no_height_limit p)
  = (no_height_limit (fst (nextLine p)), snd (nextLine p)).
Proof.
  unfold nextLine, ReadLine. simpl.
  destruct (pending (content p)) as [|[l prefix] rest]; [reflexivity|]. simpl.
  unfold checkSize. simpl.
  destruct (negb (sizeLimit p =? -1)); [destruct (sizeLimit p <=? _); [reflexivity|]|];
    (destruct prefix; [|reflexivity]);
    exact (nextLine_more_no_height rest
             (set_size (wrap (size p + len l))
                (set_line l
                   (set_content {| pending := rest; failure := failure (content p) |} p)))).
Qed.

Lemma build_no_height k s :
  build k (on_parser no_height_limit s) = unchecked (is_open k) (build k s).
Proof.
  destruct (scan_cases k) as [H|[H|[H|H]]].
  - rewrite !(build_close _ _ H). simpl.
    assert (is_open k = false) as ->.
    { unfold is_close in H. unfold is_open.
      destruct (Byte.eqb _ _); [|reflexivity]. simpl in *. now rewrite H. }
    destruct (len (removelast (stack s)) =? 0); reflexivity.
  - rewrite !(build_open _ _ H), H. simpl.
    destruct (checkHeight (parser s) _); reflexivity.
  - rewrite !(build_pair _ _ H). reflexivity.
  - rewrite !(build_leaf _ _ H). reflexivity.
Qed.

Lemma round_no_height s :
  round (on_parser no_height_limit s) = unchecked (pushes s) (round s).
Proof.
  unfold round, pushes. simpl. rewrite nextLine_no_height.
  destruct (nextLine (parser s)) as [p' [e|]]; simpl; [reflexivity|].
  unfold body. simpl. destruct (classify (line p')) as [k|]; [|reflexivity].
  apply (build_no_height k (set_parser p' s)).
Qed.

(** Under a depth limit the rounds that go on keep the depth within it. *)
Lemma round_depth s s' :
  heightLimit (parser s) <> -1 ->
  depth s <= heightLimit (parser s) ->
  round s = Continue s' ->
  depth s' <= heightLimit (parser s).
Proof.
  intros Hne Hd. unfold round.
  destruct (nextLine (parser s)) as [p' [e|]] eqn:N; [discriminate|].
  destruct (nextLine_limits _ _ _ N) as [HL _].
  unfold body. simpl. destruct (classify (line p')) as [k|]; [|now intros [= <-]].
  destruct (scan_cases k) as [H|[H|[H|H]]].
  - rewrite (build_close _ _ H). simpl. destruct (_ =? _); [discriminate|].
    intros [= <-]. unfold depth in *. simpl. unfold len in *.
    rewrite removelast_firstn_len, length_take. lia.
  - rewrite (build_open _ _ H). simpl.
    destruct (checkHeight p' _) eqn:C; [discriminate|]. intros [= <-].
    apply checkHeight_spec in C. unfold depth. simpl. lia.
  - rewrite (build_pair _ _ H). now intros [= <-].
  - rewrite (build_leaf _ _ H). now intros [= <-].
Qed.

(** A round that pushes and leaves the loop leaves it with the depth
    error, the depth being beyond the limit. *)
Lemma round_push_break s s' e :
  (exists rest, stack s = 0%nat :: rest) ->
  round s = Break s' e -> pushes s = true ->
  e = Some (config_error
              (ConfigError.mk (height_message (heightLimit (parser s)))
                 (lineno (parser s')) 0))
  /\ heightLimit (parser s) < depth s'
  /\ iterParse_result s' e = e.
Proof.
  intros [rest Hst]. unfold round, pushes.
  destruct (nextLine (parser s)) as [p' [e0|]] eqn:N; [discriminate|].
  destruct (nextLine_limits _ _ _ N) as [HL _].
  unfold body. simpl. destruct (classify (line p')) as [k|]; [|discriminate].
  intros R H. rewrite (build_open _ _ H) in R. simpl in R.
  destruct (checkHeight p' _) as [e1|] eqn:C; [|discriminate].
  injection R as <- <-. apply checkHeight_error in C as (-> & _ & Hlt).
  rewrite HL in *. simpl. split; [reflexivity|]. split; [exact Hlt|].
  unfold iterParse_result. simpl. rewrite Hst.
  replace (len ((0%nat :: rest) ++ [length (heap s)]) =? 0) with false; [reflexivity|].
  symmetry. apply Z.eqb_neq. unfold len. simpl. lia.
Qed.

Lemma reaches_first s t :
  reaches s t -> s = t \/ exists s1, round s = Continue s1 /\ reaches s1 t.
Proof.
  induction 1 as [|s1 s2 _ IH H]; [now left|]. right.
  destruct IH as [->|(s0 & R & Hr)].
  - exists s2. split; [exact H|apply reaches_here].
  - exists s0. split; [exact R|]. eapply reaches_round; eassumption.
Qed.

Lemma reaches_after s s1 t : round s = Continue s1 -> reaches s1 t -> reaches s t.
Proof.
  intros R H. eapply reaches_trans; [|exact H].
  eapply reaches_round; [apply reaches_here|exact R].
Qed.

(** If the parse without the depth limit never goes deeper than the
    limit, the loop does what it does without the limit. *)
Lemma iterLoop_shallow s :
  (exists rest, stack s = 0%nat :: rest) ->
  (forall t, reaches (on_parser no_height_limit s) t -> depth t <= heightLimit (parser s)) ->
  iterLoop (on_parser no_height_limit s)
  = (on_parser no_height_limit (fst (iterLoop s)), snd (iterLoop s)).
Proof.
  remember (unread s) as n eqn:Hn. revert s Hn.
  induction n as [n IH] using lt_wf_ind. intros s -> Hst Hall.
  rewrite (iterLoop_round s), (iterLoop_round (on_parser no_height_limit s)).
  pose proof (round_no_height s) as Hsim.
  pose proof (round_limits s) as HL.
  destruct (round s) as [s'|s' e] eqn:R; simpl in Hsim, HL.
  - rewrite Hsim. destruct HL as [HL _].
    apply (IH (unread s') (round_unread _ _ R) s' eq_refl (round_stack_root _ _ Hst R)).
    intros t Ht. rewrite HL. apply Hall. eapply reaches_after; eassumption.
  - destruct (pushes s) eqn:P.
    + exfalso. destruct (round_push_break _ _ _ Hst R P) as (_ & Hlt & _).
      assert (depth (on_parser no_height_limit s') <= heightLimit (parser s)) as Hle.
      { apply Hall. eapply reaches_round; [apply reaches_here|exact Hsim]. }
      unfold depth in *. simpl in Hle. lia.
    + rewrite Hsim. reflexivity.
Qed.

(** If the parse without the depth limit goes deeper than the limit, the
    loop ends with the depth error. *)
Lemma iterLoop_deep s :
  (exists rest, stack s = 0%nat :: rest) ->
  heightLimit (parser s) <> -1 ->
  depth s <= heightLimit (parser s) ->
  (exists t, reaches (on_parser no_height_limit s) t /\ heightLimit (parser s) < depth t) ->
  exists n,
    iterParse_result (fst (iterLoop s)) (snd (iterLoop s))
    = Some (config_error (ConfigError.mk (height_message (heightLimit (parser s))) n 0)).
Proof.
  remember (unread s) as m eqn:Hm. revert s Hm.
  induction m as [m IH] using lt_wf_ind. intros s -> Hst Hne Hd (t & Ht & Hdeep).
  rewrite (iterLoop_round s).
  pose proof (round_no_height s) as Hsim.
  pose proof (round_limits s) as HL.
  destruct (reaches_first _ _ Ht) as [<-|(t1 & R1 & Ht1)].
  { exfalso. unfold depth in *. simpl in *. lia. }
  destruct (round s) as [s'|s' e] eqn:R; simpl in Hsim, HL.
  - rewrite R1 in Hsim. injection Hsim as ->. destruct HL as [HL _].
    rewrite <- HL.
    apply (IH (unread s') (round_unread _ _ R) s' eq_refl (round_stack_root _ _ Hst R)).
    + now rewrite HL.
    + rewrite HL. now apply (round_depth s).
    + exists t. rewrite HL. auto.
  - destruct (pushes s) eqn:P; [|rewrite R1 in Hsim; discriminate].
    destruct (round_push_break _ _ _ Hst R P) as (-> & _ & Hres).
    simpl. rewrite Hres. eauto.
Qed.

(** C2. The depth check lets a depth through exactly when it does not
    exceed the limit.  It is made at every push, on the depth after the
    push.  So under a limit [N] an input that, parsed without the limit,
    never nests deeper than [N] is parsed as without the limit, and an
    input that nests deeper than [N] is refused with the depth error.  Four
    nested groups are refused under a limit of 3 and accepted under a limit
    of 4. *)
Theorem depth_limit :
  (forall p h, checkHeight p h = None <-> (heightLimit p = -1 \/ h <= heightLimit p))
  /\ (forall p s p' ws content escaped,
        reaches (entry p) s ->
        nextLine (parser s) = (p', None) ->
        forallb is_blank ws = true ->
        (escaped = false -> plain_content content) ->
        line p' = open_line ws content escaped ->
        exists s',
          depth s' = depth s + 1
          /\ round s = match checkHeight p' (depth s') with
                       | Some e => Break s' (Some e)
                       | None => Continue s'
                       end)
  /\ (forall p,
        (forall s, reaches (entry (no_height_limit p)) s -> depth s <= heightLimit p) ->
        root (ParseConfig p) = root (ParseConfig (no_height_limit p))
        /\ err (ParseConfig p) = err (ParseConfig (no_height_limit p))
        /\ memory (ParseConfig p) = memory (ParseConfig (no_height_limit p)))
  /\ (forall p,
        0 <= heightLimit p ->
        (exists s, reaches (entry (no_height_limit p)) s /\ heightLimit p < depth s) ->
        exists n,
          err (ParseConfig p)
          = Some (config_error (ConfigError.mk (height_message (heightLimit p)) n 0)))
  /\ (let s := text ["a:"%string; "b:"%string; "c:"%string; "d:"%string;
                     ":"%string; ":"%string; ":"%string; ":"%string] in
      err (ParseConfig (fresh (bufio_NewReader s) 3 (-1)))
      = Some (config_error (ConfigError.mk "tree height exceeds limit: 3" 4 0))
      /\ err (ParseConfig (fresh (bufio_NewReader s) 4 (-1))) = None).
Proof.
  split; [exact checkHeight_spec|].
  split; [|split; [|split]].
  - intros p s p' ws content escaped Hr Hn Hws Hplain Hl.
    destruct (classify_open ws content escaped Hws Hplain) as (k & Hk & Hopen & _).
    exists (pushed k (set_parser p' s)). split.
    + unfold depth. simpl. rewrite len_app. change (len [length (heap s)]) with 1. lia.
    + rewrite (round_next _ _ Hn). unfold body. simpl. rewrite Hl, Hk.
      rewrite (build_open _ _ Hopen). reflexivity.
  - intros p Hall. rewrite !ParseConfig_entry.
    change (entry (no_height_limit p)) with (on_parser no_height_limit (entry p)).
    rewrite (iterLoop_shallow (entry p)); [|exists []; reflexivity|exact Hall].
    destruct (iterLoop (entry p)) as [s e]. simpl.
    split; [reflexivity|]. split; reflexivity.
  - intros p H0 Hdeep. rewrite ParseConfig_entry.
    destruct (iterLoop_deep (entry p)) as [n Hn].
    + exists []. reflexivity.
    + simpl. lia.
    + unfold depth. simpl. exact H0.
    + exact Hdeep.
    + exists n. destruct (iterLoop (entry p)) as [s e]. exact Hn.
  - vm_compute. split; reflexivity.
Qed.

Lemma depth_limit_witness :
  (exists n,
      err (ParseConfig (fresh (bufio_NewReader (text ["a:"%string; "b:"%string])) 1 (-1)))
      = Some (config_error (ConfigError.mk (height_message 1) n 0)))
  /\ err (ParseConfig (fresh (bufio_NewReader (text ["a:"%string; ":"%string])) 1 (-1)))
     = err (ParseConfig (no_height_limit
                           (fresh (bufio_NewReader (text ["a:"%string; ":"%string])) 1 (-1)))).
Proof.
  destruct depth_limit as (_ & _ & Haccept & Hreject & _). split.
  - apply (Hreject (fresh (bufio_NewReader (text ["a:"%string; "b:"%string])) 1 (-1))).
    + simpl. lia.
    + exists (after_rounds 2
                (entry (no_height_limit
                          (fresh (bufio_NewReader (text ["a:"%string; "b:"%string])) 1 (-1))))).
      split; [apply reaches_after_rounds|]. vm_compute. reflexivity.
  - apply (Haccept (fresh (bufio_NewReader (text ["a:"%string; ":"%string])) 1 (-1))).
    intros s Hs.
    repeat match goal with
           | H : reaches _ _ |- _ =>
               apply reaches_first in H; destruct H as [<-|(? & R & H)];
               [vm_compute; discriminate|];
               vm_compute in R; first [discriminate R | injection R as <-]
           end.
Defined.

(** ** The name: value separator *)

Lemma byte_eqb_eq (a b : byte) : Byte.eqb a b = true <-> a = b.
Proof. split; [apply Byte.byte_dec_bl|apply Byte.byte_dec_lb]. Qed.




(** C1. On the line ["a:  b"] the last colon with a space right after it
    is at 1, but the scan leaves [nvPairNameEnd = 2], the place of the
    first space: after a match [foundNVPairMaybe] stays set, so the second
    space matches again and [i - 1] is no longer the colon.  The pair gets
    the name ["a:"] and the value ["b"], not ["a"] and [" b"]. *)
Theorem pair_split_two_spaces :
  let l := bytes "a:  b" in
  exists k,
    classify l = Some k
    /\ is_pair k = true
    /\ last_colon_space l (start k) (end_ k) 1
    /\ nvPairNameEnd k = 2
    /\ string_of_list_byte (slice l (start k) (nvPairNameEnd k)) = "a:"%string
    /\ string_of_list_byte (slice l (nvPairNameEnd k + 2) (end_ k)) = "b"%string
    /\ tree_of (ParseConfig (fresh (bufio_NewReader "a:  b") (-1) (-1)))
       = Node "__root__" [Node "a:" [Node "b" []]].
Proof.
  intros l. eexists. split; [vm_compute; reflexivity|]. simpl.
  split; [reflexivity|]. split; [|split; [reflexivity|]].
  - split; [lia|]. split; [lia|]. split; [split; reflexivity|].
    intros j' H1 H2 [Hc _].
    assert (j' = 2 \/ j' = 3) as [-> | ->] by lia; vm_compute in Hc; discriminate Hc.
  - split; [reflexivity|]. split; [reflexivity|]. vm_compute. reflexivity.
Qed.

(** The size error carries the line number as it was before the call of
    [nextLine] that read the offending line: the number of the line
    before. *)
Lemma size_error_line p p' e :
  nextLine p = (p', Some (config_error e)) ->
  e = ConfigError.mk (size_message (sizeLimit p)) (lineno p) 0
  /\ lineno p' = lineno p.
Proof.
  intros H. destruct (nextLine_error _ _ _ H) as [[Hs|Hs] Hl].
  - unfold stream_end in Hs. destruct (failure _); discriminate.
  - injection Hs as ->. auto.
Qed.

(** The depth error carries the number of the line that opened the node,
    which [nextLine] has advanced to. *)
Lemma height_error_line s s' e :
  (exists rest, stack s = 0%nat :: rest) ->
  round s = Break s' e -> pushes s = true ->
  exists p',
    nextLine (parser s) = (p', None)
    /\ e = Some (config_error
                   (ConfigError.mk (height_message (heightLimit (parser s))) (lineno p') 0))
    /\ (is_int (size (parser s)) -> lineno p' = wrap (lineno (parser s) + 1)).
Proof.
  intros Hst R P. destruct (round_push_break _ _ _ Hst R P) as (He & _ & _).
  destruct (round_parser s) as [e0 Hn]. rewrite R in Hn. simpl in Hn.
  unfold pushes in P. rewrite Hn in P. destruct e0; [discriminate|].
  exists (parser s'). split; [exact Hn|]. split; [exact He|].
  intros Hint. destruct (nextLine_consumes _ _ _ Hint Hn) as (used & _ & _ & _ & H).
  now destruct (H eq_refl) as (_ & _ & ->).
Qed.

(** C3. With a size limit of 1 the one-line input ["ab"] is refused while
    its first line is read, and the error says line 0; in the size test
    the limit of 25 is passed while the second line is read, and the
    error says line 1.  The depth error of the depth test is raised by
    the fourth line and says line 4, as the error for a close-scope line
    too many on line 5 says line 5. *)
Theorem size_error_line_lags :
  (let r := ParseConfig (fresh (bufio_NewReader "ab") (-1) 1) in
   err r = Some (config_error (ConfigError.mk "size of config exceeds limit: 1" 0 0))
   /\ line (after r) = bytes "ab")
  /\ (let r := ParseConfig
                 (fresh (bufio_NewReader
                           (text ["a bunch of words"%string; "more words"%string;
                                  " more words"%string])) (-1) 25) in
      err r = Some (config_error (ConfigError.mk "size of config exceeds limit: 25" 1 0))
      /\ line (after r) = bytes "more words")
  /\ (let r := ParseConfig
                 (fresh (bufio_NewReader
                           (text ["a:"%string; "b:"%string; "c:"%string; "d:"%string]))
                    3 (-1)) in
      err r = Some (config_error (ConfigError.mk "tree height exceeds limit: 3" 4 0))
      /\ line (after r) = bytes "d:")
  /\ (let r := ParseConfig
                 (fresh (bufio_NewReader
                           (text ["test 123:"%string; "  xyz"%string; ":"%string;
                                  "  abc"%string; ":"%string])) (-1) (-1)) in
      err r = Some (config_error (ConfigError.mk "Too many compound terminators ':'" 5 0))
      /\ line (after r) = bytes ":").
Proof.
  vm_compute. repeat split; reflexivity.
Qed.

(** ** Indices stay in range *)

Lemma skipBlank_range n : forall l i, i <= skipBlank n l i <= i + Z.of_nat n.
Proof.
  induction n as [|n IH]; intros l i; simpl; [lia|].
  destruct (_ && _); [lia|]. specialize (IH l (i + 1)). lia.
Qed.

Lemma scanPair_range n : forall l s i nv maybe,
  s <= i ->
  (maybe = true -> s < i) ->
  (nv = -1 \/ (s <= nv /\ nv + 2 <= i)) ->
  scanPair n l i nv maybe = -1
  \/ (s <= scanPair n l i nv maybe /\ scanPair n l i nv maybe + 2 <= i + Z.of_nat n).
Proof.
  induction n as [|n IH]; intros l s i nv maybe Hsi Hmaybe Hnv.
  - simpl. rewrite Z.add_0_r. exact Hnv.
  - replace (i + Z.of_nat (S n)) with (i + 1 + Z.of_nat n) by lia. simpl.
    destruct (Byte.eqb (byteAt l i) byte_colon).
    + apply IH; [lia|lia|lia].
    + destruct maybe; simpl.
      * specialize (Hmaybe eq_refl).
        destruct (Byte.eqb (byteAt l i) byte_space); apply IH; try lia; discriminate.
      * apply IH; [lia|discriminate|lia].
Qed.

(** The indices and slice bounds the loop body uses on a line it does not
    skip are those Go accepts: the line is not empty, so [p.line[end-1]]
    exists; [start <= end <= len(p.line)]; and a split point found lies
    with its two bytes between [start] and [end]. *)
Lemma classify_in_range l k :
  classify l = Some k ->
  0 < len l
  /\ 0 <= start k <= end_ k /\ end_ k <= len l
  /\ (nvPairNameEnd k = -1
      \/ (start k <= nvPairNameEnd k /\ nvPairNameEnd k + 2 <= end_ k)).
Proof.
  unfold classify.
  pose proof (skipBlank_range (length l) l 0) as Hi. fold (len l) in Hi.
  set (i := skipBlank (length l) l 0) in *.
  destruct (i =? len l) eqn:E; [discriminate|]. apply Z.eqb_neq in E.
  destruct (negb _ && _); [discriminate|].
  set (i' := if Byte.eqb (byteAt l i) byte_quote then i + 1 else i).
  set (e := if Byte.eqb (byteAt l (len l - 1)) byte_colon then len l - 1
            else if Byte.eqb (byteAt l (len l - 1)) byte_quote
                 then (if negb (i' =? len l) then len l - 1 else len l)
                 else len l).
  intros [= <-]. simpl.
  assert (i' <= e /\ e <= len l) as [Hie Hel].
  { subst i' e. destruct (Byte.eqb (byteAt l i) byte_quote) eqn:Q.
    - apply byte_eqb_eq in Q.
      destruct (Byte.eqb (byteAt l (len l - 1)) byte_colon) eqn:C.
      + apply byte_eqb_eq in C. split; [|lia].
        destruct (Z.eq_dec i (len l - 1)) as [Hlast|]; [|lia].
        rewrite Hlast, C in Q. discriminate.
      + destruct (Byte.eqb (byteAt l (len l - 1)) byte_quote); [|lia].
        destruct (i + 1 =? len l) eqn:S; simpl; [lia|]. apply Z.eqb_neq in S. lia.
    - destruct (Byte.eqb (byteAt l (len l - 1)) byte_colon); [lia|].
      destruct (Byte.eqb (byteAt l (len l - 1)) byte_quote); [|lia].
      destruct (i =? len l); simpl; lia. }
  assert (0 <= i') by (unfold i'; destruct (Byte.eqb (byteAt l i) byte_quote); lia).
  split; [lia|]. split; [lia|]. split; [exact Hel|].
  destruct (scanPair_range (Z.to_nat (e - i')) l i' i' (-1) false) as [Hr|Hr];
    [lia|discriminate|now left|now left|].
  right. lia.
Qed.

(** ** The recursive variant *)

(** The recursive parser refuses a depth equal to the limit, which the
    iterative parser accepts. *)
Lemma recursive_checkHeight_at_limit p :
  heightLimit p <> -1 ->
  Recursive.checkHeight p (heightLimit p) <> None
  /\ checkHeight p (heightLimit p) = None.
Proof.
  intros Hne. split; [|apply checkHeight_spec; lia].
  unfold Recursive.checkHeight.
  replace (heightLimit p =? -1) with false by (symmetry; now apply Z.eqb_neq).
  simpl. rewrite Z.leb_refl. discriminate.
Qed.

(** ** The tests of the package *)

(** [TestNewParser]: a limit that is not positive is refused with its
    message, and limits that are positive are stored. *)
Example test_NewParser :
  NewParser (bufio_NewReader "test: 123") [HeightLimit (-1)]
  = inr "Height limit must be greater than 0."%string
  /\ NewParser (bufio_NewReader "test: 123") [SizeLimit (-1)]
     = inr "Size limit must be greater than 0."%string
  /\ NewParser (bufio_NewReader "test: 123") [HeightLimit 10; SizeLimit 256]
     = inl (fresh (bufio_NewReader "test: 123") 10 256).
Proof. repeat split; reflexivity. Qed.

(** [TestParseConfig], the cases without limits: what [setupAndRunParser]
    returns, as trees. *)
Example test_ParseConfig :
  run "test: 123" = (Node "__root__" [Node "test" [Node "123" []]], None)
  /\ run "test 123" = (Node "__root__" [Node "test 123" []], None)
  /\ run (text ["test 123:"%string; "  xyz"%string; "  abc"%string; ":"%string])
     = (Node "__root__" [Node "test 123" [Node "xyz" []; Node "abc" []]], None)
  /\ run (text ["'    four spaces:'"%string; "another element:'"%string;
                "'# not a comment"%string; "''"%string; "x:'"%string])
     = (Node "__root__"
          [Node "    four spaces:" []; Node "another element:" [];
           Node "# not a comment" []; Node "" []; Node "x:" []], None)
  /\ run (text ["'"%string; "     '"%string])
     = (Node "__root__" [Node "" []; Node "" []], None)
  /\ snd (run (text ["test 123:"%string; "  xyz"%string; "  abc"%string; ""%string]))
     = Some (config_error (ConfigError.mk unterminated_message 3 0))
  /\ snd (run (text ["test 123:"%string; "  xyz"%string; ":"%string; "  abc"%string;
                     ":"%string]))
     = Some (config_error (ConfigError.mk terminators_message 5 0)).
Proof. vm_compute. repeat split; reflexivity. Qed.

(** * Further properties *)

(** ** [NewParser] and its options *)





(** ** Blank lines, comments and close-scope lines *)

Lemma classify_comment ws tl :
  forallb is_blank ws = true -> classify (ws ++ byte_hash :: tl) = None.
Proof.
  intros Hws. rewrite classify_shape by (assumption || reflexivity). reflexivity.
Qed.

(** X2. A line of blanks only (or an empty line) and a line whose first
    byte after the blanks is [#] change neither the tree nor the stack,
    whatever follows the [#], a terminator too: the round only keeps what
    [nextLine] did to the parser, and the loop goes on. *)
Theorem skipped_lines s p' ws tl :
  nextLine (parser s) = (p', None) ->
  forallb is_blank ws = true ->
  line p' = ws \/ line p' = ws ++ byte_hash :: tl ->
  round s = Continue {| parser := p'; heap := heap s; stack := stack s; c := c s |}.
Proof.
  intros Hn Hws Hl. rewrite (round_next _ _ Hn). unfold body. simpl.
  destruct Hl as [-> | ->].
  - now rewrite classify_blank.
  - now rewrite classify_comment.
Qed.

Lemma skipped_lines_witness :
  round (entry (fresh (bufio_NewReader " # a: b:") (-1) (-1)))
  = Continue {| parser := {| content := {| pending := []; failure := None |};
                             line := bytes " # a: b:"; lineno := 1; size := 8;
                             heightLimit := -1; sizeLimit := -1 |};
                heap := [ {| name := "__root__"; value := [] |} ];
                stack := [0%nat]; c := 0%nat |}.
Proof.
  apply (skipped_lines (entry (fresh (bufio_NewReader " # a: b:") (-1) (-1))) _
           (bytes " ") (bytes " a: b:")).
  - vm_compute. reflexivity.
  - reflexivity.
  - right. reflexivity.
Defined.

Lemma top_last st : top st = List.last st 0%nat.
Proof.
  destruct st as [|a st] using rev_ind; [reflexivity|].
  now rewrite top_snoc, last_last.
Qed.



(** ** Lines that add a leaf or a pair *)


(** What [classify] finds on a content line: the content lies between
    [start] and [end], and the line does not end in the terminator. *)
Lemma classify_content ws content escaped closed :
  forallb is_blank ws = true ->
  (escaped = false -> plain_content content) ->
  (closed = false -> open_ended content) ->
  let l := content_line ws content escaped closed in
  let pre := ws ++ (if escaped then [byte_quote] else []) in
  exists k,
    classify l = Some k
    /\ start k = len pre
    /\ end_ k = len pre + len content
    /\ Byte.eqb (endToken k) byte_colon = false
    /\ nvPairNameEnd k = scanPair (length content) l (len pre) (-1) false
    /\ l = pre ++ content ++ (if closed then [byte_quote] else []).
Proof.
  intros Hws Hplain Hopen l pre.
  assert (l = pre ++ content ++ (if closed then [byte_quote] else [])) as Hl
      by (unfold l, pre, content_line; now rewrite <- app_assoc).
  set (X := (if escaped then [byte_quote] else [])
              ++ content ++ (if closed then [byte_quote] else [])).
  assert (exists b tl, X = b :: tl /\ is_blank b = false
                       /\ Byte.eqb b byte_quote = escaped
                       /\ negb escaped && Byte.eqb b byte_hash = false) as (b & tl & HX & Hb & Hq & Hh).
  { subst X. destruct escaped; simpl.
    - eexists _, _. repeat split.
    - destruct content as [|b tl0]; [now elim (Hplain eq_refl)|].
      destruct (Hplain eq_refl) as (H1 & H2 & H3).
      exists b, (tl0 ++ (if closed then [byte_quote] else [])).
      repeat split; [exact H1|now apply byte_eqb_ne|now apply byte_eqb_ne]. }
  assert (len l = len pre + len content + (if closed then 1 else 0)) as Hlen
      by (rewrite Hl, !len_app; destruct closed; unfold len; simpl; lia).
  assert (len pre = len ws + (if escaped then 1 else 0)) as Hpre
      by (unfold pre; rewrite len_app; destruct escaped; unfold len; simpl; lia).
  assert (List.last X x00 = if closed then byte_quote
                            else match content with
                                 | [] => byte_quote
                                 | _ => List.last content x00
                                 end) as Hlast.
  { subst X. destruct closed.
    - rewrite app_assoc. apply last_last.
    - rewrite app_nil_r. destruct content as [|c0 content0].
      + destruct escaped; [reflexivity|now elim (Hplain eq_refl)].
      + destruct escaped; [|reflexivity]. reflexivity. }
  assert (l = ws ++ b :: tl) as Hshape by (unfold l, content_line; fold X; now rewrite HX).
  pose proof (len_nonneg content) as Hc0.
  rewrite Hshape, classify_shape, <- Hshape by assumption.
  unfold classified. rewrite <- Hshape, <- HX, Hq, Hh, Hlast.
  replace (if escaped then len ws + 1 else len ws) with (len pre)
    by (rewrite Hpre; destruct escaped; lia).
  assert (forall n : nat, Z.of_nat n = len content -> n = length content) as Hnat
      by (unfold len; lia).
  destruct closed.
  - simpl. replace (len pre =? len l) with false by (symmetry; apply Z.eqb_neq; lia).
    simpl. eexists. split; [reflexivity|]. cbn [start end_ endToken nvPairNameEnd].
    split; [reflexivity|]. split; [lia|]. split; [reflexivity|]. split; [|exact Hl].
    f_equal. apply Hnat. lia.
  - destruct content as [|c0 content0] eqn:Ec.
    + simpl. replace (len pre =? len l) with true
        by (symmetry; apply Z.eqb_eq; rewrite Hlen; unfold len; simpl; lia).
      simpl. eexists. split; [reflexivity|]. simpl.
      split; [reflexivity|]. split; [rewrite Hlen; unfold len; simpl; lia|].
      split; [reflexivity|]. split; [|exact Hl].
      replace (Z.to_nat (len l - len pre)) with 0%nat
        by (rewrite Hlen; unfold len; simpl; lia).
      reflexivity.
    + destruct (Hopen eq_refl) as [H1 H2].
      rewrite (byte_eqb_ne _ _ H1), (byte_eqb_ne _ _ H2).
      eexists. split; [reflexivity|]. cbn [start end_ endToken nvPairNameEnd].
      split; [reflexivity|]. split; [lia|]. split; [now apply byte_eqb_ne|].
      split; [|exact Hl].
      f_equal. apply Hnat. lia.
Qed.






(** The memory after a leaf has been added under [c]. *)
Lemma leaf_heap h c nm cell :
  h !! c = Some cell ->
  let n := length h in
  let h' := addValue (setName (h ++ [blank]) n nm) c n in
  h' !! c = Some {| name := name cell; value := value cell ++ [n] |}
  /\ h' !! n = Some {| name := nm; value := [] |}
  /\ length h' = S n
  /\ (forall a, a <> c -> (a < n)%nat -> h' !! a = h !! a).
Proof.
  intros Hc n h'. pose proof (lookup_lt_Some _ _ _ Hc) as Hlt.
  unfold h', addValue, setName. repeat split.
  - rewrite list_lookup_alter_eq, list_lookup_alter_ne by (unfold n; lia).
    rewrite lookup_app_l, Hc by assumption. reflexivity.
  - rewrite list_lookup_alter_ne by (unfold n; lia).
    rewrite list_lookup_alter_eq. unfold n. rewrite list_lookup_middle by reflexivity.
    reflexivity.
  - rewrite !length_alter, length_app. simpl. unfold n. lia.
  - intros a Hne Ha. rewrite !list_lookup_alter_ne by (unfold n; lia).
    now apply lookup_app_l.
Qed.

(** The memory after a pair has been added under [c]. *)
Lemma pair_heap h c nm val cell :
  h !! c = Some cell ->
  let n := length h in
  let h' := addValue
              (addValue (setName (h ++ [blank]) n nm ++ [ {| name := val; value := [] |} ])
                 n (S n))
              c n in
  h' !! c = Some {| name := name cell; value := value cell ++ [n] |}
  /\ h' !! n = Some {| name := nm; value := [S n] |}
  /\ h' !! S n = Some {| name := val; value := [] |}
  /\ length h' = S (S n)
  /\ (forall a, a <> c -> (a < n)%nat -> h' !! a = h !! a).
Proof.
  intros Hc n h'. pose proof (lookup_lt_Some _ _ _ Hc) as Hlt.
  assert (length (setName (h ++ [blank]) n nm) = S n) as Hlen
      by (unfold setName; rewrite length_alter, length_app; simpl; unfold n; lia).
  unfold h', addValue. repeat split.
  - rewrite list_lookup_alter_eq, list_lookup_alter_ne by (unfold n; lia).
    rewrite lookup_app_l by (rewrite Hlen; unfold n; lia).
    unfold setName. rewrite list_lookup_alter_ne by (unfold n; lia).
    rewrite lookup_app_l, Hc by assumption. reflexivity.
  - rewrite list_lookup_alter_ne by (unfold n; lia).
    rewrite list_lookup_alter_eq.
    rewrite lookup_app_l by (rewrite Hlen; lia).
    unfold setName. rewrite list_lookup_alter_eq. unfold n.
    rewrite list_lookup_middle by reflexivity. reflexivity.
  - rewrite !list_lookup_alter_ne by (unfold n; lia).
    rewrite list_lookup_middle by (now rewrite Hlen). reflexivity.
  - rewrite !length_alter, length_app, Hlen. simpl. lia.
  - intros a Hne Ha. rewrite !list_lookup_alter_ne by (unfold n; lia).
    rewrite lookup_app_l by (rewrite Hlen; lia).
    unfold setName. rewrite list_lookup_alter_ne by (unfold n; lia).
    now apply lookup_app_l.
Qed.







(** ** The memory is a tree *)

(** Where a child entry of the extended memory comes from. *)
Lemma extends_entry h h' c a cell' i x :
  extends h h' c ->
  h' !! a = Some cell' -> value cell' !! i = Some x ->
  (exists cell, h !! a = Some cell /\ value cell !! i = Some x)
  \/ (a = c /\ x = length h
      /\ exists cell, h !! c = Some cell /\ i = length (value cell))
  \/ (a = length h /\ i = 0%nat /\ (length h < x < length h')%nat).
Proof.
  intros (Hlen & (cell & Hc & Hc') & Hold & Hnew) Ha Hx.
  destruct (le_lt_dec (length h) a) as [Hge|Hlt].
  - right. right. exact (Hnew _ _ _ _ Hge Ha Hx).
  - destruct (Nat.eq_dec a c) as [->|Hne].
    + rewrite Hc' in Ha. injection Ha as <-. simpl in Hx.
      apply lookup_snoc_Some in Hx as [[_ Hx]|[Hi <-]].
      * left. eauto.
      * right. left. eauto.
    + left. rewrite (Hold _ Hne Hlt) in Ha. eauto.
Qed.

Lemma ordered_extends h h' c : ordered h -> extends h h' c -> ordered h'.
Proof.
  intros Ho He a cell' i x Ha Hx.
  destruct (extends_entry _ _ _ _ _ _ _ He Ha Hx)
    as [(cell & H1 & H2)|[(-> & -> & cell & H1 & _)|(-> & _ & H)]].
  - pose proof (Ho _ _ _ _ H1 H2). destruct He as (Hlen & _). lia.
  - apply lookup_lt_Some in H1. destruct He as (Hlen & _). lia.
  - lia.
Qed.

Lemma unshared_extends h h' c :
  ordered h -> unshared h -> extends h h' c -> unshared h'.
Proof.
  intros Ho Hu He a b ca cb i j x Ha Hb Hi Hj.
  destruct (extends_entry _ _ _ _ _ _ _ He Ha Hi)
    as [(ca0 & A1 & A2)|[(-> & -> & ca0 & A1 & ->)|(-> & -> & A)]];
    destruct (extends_entry _ _ _ _ _ _ _ He Hb Hj)
      as [(cb0 & B1 & B2)|[(-> & Hx & cb0 & B1 & ->)|(-> & -> & B)]];
    try (pose proof (Ho _ _ _ _ A1 A2));
    try (pose proof (Ho _ _ _ _ B1 B2));
    try lia.
  - exact (Hu _ _ _ _ _ _ _ A1 B1 A2 B2).
  - split; [reflexivity|congruence].
Qed.

Lemma ordered_alloc h : ordered h -> ordered (h ++ [blank]).
Proof.
  intros Ho a cell i x Ha Hx. rewrite length_app. simpl.
  apply lookup_snoc_Some in Ha as [[_ Ha]|[_ <-]]; [|discriminate].
  pose proof (Ho _ _ _ _ Ha Hx). lia.
Qed.

Lemma unshared_alloc h : unshared h -> unshared (h ++ [blank]).
Proof.
  intros Hu a b ca cb i j x Ha Hb Hi Hj.
  apply lookup_snoc_Some in Ha as [[_ Ha]|[_ <-]]; [|discriminate].
  apply lookup_snoc_Some in Hb as [[_ Hb]|[_ <-]]; [|discriminate].
  exact (Hu _ _ _ _ _ _ _ Ha Hb Hi Hj).
Qed.

Lemma pushed_extends k s :
  (c s < length (heap s))%nat -> extends (heap s) (heap (pushed k s)) (c s).
Proof.
  intros Hc. destruct (lookup_lt_is_Some_2 _ _ Hc) as [cell Hcell].
  destruct (pushed_heap k s cell Hcell) as (Hnew & Hpar & Hlen).
  split; [lia|]. split; [eauto|]. split.
  - intros a Hne Ha. unfold pushed, setName, addValue. simpl.
    rewrite !list_lookup_alter_ne by lia. now apply lookup_app_l.
  - intros a cell' i x Hge Ha Hx. apply lookup_lt_Some in Ha as Hlt.
    assert (a = length (heap s)) as -> by lia.
    rewrite Hnew in Ha. injection Ha as <-. discriminate.
Qed.

Lemma leaf_extends h c nm :
  (c < length h)%nat ->
  extends h (addValue (setName (h ++ [blank]) (length h) nm) c (length h)) c.
Proof.
  intros Hc. destruct (lookup_lt_is_Some_2 _ _ Hc) as [cell Hcell].
  destruct (leaf_heap h c nm cell Hcell) as (H1 & H2 & H3 & H4).
  split; [lia|]. split; [eauto|]. split; [exact H4|].
  intros a cell' i x Hge Ha Hx. apply lookup_lt_Some in Ha as Hlt.
  assert (a = length h) as -> by lia.
  rewrite H2 in Ha. injection Ha as <-. discriminate.
Qed.

Lemma pair_extends h c nm val :
  (c < length h)%nat ->
  extends h
    (addValue
       (addValue (setName (h ++ [blank]) (length h) nm ++ [ {| name := val; value := [] |} ])
          (length h) (S (length h)))
       c (length h)) c.
Proof.
  intros Hc. destruct (lookup_lt_is_Some_2 _ _ Hc) as [cell Hcell].
  destruct (pair_heap h c nm val cell Hcell) as (H1 & H2 & H3 & H4 & H5).
  split; [lia|]. split; [eauto|]. split; [exact H5|].
  intros a cell' i x Hge Ha Hx. apply lookup_lt_Some in Ha as Hlt.
  assert (a = length h \/ a = S (length h)) as [-> | ->] by lia.
  - rewrite H2 in Ha. injection Ha as <-. simpl in Hx.
    destruct i as [|i]; [|discriminate]. injection Hx as <-. lia.
  - rewrite H3 in Ha. injection Ha as <-. discriminate.
Qed.

(** Every way the loop body can go keeps the memory a tree. *)
Lemma build_tree k s :
  (c s < length (heap s))%nat ->
  ordered (heap s) /\ unshared (heap s) ->
  ordered (heap (flow_state (build k s))) /\ unshared (heap (flow_state (build k s))).
Proof.
  intros Hc [Ho Hu].
  assert (forall h', extends (heap s) h' (c s) -> ordered h' /\ unshared h') as Hext
      by (intros h' He; split; [eapply ordered_extends|eapply unshared_extends]; eassumption).
  destruct (scan_cases k) as [H|[H|[H|H]]].
  - rewrite (build_close _ _ H). simpl.
    destruct (_ =? _); simpl; split; auto using ordered_alloc, unshared_alloc.
  - rewrite (build_open _ _ H).
    destruct (checkHeight _ _); simpl; apply Hext, pushed_extends; exact Hc.
  - rewrite (build_pair _ _ H). simpl. apply Hext, pair_extends. exact Hc.
  - rewrite (build_leaf _ _ H). simpl. apply Hext, leaf_extends. exact Hc.
Qed.

Lemma round_tree s :
  sound s ->
  ordered (heap s) /\ unshared (heap s) ->
  ordered (heap (flow_state (round s))) /\ unshared (heap (flow_state (round s))).
Proof.
  intros Hs Ht. unfold round.
  destruct (nextLine (parser s)) as [p' [e|]]; [exact Ht|].
  unfold body. simpl. destruct (classify (line p')) as [k|]; [|exact Ht].
  apply (build_tree k (set_parser p' s)); [exact (sound_c _ Hs)|exact Ht].
Qed.

Lemma reaches_tree p s :
  reaches (entry p) s -> ordered (heap s) /\ unshared (heap s).
Proof.
  intros Hr.
  assert (sound s /\ (ordered (heap s) /\ unshared (heap s))) as [_ H]; [|exact H].
  revert Hr. apply (reaches_invariant
                      (fun s => sound s /\ (ordered (heap s) /\ unshared (heap s)))).
  - intros s1 s2 [Hs Ht] R. split; [exact (round_sound _ _ Hs R)|].
    pose proof (round_tree s1 Hs Ht) as T. now rewrite R in T.
  - split; [apply sound_entry|]. split.
    + intros [|a] cell i x; simpl; [intros [= <-]; discriminate|discriminate].
    + intros [|a] b ca cb i j x; simpl; [intros [= <-]; discriminate|discriminate].
Qed.

Lemma ordered_descends h a d b :
  ordered h -> descends h a d b -> (a + d <= b)%nat.
Proof.
  intros Ho. induction 1 as [|d b cell x _ IH Hc Hx]; [lia|].
  apply list_elem_of_lookup in Hx as [i Hi].
  pose proof (Ho _ _ _ _ Hc Hi). lia.
Qed.

Lemma tree_at_enough h :
  ordered h ->
  forall f1 f2 a,
    (length h - a <= f1)%nat -> (length h - a <= f2)%nat ->
    tree_at f1 h a = tree_at f2 h a.
Proof.
  intros Ho. induction f1 as [|f1 IH]; intros f2 a H1 H2.
  - assert (h !! a = None) as Hnone by (apply lookup_ge_None; lia).
    destruct f2; simpl; [reflexivity|now rewrite Hnone].
  - destruct f2 as [|f2].
    + assert (h !! a = None) as Hnone by (apply lookup_ge_None; lia).
      simpl. now rewrite Hnone.
    + simpl. destruct (h !! a) as [cell|] eqn:Ha; [|reflexivity].
      f_equal. apply map_ext_in. intros x Hx.
      apply In_nth_error in Hx as [i Hi].
      assert (value cell !! i = Some x) as Hi'.
      { clear -Hi. revert i Hi. induction (value cell) as [|y l IHl]; intros [|i]; simpl;
          try discriminate; [auto|apply IHl]. }
      pose proof (Ho _ _ _ _ Ha Hi'). apply IH; lia.
Qed.

(** X6. The memory [ParseConfig] leaves is a tree under the returned
    root: the children of a node are allocated cells with greater
    addresses; no node is a child of two nodes or twice a child of one;
    so a node that descends from another lies above it by at least the
    depth between them, no node descends from itself, and reading the
    tree to a depth of more than the number of cells gives nothing more. *)
Theorem memory_is_tree p :
  let h := memory (ParseConfig p) in
  ordered h
  /\ unshared h
  /\ (forall a d b, descends h a d b -> (a + d <= b)%nat)
  /\ (forall a d, ~ descends h a (S d) a)
  /\ (forall more, tree_at (length h + more) h (root (ParseConfig p))
                   = tree_of (ParseConfig p)).
Proof.
  intros h.
  assert (ordered h /\ unshared h) as [Ho Hu].
  { subst h. destruct (ParseConfig_leaves p) as (s1 & s2 & e & Hr & Hround & ->). simpl.
    pose proof (round_tree s1 (reaches_sound _ _ Hr) (reaches_tree _ _ Hr)) as T.
    now rewrite Hround in T. }
  split; [exact Ho|]. split; [exact Hu|]. split; [|split].
  - intros a d b. now apply ordered_descends.
  - intros a d Hd. apply (ordered_descends _ _ _ _ Ho) in Hd. lia.
  - intros more. unfold tree_of. fold h. apply tree_at_enough; [exact Ho|lia|lia].
Qed.

(** ** The errors of [ParseConfig] *)

Lemma nextLine_more_failure rest p p' e :
  nextLine_more rest p = (p', e) -> failure (content p') = failure (content p).
Proof.
  revert p. induction rest as [|[tline prefix] rest IH]; intros p; simpl.
  - destruct (failure (content p)) eqn:F; [intros [= <- _]; exact F|].
    destruct (checkSize _); intros [= <- _]; exact F.
  - destruct (checkSize _); [intros [= <- _]; reflexivity|].
    destruct prefix; [intros H; now apply IH in H|intros [= <- _]; reflexivity].
Qed.

Lemma nextLine_failure p p' e :
  nextLine p = (p', e) -> failure (content p') = failure (content p).
Proof.
  unfold nextLine, ReadLine.
  destruct (pending (content p)) as [|[l prefix] rest]; [intros [= <- _]; reflexivity|].
  simpl. destruct (checkSize _); [intros [= <- _]; reflexivity|].
  destruct prefix; [intros H; now apply nextLine_more_failure in H|intros [= <- _]; reflexivity].
Qed.

Lemma reaches_failure s s' :
  reaches s s' -> failure (content (parser s')) = failure (content (parser s)).
Proof.
  apply (reaches_invariant
           (fun s' => failure (content (parser s')) = failure (content (parser s))));
    [|reflexivity].
  intros s1 s2 H R. rewrite <- H.
  destruct (round_parser s1) as [e He]. rewrite R in He. simpl in He.
  exact (nextLine_failure _ _ _ He).
Qed.

Lemma nextLine_more_over rest p p' e :
  nextLine_more rest p = (p', Some (config_error e)) ->
  sizeLimit p' <> -1 /\ sizeLimit p' <= size p'.
Proof.
  revert p. induction rest as [|[tline prefix] rest IH]; intros p; simpl.
  - destruct (failure (content p)); [discriminate|].
    destruct (checkSize _) as [e'|] eqn:C; [|discriminate].
    intros [= <- _]. now apply checkSize_error in C.
  - destruct (checkSize _) as [e'|] eqn:C.
    + intros [= <- _]. now apply checkSize_error in C.
    + destruct prefix; [apply IH|discriminate].
Qed.

Lemma nextLine_over p p' e :
  nextLine p = (p', Some (config_error e)) ->
  sizeLimit p' <> -1 /\ sizeLimit p' <= size p'.
Proof.
  unfold nextLine, ReadLine.
  destruct (pending (content p)) as [|[l prefix] rest].
  - unfold stream_end. destruct (failure (content p)); discriminate.
  - simpl. destruct (checkSize _) as [e'|] eqn:C.
    + intros [= <- _]. now apply checkSize_error in C.
    + destruct prefix; [apply nextLine_more_over|discriminate].
Qed.

(** The three ways a round leaves the loop. *)
Lemma round_break_cases s s' e :
  round s = Break s' e ->
  (exists e', e = Some e' /\ nextLine (parser s) = (parser s', Some e')
              /\ stack s' = stack s)
  \/ (e = None /\ stack s' = [])
  \/ (e = Some (config_error
                  (ConfigError.mk (height_message (heightLimit (parser s')))
                     (lineno (parser s')) 0))
      /\ heightLimit (parser s') <> -1
      /\ exists n, stack s' = stack s ++ [n]).
Proof.
  unfold round. destruct (nextLine (parser s)) as [p' [e'|]] eqn:N.
  - intros [= <- <-]. left. exists e'. auto.
  - unfold body. simpl. destruct (classify (line p')) as [k|]; [|discriminate].
    destruct (scan_cases k) as [H|[H|[H|H]]].
    + rewrite (build_close _ _ H). simpl.
      destruct (len _ =? 0) eqn:E; [|discriminate].
      intros [= <- <-]. right. left. split; [reflexivity|]. simpl.
      apply Z.eqb_eq in E. unfold len in E.
      destruct (removelast (stack s)); [reflexivity|simpl in E; lia].
    + rewrite (build_open _ _ H).
      destruct (checkHeight _ _) as [e'|] eqn:C; [|discriminate].
      intros [= <- <-]. right. right. simpl in *.
      apply checkHeight_error in C as (-> & Hlim & _).
      split; [reflexivity|]. split; [exact Hlim|]. eauto.
    + rewrite (build_pair _ _ H). discriminate.
    + rewrite (build_leaf _ _ H). discriminate.
Qed.

(** X7. What [ParseConfig] can return as its error.  It is never
    [io.EOF].  With no error the reader is at its end, which is an
    [io.EOF].  An error of the reader is returned as it is.  A
    [ConfigError] has column 0, the line number the parser is left with,
    and one of four texts: open scopes at the end of the input, a close
    at the root, the height limit (then one is set) and the size limit
    (then one is set and the size read has reached it). *)
Theorem ParseConfig_errors p :
  match err (ParseConfig p) with
  | None =>
      pending (content (after (ParseConfig p))) = [] /\ failure (content p) = None
  | Some io_EOF => False
  | Some (io_failure msg) => failure (content p) = Some msg
  | Some (config_error e) =>
      ConfigError.col e = 0
      /\ ConfigError.line e = lineno (after (ParseConfig p))
      /\ (ConfigError.context e = unterminated_message
          /\ pending (content (after (ParseConfig p))) = []
          /\ failure (content p) = None
          \/ ConfigError.context e = terminators_message
          \/ ConfigError.context e = height_message (heightLimit p)
             /\ heightLimit p <> -1
          \/ ConfigError.context e = size_message (sizeLimit p)
             /\ sizeLimit p <> -1
             /\ sizeLimit p <= size (after (ParseConfig p)))
  end.
Proof.
  destruct (ParseConfig_leaves p) as (s1 & s2 & e & Hr & Hround & ->). simpl.
  destruct (reaches_stack_root _ _ Hr) as [rest Hstack].
  destruct (reaches_limits _ _ Hr) as [Hh Hs]. simpl in Hh, Hs.
  pose proof (reaches_failure _ _ Hr) as Hf. simpl in Hf.
  pose proof (round_limits s1) as Hl. rewrite Hround in Hl. simpl in Hl.
  destruct Hl as [Hh2 Hs2].
  destruct (round_break_cases _ _ _ Hround)
    as [(e' & -> & Hnext & Hst)|[[-> Hst]|(-> & Hlim & n & Hst)]].
  - unfold iterParse_result. rewrite Hst, Hstack.
    destruct e' as [|msg|ce].
    + apply nextLine_EOF in Hnext as Hend. destruct Hend as (_ & Hend & _).
      apply nextLine_error in Hnext as [[He|He] _]; [|discriminate].
      assert (failure (content p) = None) as Hnone.
      { rewrite <- Hf. unfold stream_end in He.
        destruct (failure (content (parser s1))); [discriminate|reflexivity]. }
      simpl is_EOF. cbn [andb negb].
      destruct (1 <? len (0%nat :: rest)) eqn:E; [simpl; auto 10|].
      unfold len in *. simpl length in *.
      destruct (_ =? 0) eqn:E0; [apply Z.eqb_eq in E0; lia|]. auto.
    + simpl is_EOF. cbn [andb negb]. unfold len. simpl length.
      destruct (_ =? 0) eqn:E0; [apply Z.eqb_eq in E0; lia|].
      apply nextLine_error in Hnext as [[He|He] _]; [|discriminate].
      rewrite <- Hf. unfold stream_end in He.
      destruct (failure (content (parser s1))); [congruence|discriminate].
    + simpl is_EOF. cbn [andb negb]. unfold len. simpl length.
      destruct (_ =? 0) eqn:E0; [apply Z.eqb_eq in E0; lia|].
      pose proof (nextLine_over _ _ _ Hnext) as [Ho1 Ho2].
      apply size_error_line in Hnext as [-> Hline]. simpl.
      rewrite Hs2, Hs in Ho1, Ho2. rewrite Hs, Hline. auto 10.
  - unfold iterParse_result. rewrite Hst. simpl. auto 10.
  - unfold iterParse_result. rewrite Hst, Hstack. simpl is_EOF. cbn [andb negb].
    unfold len. simpl length.
    destruct (_ =? 0) eqn:E0; [apply Z.eqb_eq in E0; lia|].
    simpl. rewrite Hh2, Hh in *. auto 10.
Qed.

(** ** Logical lines *)

Lemma nextLine_more_line rest p p' :
  pending (content p) = rest ->
  nextLine_more rest p = (p', None) ->
  exists l rest',
    take_line (at_eof (content p)) rest = Some (l, rest')
    /\ p' = {| content := {| pending := rest'; failure := failure (content p) |};
               line := line p ++ l;
               lineno := wrap (lineno p + 1);
               size := wrap (size p + len l);
               heightLimit := heightLimit p;
               sizeLimit := sizeLimit p |}.
Proof.
  revert p. induction rest as [|[tline prefix] rest IH]; intros p Hp; simpl.
  - unfold at_eof. destruct (failure (content p)) eqn:F; [discriminate|].
    destruct (checkSize _); [discriminate|]. intros [= <-].
    exists [], []. split; [reflexivity|].
    destruct p as [[pend fail] ? ? ? ? ?]. simpl in *. subst. reflexivity.
  - destruct (checkSize _); [discriminate|]. destruct prefix.
    + intros H. apply IH in H as (l & rest' & Ht & ->); [|reflexivity].
      simpl in *. unfold at_eof in *. simpl in Ht. rewrite Ht.
      exists (tline ++ l), rest'. split; [reflexivity|].
      rewrite wrap_add_l, len_app, <- app_assoc. do 2 f_equal. lia.
    + intros [= <-]. exists tline, rest. split; reflexivity.
Qed.

Lemma nextLine_line p p' :
  nextLine p = (p', None) ->
  exists l rest,
    pending (content p) <> []
    /\ take_line (at_eof (content p)) (pending (content p)) = Some (l, rest)
    /\ p' = {| content := {| pending := rest; failure := failure (content p) |};
               line := l;
               lineno := wrap (lineno p + 1);
               size := wrap (size p + len l);
               heightLimit := heightLimit p;
               sizeLimit := sizeLimit p |}.
Proof.
  unfold nextLine, ReadLine.
  destruct (pending (content p)) as [|[l prefix] rest] eqn:E; [discriminate|].
  simpl. destruct (checkSize _); [discriminate|]. destruct prefix.
  - intros H. apply nextLine_more_line in H as (l' & rest' & Ht & ->); [|reflexivity].
    simpl in *. unfold at_eof in *. simpl in Ht. rewrite Ht.
    exists (l ++ l'), rest'. split; [discriminate|]. split; [reflexivity|].
    rewrite wrap_add_l, len_app. do 2 f_equal. lia.
  - intros [= <-]. exists l, rest. split; [discriminate|]. split; reflexivity.
Qed.







Lemma take_line_count eof chunks l rest :
  take_line eof chunks = Some (l, rest) ->
  count_lines true chunks = 1 + count_lines false rest.
Proof.
  revert l. induction chunks as [|[tline prefix] chunks IH]; intros l; simpl.
  - destruct eof; [intros [= <- <-]; reflexivity|discriminate].
  - destruct prefix.
    + destruct (take_line eof chunks) as [[l' rest']|]; [|discriminate].
      intros [= <- <-]. now rewrite (IH l').
    + intros [= <- <-]. reflexivity.
Qed.

Lemma count_lines_first chunks :
  chunks <> [] -> count_lines false chunks = count_lines true chunks.
Proof. destruct chunks as [|[l prefix] rest]; [congruence|reflexivity]. Qed.

(** The line number and the lines still to read add up to the same
    across a call of [nextLine] that fails with no [ConfigError] and no
    error of the reader. *)
Lemma nextLine_lines p p' e :
  nextLine p = (p', e) ->
  match e with
  | Some (io_failure _) | Some (config_error _) => True
  | _ =>
      wrap (lineno p' + count_lines false (pending (content p')))
      = wrap (lineno p + count_lines false (pending (content p)))
  end.
Proof.
  intros H. destruct e as [[|msg|ce]|]; [| exact I | exact I |].
  - pose proof (nextLine_EOF _ _ H) as (-> & -> & _).
    apply nextLine_error in H as [_ ->]. reflexivity.
  - apply nextLine_line in H as (l & rest & Hne & Ht & ->). simpl.
    rewrite (count_lines_first _ Hne), (take_line_count _ _ _ _ Ht), wrap_add_l.
    f_equal. lia.
Qed.

Lemma nextLine_lineno_int p p' e :
  is_int (lineno p) -> nextLine p = (p', e) -> is_int (lineno p').
Proof.
  intros Hint H. destruct e as [e|].
  - apply nextLine_error in H as [_ ->]. exact Hint.
  - apply nextLine_line in H as (l & rest & _ & _ & ->). apply is_int_wrap.
Qed.

Lemma reaches_lines s s' :
  reaches s s' ->
  wrap (lineno (parser s') + count_lines false (pending (content (parser s'))))
  = wrap (lineno (parser s) + count_lines false (pending (content (parser s)))).
Proof.
  apply (reaches_invariant
           (fun s' =>
              wrap (lineno (parser s') + count_lines false (pending (content (parser s'))))
              = wrap (lineno (parser s) + count_lines false (pending (content (parser s))))));
    [|reflexivity].
  intros s1 s2 H R. rewrite <- H.
  destruct (round_parser s1) as [e He]. rewrite R in He. simpl in He.
  destruct e as [e|]; [rewrite (round_stop _ _ _ He) in R; discriminate|].
  exact (nextLine_lines _ _ _ He).
Qed.

Lemma reaches_lineno_int s s' :
  is_int (lineno (parser s)) -> reaches s s' -> is_int (lineno (parser s')).
Proof.
  intros Hint. apply (reaches_invariant (fun s' => is_int (lineno (parser s')))); [|exact Hint].
  intros s1 s2 H R. destruct (round_parser s1) as [e He]. rewrite R in He.
  exact (nextLine_lineno_int _ _ _ H He).
Qed.

(** X10. [p.lineno] counts the logical lines read.  Unless the parse is
    stopped by the size limit or by an error of the reader, the line
    number [ParseConfig] leaves and the number of lines it has left in
    the reader add up to the line number it started with and the number
    of lines of the input; so when it has read all the input, the line
    number has advanced by the number of lines of the input. *)
Theorem lineno_counts_lines p :
  is_int (lineno p) ->
  (forall msg, err (ParseConfig p) <> Some (io_failure msg)) ->
  (forall e, err (ParseConfig p) = Some (config_error e) ->
             ConfigError.context e <> size_message (sizeLimit p)) ->
  let total := wrap (lineno p + count_lines false (pending (content p))) in
  wrap (lineno (after (ParseConfig p))
        + count_lines false (pending (content (after (ParseConfig p))))) = total
  /\ (pending (content (after (ParseConfig p))) = [] ->
      lineno (after (ParseConfig p)) = total).
Proof.
  intros Hint Hio Hsize total.
  assert (is_int (lineno (after (ParseConfig p)))
          /\ wrap (lineno (after (ParseConfig p))
                   + count_lines false (pending (content (after (ParseConfig p))))) = total)
    as [Hint' Htotal].
  { subst total. revert Hio Hsize.
    destruct (ParseConfig_leaves p) as (s1 & s2 & e & Hr & Hround & ->). simpl.
    intros Hio Hsize.
    destruct (reaches_stack_root _ _ Hr) as [rest Hstack].
    destruct (reaches_limits _ _ Hr) as [_ Hs]. simpl in Hs.
    pose proof (reaches_lines _ _ Hr) as Hl. simpl in Hl. rewrite <- Hl.
    pose proof (reaches_lineno_int (entry p) s1 Hint Hr) as Hi.
    destruct (round_parser s1) as [e' He]. rewrite Hround in He. simpl in He.
    split; [exact (nextLine_lineno_int _ _ _ Hi He)|].
    pose proof (nextLine_lines _ _ _ He) as Hn.
    destruct e' as [[|msg|ce]|]; try exact Hn; exfalso.
    - rewrite (round_stop _ _ _ He) in Hround. injection Hround as Hs2 <-.
      assert (stack s2 = 0%nat :: rest) as Hst by (rewrite <- Hs2; exact Hstack).
      apply (Hio msg). unfold iterParse_result. simpl. rewrite Hst. reflexivity.
    - rewrite (round_stop _ _ _ He) in Hround. injection Hround as Hs2 <-.
      assert (stack s2 = 0%nat :: rest) as Hst by (rewrite <- Hs2; exact Hstack).
      apply size_error_line in He as [-> _].
      apply (Hsize (ConfigError.mk (size_message (sizeLimit (parser s1)))
                      (lineno (parser s1)) 0)).
      + unfold iterParse_result. simpl. rewrite Hst. reflexivity.
      + simpl. now rewrite Hs. }
  split; [exact Htotal|].
  intros Hend. rewrite Hend in Htotal. simpl in Htotal.
  rewrite Z.add_0_r in Htotal. now rewrite <- Htotal.
Qed.

Lemma lineno_counts_lines_witness :
  let p := fresh {| pending := [(bytes "a:", false); (bytes "b: ", true); (bytes "c", false);
                                (bytes ":", false); (bytes "d", true)];
                    failure := None |} 2 (-1) in
  lineno (after (ParseConfig p)) = 4.
Proof.
  intros p.
  refine (proj2 (lineno_counts_lines p eq_refl _ _) eq_refl).
  - intros msg. vm_compute. discriminate.
  - intros e. vm_compute. discriminate.
Defined.

(** ** The height limit bounds the tree *)

(** In a tree a node has one depth. *)
Lemma descends_one_depth h d d' b :
  ordered h -> unshared h ->
  descends h 0%nat d b -> descends h 0%nat d' b -> d = d'.
Proof.
  intros Ho Hu H. revert d'.
  induction H as [|d b cell x _ IH Hc Hx]; intros d' H'.
  - inversion H' as [|d1 b1 cell1 x1 _ Hc1 Hx1]; [reflexivity|]. subst.
    apply list_elem_of_lookup in Hx1 as [i Hi].
    pose proof (Ho _ _ _ _ Hc1 Hi). lia.
  - apply list_elem_of_lookup in Hx as [i Hi].
    inversion H' as [|d1 b1 cell1 x1 H1 Hc1 Hx1]; subst.
    + pose proof (Ho _ _ _ _ Hc Hi). lia.
    + apply list_elem_of_lookup in Hx1 as [j Hj].
      destruct (Hu _ _ _ _ _ _ _ Hc Hc1 Hi Hj) as [<- _].
      f_equal. now apply IH.
Qed.

Lemma descends_allocated h d b :
  ordered h -> (0 < length h)%nat -> descends h 0%nat d b -> (b < length h)%nat.
Proof.
  intros Ho Hlen. destruct 1 as [|d b cell x _ Hc Hx]; [exact Hlen|].
  apply list_elem_of_lookup in Hx as [i Hi].
  pose proof (Ho _ _ _ _ Hc Hi). lia.
Qed.

(** Where the nodes of the extended memory are: the old ones where they
    were, the first new one below [c], the others below that. *)
Lemma descends_extends h h' c dc d b :
  ordered h -> unshared h -> extends h h' c ->
  descends h 0%nat dc c ->
  descends h' 0%nat d b ->
  descends h 0%nat d b
  \/ (b = length h /\ d = S dc)
  \/ ((length h < b)%nat /\ d = S (S dc)).
Proof.
  intros Ho Hu He Hc.
  assert (0 < length h)%nat as Hlen.
  { destruct He as (_ & (cell & Hcell & _) & _). apply lookup_lt_Some in Hcell. lia. }
  induction 1 as [|d b cell' x H IH Hb Hx]; [left; constructor|].
  apply list_elem_of_lookup in Hx as [i Hi].
  destruct (extends_entry _ _ _ _ _ _ _ He Hb Hi)
    as [(cell & H1 & H2)|[(-> & -> & _)|(-> & _ & Hx)]].
  - left. destruct IH as [IH|[[-> _]|[Hlt _]]].
    + eapply descends_child; [exact IH|exact H1|].
      apply list_elem_of_lookup. eauto.
    + apply lookup_lt_Some in H1. lia.
    + apply lookup_lt_Some in H1. lia.
  - right. left. split; [reflexivity|]. f_equal.
    destruct IH as [IH|[[-> _]|[Hlt _]]].
    + exact (descends_one_depth _ _ _ _ Ho Hu IH Hc).
    + pose proof (descends_allocated _ _ _ Ho Hlen Hc). lia.
    + pose proof (descends_allocated _ _ _ Ho Hlen Hc). lia.
  - right. right. split; [lia|]. f_equal.
    destruct IH as [IH|[[_ ->]|[Hlt _]]]; [|reflexivity|lia].
    pose proof (descends_allocated _ _ _ Ho Hlen IH). lia.
Qed.

Lemma descends_alloc h d b :
  descends (h ++ [blank]) 0%nat d b -> descends h 0%nat d b.
Proof.
  induction 1 as [|d b cell x _ IH Hb Hx]; [constructor|].
  apply lookup_snoc_Some in Hb as [[_ Hb]|[_ <-]].
  - exact (descends_child _ _ _ _ cell x IH Hb Hx).
  - simpl in Hx. now apply elem_of_nil in Hx.
Qed.

(** The nodes a round adds are one or two levels below the current
    node. *)
Lemma build_descends k s d b :
  sound s -> ordered (heap s) -> unshared (heap s) ->
  descends (heap (flow_state (build k s))) 0%nat d b ->
  descends (heap s) 0%nat d b
  \/ depth s + 1 <= Z.of_nat d <= depth s + 2.
Proof.
  intros Hs Ho Hu.
  pose proof (sound_descends s Hs) as Hc. pose proof (sound_c s Hs) as Hlt.
  assert (forall h', extends (heap s) h' (c s) ->
                     descends h' 0%nat d b ->
                     descends (heap s) 0%nat d b
                     \/ depth s + 1 <= Z.of_nat d <= depth s + 2) as Hext.
  { intros h' He H.
    destruct (sound_root s Hs) as [rest Hst].
    destruct (descends_extends _ _ _ _ _ _ Ho Hu He Hc H) as [H1|[[_ ->]|[_ ->]]];
      [now left|right..];
      unfold depth, len; rewrite Hst; simpl length; lia. }
  destruct (scan_cases k) as [H|[H|[H|H]]].
  - rewrite (build_close _ _ H). simpl.
    destruct (_ =? _); simpl; intros D; left; exact (descends_alloc _ _ _ D).
  - rewrite (build_open _ _ H).
    destruct (checkHeight _ _); simpl; apply Hext, pushed_extends; exact Hlt.
  - rewrite (build_pair _ _ H). simpl. apply Hext, pair_extends. exact Hlt.
  - rewrite (build_leaf _ _ H). simpl. apply Hext, leaf_extends. exact Hlt.
Qed.

Lemma round_descends s d b :
  sound s -> ordered (heap s) -> unshared (heap s) ->
  descends (heap (flow_state (round s))) 0%nat d b ->
  descends (heap s) 0%nat d b
  \/ depth s + 1 <= Z.of_nat d <= depth s + 2.
Proof.
  intros Hs Ho Hu. unfold round.
  destruct (nextLine (parser s)) as [p' [e|]]; [now left|].
  unfold body. simpl. destruct (classify (line p')) as [k|]; [|now left].
  apply (build_descends k (set_parser p' s)); [now apply sound_set_parser|exact Ho|exact Hu].
Qed.

(** What the height limit of [p] keeps true at the head of the loop. *)
Lemma reaches_level p s :
  0 <= heightLimit p ->
  reaches (entry p) s ->
  heightLimit (parser s) = heightLimit p
  /\ depth s <= heightLimit p
  /\ forall d b, descends (heap s) 0%nat d b -> Z.of_nat d <= heightLimit p + 2.
Proof.
  intros Hlim Hr.
  assert ((sound s /\ ordered (heap s) /\ unshared (heap s))
          /\ heightLimit (parser s) = heightLimit p
          /\ depth s <= heightLimit p
          /\ forall d b, descends (heap s) 0%nat d b -> Z.of_nat d <= heightLimit p + 2)
    as [_ H]; [|exact H].
  revert Hr. apply (reaches_invariant
                      (fun s => (sound s /\ ordered (heap s) /\ unshared (heap s))
                                /\ heightLimit (parser s) = heightLimit p
                                /\ depth s <= heightLimit p
                                /\ forall d b, descends (heap s) 0%nat d b ->
                                               Z.of_nat d <= heightLimit p + 2)).
  - intros s1 s2 [(Hs & Ho & Hu) (HL & Hd & Hb)] R.
    pose proof (round_tree s1 Hs (conj Ho Hu)) as T.
    pose proof (round_limits s1) as [HL' _].
    pose proof (round_descends s1) as D.
    rewrite R in T, HL', D. simpl in T, HL', D.
    split; [split; [exact (round_sound _ _ Hs R)|exact T]|].
    split; [congruence|]. split.
    + rewrite <- HL. apply (round_depth s1 s2); [lia|lia|exact R].
    + intros d b H. destruct (D d b Hs Ho Hu H) as [H1|H1]; [exact (Hb _ _ H1)|lia].
  - split; [split; [apply sound_entry|exact (reaches_tree p _ (reaches_here _))]|].
    split; [reflexivity|]. split; [unfold depth, len; simpl; lia|].
    intros d b H. simpl in H.
    inversion H as [|d1 b1 cell x H1 Hc Hx]; subst; [lia|].
    exfalso. inversion H1 as [|d2 b2 cell2 x2 H2 Hc2 Hx2]; subst.
    + injection Hc as <-. now apply elem_of_nil in Hx.
    + destruct b1; [simpl in Hc|discriminate].
      injection Hc as <-. now apply elem_of_nil in Hx.
Qed.

(** X11. Under a height limit [N] no node of the tree [ParseConfig]
    leaves is more than [N + 2] levels below the root, whatever the
    input and whether or not an error is returned: scopes are never
    entered beyond depth [N], a line adds its node one level below the
    current scope, and a name: value line adds the value one level below
    that. *)
Theorem height_limit_bounds_tree p d b :
  0 <= heightLimit p ->
  descends (memory (ParseConfig p)) (root (ParseConfig p)) d b ->
  Z.of_nat d <= heightLimit p + 2.
Proof.
  intros Hlim.
  destruct (ParseConfig_leaves p) as (s1 & s2 & e & Hr & Hround & ->). simpl.
  destruct (reaches_level p s1 Hlim Hr) as (_ & Hd & Hb).
  destruct (reaches_tree _ _ Hr) as [Ho Hu].
  pose proof (round_descends s1 d b (reaches_sound _ _ Hr) Ho Hu) as D.
  rewrite Hround in D. simpl in D.
  intros H. destruct (D H) as [H1|H1]; [exact (Hb _ _ H1)|lia].
Qed.

Lemma height_limit_bounds_tree_witness :
  let p := fresh (bufio_NewReader (text ["a:"; "b: c"]%string)) 1 (-1) in
  memory (ParseConfig p) !! 3%nat = Some {| name := "c"; value := [] |}
  /\ Z.of_nat 3 <= heightLimit p + 2.
Proof.
  intros p. split; [reflexivity|].
  apply (height_limit_bounds_tree p 3 3); [vm_compute; discriminate|].
  apply (descends_child _ _ 2 2%nat {| name := "b"; value := [3%nat] |});
    [|reflexivity|apply list_elem_of_here].
  apply (descends_child _ _ 1 1%nat {| name := "a"; value := [2%nat] |});
    [|reflexivity|apply list_elem_of_here].
  apply (descends_child _ _ 0 0%nat {| name := root_name; value := [1%nat] |});
    [|reflexivity|apply list_elem_of_here].
  constructor.
Defined.

(** ** The recursive parser *)

Lemma recursiveParse_S f p h c height :
  Recursive.recursiveParse (S f) p h c height =
  match Recursive.checkHeight p height with
  | Some err => Some (p, h, Some err)
  | None => Recursive.loop f p h c height
  end.
Proof. reflexivity. Qed.

Lemma loop_end f p h c height p1 e1 :
  nextLine p = (p1, e1) -> is_EOF e1 = true ->
  Recursive.loop (S f) p h c height =
  Some (p1, h, Some (if 0 <? height then unterminated (lineno p1) else io_EOF)).
Proof.
  intros N E. simpl. rewrite N, E.
  destruct e1 as [[| |]|]; try discriminate E. now destruct (0 <? height).
Qed.

Lemma loop_skip f p h c height p1 e1 :
  nextLine p = (p1, e1) -> is_EOF e1 = false -> classify (line p1) = None ->
  Recursive.loop (S f) p h c height = Recursive.loop f p1 h c height.
Proof. intros N E C. simpl. now rewrite N, E, C. Qed.

Lemma loop_close f p h c height p1 e1 k :
  nextLine p = (p1, e1) -> is_EOF e1 = false -> classify (line p1) = Some k ->
  is_close k = true ->
  Recursive.loop (S f) p h c height = Some (p1, h ++ [blank], None).
Proof.
  intros N E C [H1 H2]%andb_true_iff. simpl. rewrite N, E, C. unfold alloc.
  now rewrite H1, H2.
Qed.

Lemma loop_open f p h c height p1 e1 k :
  nextLine p = (p1, e1) -> is_EOF e1 = false -> classify (line p1) = Some k ->
  is_open k = true ->
  Recursive.loop (S f) p h c height =
  match Recursive.recursiveParse f p1
          (setName (addValue (h ++ [blank]) c (length h)) (length h) (span (line p1) k))
          (length h) (height + 1) with
  | None => None
  | Some (p2, h2, Some err) => Some (p2, h2, Some err)
  | Some (p2, h2, None) => Recursive.loop f p2 h2 c height
  end.
Proof.
  intros N E C [H1 H2%negb_true_iff]%andb_true_iff. cbn [Recursive.loop].
  rewrite N, E, C. unfold alloc. rewrite H1, H2. reflexivity.
Qed.

Lemma loop_pair f p h c height p1 e1 k :
  nextLine p = (p1, e1) -> is_EOF e1 = false -> classify (line p1) = Some k ->
  is_pair k = true ->
  Recursive.loop (S f) p h c height =
  Recursive.loop f p1
    (addValue
       (addValue
          (setName (h ++ [blank]) (length h)
             (string_of_list_byte (slice (line p1) (start k) (nvPairNameEnd k)))
           ++ [ {| name := string_of_list_byte
                             (slice (line p1) (nvPairNameEnd k + 2) (end_ k));
                   value := [] |} ])
          (length h) (S (length h)))
       c (length h))
    c height.
Proof.
  intros N E C [H1%negb_true_iff H2]%andb_true_iff. cbn [Recursive.loop].
  rewrite N, E, C. unfold alloc. rewrite H1, H2.
  unfold setName. rewrite length_alter, length_app. simpl.
  replace (length h + 1)%nat with (S (length h)) by lia. reflexivity.
Qed.

Lemma loop_leaf f p h c height p1 e1 k :
  nextLine p = (p1, e1) -> is_EOF e1 = false -> classify (line p1) = Some k ->
  is_leaf k = true ->
  Recursive.loop (S f) p h c height =
  Recursive.loop f p1
    (addValue (setName (h ++ [blank]) (length h) (span (line p1) k)) c (length h))
    c height.
Proof.
  intros N E C [H1%negb_true_iff H2]%andb_true_iff. cbn [Recursive.loop].
  rewrite N, E, C. unfold alloc. rewrite H1.
  replace (negb (nvPairNameEnd k =? -1)) with false by now rewrite H2.
  reflexivity.
Qed.

Lemma recursive_checkHeight_error p h e :
  Recursive.checkHeight p h = Some e ->
  e = too_high (heightLimit p) (lineno p) /\ heightLimit p <> -1 /\ heightLimit p <= h.
Proof.
  unfold Recursive.checkHeight.
  destruct (heightLimit p =? -1) eqn:E1; [discriminate|]. simpl.
  destruct (heightLimit p <=? h) eqn:E2; [|discriminate].
  intros [= <-]. apply Z.eqb_neq in E1. apply Z.leb_le in E2. auto.
Qed.

Lemma nextLine_more_pending rest p p' e :
  pending (content p) = rest ->
  nextLine_more rest p = (p', e) ->
  (length (pending (content p')) <= length rest)%nat.
Proof.
  revert p. induction rest as [|[tline prefix] rest IH]; intros p Hp; simpl.
  - destruct (failure (content p)); [intros [= <- _]; rewrite Hp; simpl; lia|].
    destruct (checkSize _); intros [= <- _]; simpl; rewrite Hp; simpl; lia.
  - destruct (checkSize _); [intros [= <- _]; simpl; lia|].
    destruct prefix.
    + intros H. apply IH in H; [lia|reflexivity].
    + intros [= <- _]. simpl. lia.
Qed.

(** A call of [nextLine] on a reader that ends with [io.EOF] takes
    something off the reader unless it returns [io.EOF]. *)
Lemma nextLine_progress p p' e :
  failure (content p) = None ->
  nextLine p = (p', e) -> is_EOF e = false ->
  (length (pending (content p')) < length (pending (content p)))%nat.
Proof.
  intros F. unfold nextLine, ReadLine, stream_end. rewrite F.
  destruct (pending (content p)) as [|[l prefix] rest]; [intros [= <- <-]; discriminate|].
  simpl. destruct (checkSize _); [intros [= <- _]; simpl; lia|].
  destruct prefix.
  - intros H _. apply nextLine_more_pending in H; [simpl in *; lia|reflexivity].
  - intros [= <- _]. simpl. lia.
Qed.

Lemma is_EOF_true e : is_EOF e = true -> e = Some io_EOF.
Proof. destruct e as [[| |]|]; (discriminate || reflexivity). Qed.

(** On a reader that ends with [io.EOF] the loop of the recursive parser
    returns, with one of four results, none of them the size error. *)
Lemma loop_returns fuel :
  forall p h c height,
    failure (content p) = None ->
    (2 * length (pending (content p)) + 1 <= fuel)%nat ->
    exists p' h' res,
      Recursive.loop fuel p h c height = Some (p', h', res)
      /\ failure (content p') = None
      /\ (length (pending (content p')) <= length (pending (content p)))%nat
      /\ heightLimit p' = heightLimit p
      /\ (res = None \/ res = Some io_EOF
          \/ res = Some (unterminated (lineno p'))
          \/ res = Some (too_high (heightLimit p) (lineno p'))).
Proof.
  induction fuel as [fuel IH] using lt_wf_ind. intros p h c height F Hf.
  destruct fuel as [|f]; [lia|].
  destruct (nextLine p) as [p1 e1] eqn:N.
  pose proof (nextLine_failure _ _ _ N) as F1. rewrite F in F1.
  destruct (nextLine_limits _ _ _ N) as [HL1 _].
  destruct (is_EOF e1) eqn:E.
  - rewrite (loop_end _ _ _ _ _ _ _ N E).
    apply is_EOF_true in E as ->. destruct (nextLine_EOF _ _ N) as (Hp & Hp1 & _).
    eexists _, _, _. split; [reflexivity|]. split; [exact F1|].
    split; [rewrite Hp, Hp1; lia|]. split; [exact HL1|].
    destruct (0 <? height); auto.
  - pose proof (nextLine_progress _ _ _ F N E) as Hp.
    assert (forall hh,
               exists p' h' res,
                 Recursive.loop f p1 hh c height = Some (p', h', res)
                 /\ failure (content p') = None
                 /\ (length (pending (content p')) <= length (pending (content p)))%nat
                 /\ heightLimit p' = heightLimit p
                 /\ (res = None \/ res = Some io_EOF
                     \/ res = Some (unterminated (lineno p'))
                     \/ res = Some (too_high (heightLimit p) (lineno p')))) as Hnext.
    { intros hh.
      destruct (IH f ltac:(lia) p1 hh c height F1 ltac:(lia))
        as (p2 & h2 & res & Hl & F2 & Hp2 & HL2 & K).
      exists p2, h2, res. rewrite HL1 in *. repeat split; auto; lia. }
    destruct (classify (line p1)) as [k|] eqn:C;
      [|rewrite (loop_skip _ _ _ _ _ _ _ N E C); apply Hnext].
    destruct (scan_cases k) as [H|[H|[H|H]]].
    + rewrite (loop_close _ _ _ _ _ _ _ _ N E C H).
      eexists _, _, _. split; [reflexivity|]. repeat split; auto; lia.
    + rewrite (loop_open _ _ _ _ _ _ _ _ N E C H).
      destruct f as [|f']; [lia|]. rewrite recursiveParse_S.
      destruct (Recursive.checkHeight p1 (height + 1)) as [e|] eqn:CH.
      * apply recursive_checkHeight_error in CH as (-> & _).
        eexists _, _, _. split; [reflexivity|]. rewrite HL1.
        repeat split; auto; lia.
      * match goal with
        | |- context [Recursive.loop f' p1 ?hh ?cc ?ht] =>
            destruct (IH f' ltac:(lia) p1 hh cc ht F1 ltac:(lia))
            as (p2 & h2 & res & -> & F2 & Hp2 & HL2 & K)
        end.
        destruct res as [e|].
        -- exists p2, h2, (Some e). split; [reflexivity|]. rewrite HL1 in *.
           repeat split; auto; lia.
        -- destruct (IH (S f') ltac:(lia) p2 h2 c height F2 ltac:(lia))
             as (p3 & h3 & res & -> & F3 & Hp3 & HL3 & K3).
           exists p3, h3, res. split; [reflexivity|]. rewrite HL2, HL1 in *.
           repeat split; auto; lia.
    + rewrite (loop_pair _ _ _ _ _ _ _ _ N E C H). apply Hnext.
    + rewrite (loop_leaf _ _ _ _ _ _ _ _ N E C H). apply Hnext.
Qed.

(** More fuel changes no result. *)
Lemma more_fuel f :
  (forall f' p h c height r,
      (f <= f')%nat ->
      Recursive.loop f p h c height = Some r -> Recursive.loop f' p h c height = Some r)
  /\ (forall f' p h c height r,
         (f <= f')%nat ->
         Recursive.recursiveParse f p h c height = Some r ->
         Recursive.recursiveParse f' p h c height = Some r).
Proof.
  induction f as [|f [IHl IHr]]; [split; intros; discriminate|].
  split; intros f' p h c height r Hle; (destruct f' as [|f']; [lia|]).
  - destruct (nextLine p) as [p1 e1] eqn:N. destruct (is_EOF e1) eqn:E.
    { now rewrite !(loop_end _ _ _ _ _ _ _ N E). }
    destruct (classify (line p1)) as [k|] eqn:C;
      [|rewrite !(loop_skip _ _ _ _ _ _ _ N E C); apply IHl; lia].
    destruct (scan_cases k) as [H|[H|[H|H]]].
    + now rewrite !(loop_close _ _ _ _ _ _ _ _ N E C H).
    + rewrite !(loop_open _ _ _ _ _ _ _ _ N E C H).
      destruct (Recursive.recursiveParse f _ _ _ _) as [[[p2 h2] [e|]]|] eqn:R;
        [| |discriminate]; rewrite (IHr f' _ _ _ _ _ ltac:(lia) R); [auto|apply IHl; lia].
    + rewrite !(loop_pair _ _ _ _ _ _ _ _ N E C H). apply IHl. lia.
    + rewrite !(loop_leaf _ _ _ _ _ _ _ _ N E C H). apply IHl. lia.
  - rewrite !recursiveParse_S.
    destruct (Recursive.checkHeight p height); [auto|apply IHl; lia].
Qed.

Lemma nextLine_more_set_heightLimit x rest p :
  nextLine_more rest (set_heightLimit x p)
  = (set_heightLimit x (fst (nextLine_more rest p)), snd (nextLine_more rest p)).
Proof.
  revert p. induction rest as [|[tline prefix] rest IH]; intros p; simpl.
  - destruct (failure (content p)); [reflexivity|].
    unfold checkSize. simpl.
    destruct (negb (sizeLimit p =? -1)); [|reflexivity].
    destruct (sizeLimit p <=? _); reflexivity.
  - unfold checkSize. simpl.
    destruct (negb (sizeLimit p =? -1)); [destruct (sizeLimit p <=? _); [reflexivity|]|];
      (destruct prefix; [|reflexivity]);
      exact (IH (set_line (line p ++ tline)
                   (set_size (wrap (size p + len tline))
                      (set_content {| pending := rest; failure := failure (content p) |} p)))).
Qed.

Lemma nextLine_set_heightLimit x p :
  nextLine (set_heightLimit x p)
  = (set_heightLimit x (fst (nextLine p)), snd (nextLine p)).
Proof.
  unfold nextLine, ReadLine. simpl.
  destruct (pending (content p)) as [|[l prefix] rest]; [reflexivity|]. simpl.
  unfold checkSize. simpl.
  destruct (negb (sizeLimit p =? -1)); [destruct (sizeLimit p <=? _); [reflexivity|]|];
    (destruct prefix; [|reflexivity]);
    exact (nextLine_more_set_heightLimit x rest
             (set_size (wrap (size p + len l))
                (set_line l
                   (set_content {| pending := rest; failure := failure (content p) |} p)))).
Qed.

Lemma nextLine_shifted p p' e :
  nextLine p = (p', e) -> nextLine (shifted p) = (shifted p', e).
Proof.
  intros N. destruct (nextLine_limits _ _ _ N) as [HL _].
  unfold shifted. rewrite nextLine_set_heightLimit, N, HL. reflexivity.
Qed.

Lemma comparable_nextLine p p' e :
  comparable p -> nextLine p = (p', e) ->
  comparable p' /\ (e = None \/ e = Some io_EOF).
Proof.
  intros (Hs & F & Hh) N.
  destruct (nextLine_limits _ _ _ N) as [HL HS].
  pose proof (nextLine_failure _ _ _ N) as F1.
  split; [split; [congruence|split; [congruence|now rewrite HL]]|].
  destruct e as [[|msg|ce]|]; auto; exfalso.
  - apply nextLine_error in N as [[N|N] _]; [|discriminate].
    unfold stream_end in N. rewrite F in N. discriminate.
  - apply nextLine_over in N as [N _]. congruence.
Qed.

(** The depth the recursive parser refuses is the depth the iterative
    parser refuses under the limit less one. *)
Lemma checkHeight_shifted p ht :
  heightLimit p = -1 \/ 0 < heightLimit p ->
  match Recursive.checkHeight p ht with
  | None => checkHeight (shifted p) ht = None
  | Some e =>
      e = too_high (heightLimit p) (lineno p)
      /\ heightLimit p <> -1
      /\ checkHeight (shifted p) ht = Some (too_high (heightLimit p - 1) (lineno p))
  end.
Proof.
  intros Hh. unfold Recursive.checkHeight, checkHeight, shifted. simpl.
  destruct (heightLimit p =? -1) eqn:E1; [reflexivity|]. simpl.
  apply Z.eqb_neq in E1.
  replace (heightLimit p - 1 =? -1) with false by (symmetry; apply Z.eqb_neq; lia).
  simpl. destruct (heightLimit p <=? ht) eqn:E2.
  - apply Z.leb_le in E2.
    replace (heightLimit p - 1 <? ht) with true by (symmetry; apply Z.ltb_lt; lia).
    auto.
  - apply Z.leb_gt in E2.
    replace (heightLimit p - 1 <? ht) with false by (symmetry; apply Z.ltb_ge; lia).
    reflexivity.
Qed.

Lemma len_snoc {A} (l : list A) (a : A) : len (l ++ [a]) = len l + 1.
Proof. rewrite len_app. reflexivity. Qed.

Lemma match_snoc {A B} (l : list A) (a : A) (x y : B) :
  match l ++ [a] with [] => x | _ :: _ => y end = y.
Proof. destruct l; reflexivity. Qed.

(** The recursive parser and the iterative parser under the limit less
    one go the same way: where a call of the recursive parser returns
    [nil], the iterative parser has popped the scope of the call; where
    it returns an error, the iterative parser has left its loop with the
    same memory. *)
Lemma loop_simulated fuel :
  forall p h c height below p' h' res,
    comparable p -> height = len below ->
    Recursive.loop fuel p h c height = Some (p', h', res) ->
    comparable p'
    /\ match res with
       | None =>
           iterLoop {| parser := shifted p; heap := h; stack := below ++ [c]; c := c |}
           = match below with
             | [] => ({| parser := shifted p'; heap := h'; stack := []; c := c |}, None)
             | _ :: _ =>
                 iterLoop {| parser := shifted p'; heap := h'; stack := below;
                             c := top below |}
             end
       | Some e =>
           exists s2 e2,
             iterLoop {| parser := shifted p; heap := h; stack := below ++ [c]; c := c |}
             = (s2, Some e2)
             /\ parser s2 = shifted p' /\ heap s2 = h'
             /\ len below < len (stack s2)
             /\ (e = io_EOF /\ e2 = io_EOF /\ len (stack s2) = 1
                 \/ e = unterminated (lineno p') /\ e2 = io_EOF /\ 1 < len (stack s2)
                 \/ e = too_high (heightLimit p') (lineno p')
                    /\ e2 = too_high (heightLimit p' - 1) (lineno p')
                    /\ heightLimit p' <> -1)
       end.
Proof.
  induction fuel as [fuel IH] using lt_wf_ind.
  intros p h c height below p' h' res Hcmp Hh Hloop.
  destruct fuel as [|f]; [discriminate|].
  destruct (nextLine p) as [p1 e1] eqn:N.
  pose proof (nextLine_shifted _ _ _ N) as Ns.
  destruct (comparable_nextLine _ _ _ Hcmp N) as [Hcmp1 He1].
  set (s := {| parser := shifted p; heap := h; stack := below ++ [c]; c := c |}).
  rewrite (iterLoop_round s).
  assert (0 <= len below) as Hnn by apply len_nonneg.
  destruct (is_EOF e1) eqn:E.
  - rewrite (loop_end _ _ _ _ _ _ _ N E) in Hloop. injection Hloop as <- <- <-.
    apply is_EOF_true in E as ->.
    rewrite (round_stop s _ _ Ns).
    split; [exact Hcmp1|].
    exists (set_parser (shifted p1) s), io_EOF.
    split; [reflexivity|]. split; [reflexivity|]. split; [reflexivity|].
    simpl. rewrite len_snoc.
    split; [lia|]. destruct (0 <? height) eqn:Hz.
    + apply Z.ltb_lt in Hz. right. left. repeat split. lia.
    + apply Z.ltb_ge in Hz. left. repeat split. lia.
  - destruct He1 as [-> | ->]; [|discriminate].
    rewrite (round_next s _ Ns). unfold body. simpl.
    destruct (classify (line p1)) as [k|] eqn:C.
    2:{ rewrite (loop_skip _ _ _ _ _ _ _ N E C) in Hloop.
        exact (IH f ltac:(lia) p1 h c height below p' h' res Hcmp1 Hh Hloop). }
    destruct (scan_cases k) as [H|[H|[H|H]]].
    + rewrite (loop_close _ _ _ _ _ _ _ _ N E C H) in Hloop. injection Hloop as <- <- <-.
      split; [exact Hcmp1|].
      rewrite (build_close _ _ H). simpl. rewrite removelast_last.
      destruct below as [|b below]; [reflexivity|].
      unfold len. simpl. reflexivity.
    + rewrite (loop_open _ _ _ _ _ _ _ _ N E C H) in Hloop.
      rewrite (build_open _ _ H). simpl.
      destruct f as [|f']; [discriminate|]. rewrite recursiveParse_S in Hloop.
      replace (len ((below ++ [c]) ++ [length h]) - 1) with (height + 1)
        by (rewrite !len_snoc; lia).
      pose proof (checkHeight_shifted p1 (height + 1) (proj2 (proj2 Hcmp1))) as CH.
      destruct (Recursive.checkHeight p1 (height + 1)) as [e|].
      * destruct CH as (-> & Hne & ->). injection Hloop as <- <- <-.
        split; [exact Hcmp1|].
        eexists _, _. split; [reflexivity|]. split; [reflexivity|]. split; [reflexivity|].
        simpl. rewrite !len_snoc. split; [lia|].
        right. right. auto.
      * rewrite CH.
        destruct (Recursive.loop f' p1 _ (length h) (height + 1))
          as [[[p2 h2] res2]|] eqn:L2; [|discriminate].
        destruct (IH f' ltac:(lia) p1 _ (length h) (height + 1) (below ++ [c]) p2 h2 res2
                    Hcmp1 ltac:(rewrite len_snoc; lia) L2)
          as [Hcmp2 Hsim].
        destruct res2 as [e|].
        -- injection Hloop as <- <- <-. split; [exact Hcmp2|].
           destruct Hsim as (s2 & e2 & Hit & Hp2 & Hh2 & Hlen & Hag).
           exists s2, e2. split; [exact Hit|]. split; [exact Hp2|]. split; [exact Hh2|].
           rewrite len_snoc in Hlen.
           split; [lia|]. destruct Hag as [Hag|[Hag|Hag]]; [lia|auto|auto].
        -- rewrite match_snoc, top_snoc in Hsim.
           destruct (IH (S f') ltac:(lia) p2 h2 c height below p' h' res Hcmp2 Hh Hloop)
             as [Hcmp3 Hsim3].
           split; [exact Hcmp3|].
           unfold pushed. simpl. rewrite Hsim. exact Hsim3.
    + rewrite (loop_pair _ _ _ _ _ _ _ _ N E C H) in Hloop.
      rewrite (build_pair _ _ H). simpl.
      exact (IH f ltac:(lia) p1 _ c height below p' h' res Hcmp1 Hh Hloop).
    + rewrite (loop_leaf _ _ _ _ _ _ _ _ N E C H) in Hloop.
      rewrite (build_leaf _ _ H). simpl.
      exact (IH f ltac:(lia) p1 _ c height below p' h' res Hcmp1 Hh Hloop).
Qed.

Lemma recursive_checkHeight_root p :
  heightLimit p = -1 \/ 0 < heightLimit p -> Recursive.checkHeight p 0 = None.
Proof.
  intros Hh. destruct (Recursive.checkHeight p 0) as [e|] eqn:CH; [|reflexivity].
  apply recursive_checkHeight_error in CH as (_ & H1 & H2). lia.
Qed.

Lemma recursive_ParseConfig_simulated p fuel :
  comparable p -> (enough p <= fuel)%nat ->
  exists r,
    Recursive.ParseConfig fuel p = Some r
    /\ root r = root (ParseConfig (shifted p))
    /\ memory r = memory (ParseConfig (shifted p))
    /\ after (ParseConfig (shifted p)) = shifted (after r)
    /\ heightLimit (after r) = heightLimit p
    /\ (err r = err (ParseConfig (shifted p))
        \/ heightLimit p <> -1
           /\ exists n,
               err r = Some (too_high (heightLimit p) n)
               /\ err (ParseConfig (shifted p)) = Some (too_high (heightLimit p - 1) n)).
Proof.
  intros Hcmp Hfuel. unfold enough in Hfuel.
  destruct fuel as [|f]; [lia|].
  unfold Recursive.ParseConfig, alloc. rewrite recursiveParse_S.
  rewrite (recursive_checkHeight_root p (proj2 (proj2 Hcmp))). simpl.
  destruct (loop_returns f p [ {| name := root_name; value := [] |} ] 0%nat 0
              (proj1 (proj2 Hcmp)) ltac:(lia))
    as (p' & h' & res & Hloop & _ & _ & HL & _).
  rewrite Hloop.
  destruct (loop_simulated f p _ 0%nat 0 [] p' h' res Hcmp eq_refl Hloop) as [_ Hsim].
  rewrite ParseConfig_entry. unfold entry. simpl in Hsim.
  eexists. split; [reflexivity|]. simpl.
  destruct res as [e|].
  - destruct Hsim as (s2 & e2 & -> & Hp2 & Hh2 & Hlen & Hag). simpl.
    rewrite Hp2, Hh2. repeat split; auto.
    unfold iterParse_result. rewrite Hp2.
    destruct Hag as [(-> & -> & Hl)|[(-> & -> & Hl)|(-> & -> & Hne)]]; simpl.
    + left. replace (1 <? len (stack s2)) with false by (symmetry; apply Z.ltb_ge; lia).
      replace (len (stack s2) =? 0) with false by (symmetry; apply Z.eqb_neq; lia).
      reflexivity.
    + left. replace (1 <? len (stack s2)) with true by (symmetry; apply Z.ltb_lt; lia).
      reflexivity.
    + replace (len (stack s2) =? 0) with false
        by (symmetry; apply Z.eqb_neq; unfold len in *; simpl in *; lia).
      right. rewrite HL in *. eauto.
  - rewrite Hsim. simpl. repeat split; auto.
Qed.

Lemma shifted_unlimited p : heightLimit p = -1 -> shifted p = p.
Proof. intros H. unfold shifted. rewrite H. destruct p. simpl in *. now subst. Qed.

(** X12. Without limits and on a reader that ends with [io.EOF], the
    recursive parser of [treetextconf.go] returns, given fuel for two
    steps a line, exactly what the iterative parser returns: the same
    root, error and memory, and the same parser state. *)
Theorem recursive_agrees_unlimited p fuel :
  sizeLimit p = -1 -> heightLimit p = -1 -> failure (content p) = None ->
  (enough p <= fuel)%nat ->
  Recursive.ParseConfig fuel p = Some (ParseConfig p).
Proof.
  intros Hs Hh F Hfuel.
  destruct (recursive_ParseConfig_simulated p fuel) as (r & -> & H1 & H2 & H3 & H4 & H5);
    [split; [exact Hs|split; [exact F|now left]]|exact Hfuel|].
  rewrite (shifted_unlimited p Hh) in *.
  rewrite (shifted_unlimited (after r)) in H3 by congruence.
  destruct H5 as [H5|[H5 _]]; [|congruence].
  f_equal. destruct r, (ParseConfig p). simpl in *. congruence.
Qed.

Lemma recursive_agrees_unlimited_witness :
  let p := fresh (bufio_NewReader
                    (text ["a:"; " b: c"; " 'd:"; "  e"; " :"; ":"; "f"; ":"; "g"]%string))
             (-1) (-1) in
  Recursive.ParseConfig (enough p) p = Some (ParseConfig p)
  /\ err (ParseConfig p)
     = Some (config_error (ConfigError.mk terminators_message 8 0)).
Proof.
  intros p. split; [|reflexivity].
  apply (recursive_agrees_unlimited p (enough p)); [reflexivity..|apply le_n].
Defined.

(** X13. The recursive parser under a height limit [N] and the
    iterative parser under the limit [N - 1] do the same: without a size
    limit and on a reader that ends with [io.EOF] they leave the same
    tree, read the same lines and return the same error, except that the
    text of the height error names the limit of each. *)
Theorem recursive_limit_one_more p fuel :
  sizeLimit p = -1 -> failure (content p) = None -> 0 < heightLimit p ->
  (enough p <= fuel)%nat ->
  exists r,
    Recursive.ParseConfig fuel p = Some r
    /\ root r = root (ParseConfig (set_heightLimit (heightLimit p - 1) p))
    /\ memory r = memory (ParseConfig (set_heightLimit (heightLimit p - 1) p))
    /\ after (ParseConfig (set_heightLimit (heightLimit p - 1) p))
       = set_heightLimit (heightLimit p - 1) (after r)
    /\ (err r = err (ParseConfig (set_heightLimit (heightLimit p - 1) p))
        \/ exists n,
            err r = Some (too_high (heightLimit p) n)
            /\ err (ParseConfig (set_heightLimit (heightLimit p - 1) p))
               = Some (too_high (heightLimit p - 1) n)).
Proof.
  intros Hs F Hh Hfuel.
  destruct (recursive_ParseConfig_simulated p fuel) as (r & Hr & H1 & H2 & H3 & H4 & H5);
    [split; [exact Hs|split; [exact F|now right]]|exact Hfuel|].
  assert (shifted p = set_heightLimit (heightLimit p - 1) p) as Hsh.
  { unfold shifted. replace (heightLimit p =? -1) with false; [reflexivity|].
    symmetry. apply Z.eqb_neq. lia. }
  assert (shifted (after r) = set_heightLimit (heightLimit p - 1) (after r)) as Hsh'.
  { unfold shifted. rewrite H4. replace (heightLimit p =? -1) with false; [reflexivity|].
    symmetry. apply Z.eqb_neq. lia. }
  rewrite Hsh in *. rewrite Hsh' in H3.
  exists r. repeat split; auto. destruct H5 as [H5|[_ H5]]; auto.
Qed.

Lemma recursive_limit_one_more_witness :
  let p := fresh (bufio_NewReader (text ["a:"; "b:"; "c"; ":"; ":"]%string)) 2 (-1) in
  exists r,
    Recursive.ParseConfig (enough p) p = Some r
    /\ root r = root (ParseConfig (set_heightLimit 1 p))
    /\ memory r = memory (ParseConfig (set_heightLimit 1 p))
    /\ after (ParseConfig (set_heightLimit 1 p)) = set_heightLimit 1 (after r)
    /\ (err r = err (ParseConfig (set_heightLimit 1 p))
        \/ exists n,
            err r = Some (too_high 2 n)
            /\ err (ParseConfig (set_heightLimit 1 p)) = Some (too_high 1 n)).
Proof.
  intros p.
  apply (recursive_limit_one_more p (enough p)); [reflexivity|reflexivity|reflexivity|apply le_n].
Defined.

Lemma size_message_other limit :
  size_message limit <> unterminated_message
  /\ size_message limit <> terminators_message
  /\ forall l, size_message limit <> height_message l.
Proof. repeat split; try intros l; discriminate. Qed.

(** X14. The recursive parser never reports the size limit.  Its loop
    ends on [io.EOF] only, so the size error of [nextLine] is dropped and
    the parse goes on with what was read.  On a reader that ends with
    [io.EOF] it returns, the same with any more fuel, and its error is
    none, or the unterminated group, the close at the root or the height
    limit. *)
Theorem recursive_ignores_size_limit p :
  failure (content p) = None ->
  exists r,
    (forall fuel, (enough p <= fuel)%nat -> Recursive.ParseConfig fuel p = Some r)
    /\ match err r with
       | None => True
       | Some (config_error e) =>
           (ConfigError.context e = unterminated_message
            \/ ConfigError.context e = terminators_message
            \/ ConfigError.context e = height_message (heightLimit p))
           /\ forall limit, ConfigError.context e <> size_message limit
       | Some _ => False
       end.
Proof.
  intros F.
  assert (exists p' h' res,
             Recursive.recursiveParse (enough p) p
               [ {| name := root_name; value := [] |} ] 0%nat 0 = Some (p', h', res)
             /\ (res = None \/ res = Some io_EOF
                 \/ res = Some (unterminated (lineno p'))
                 \/ exists n, res = Some (too_high (heightLimit p) n)))
    as (p' & h' & res & Hrec & K).
  { unfold enough. replace (2 * length (pending (content p)) + 2)%nat
      with (S (2 * length (pending (content p)) + 1)) by lia.
    rewrite recursiveParse_S.
    destruct (Recursive.checkHeight p 0) as [e|] eqn:CH.
    - apply recursive_checkHeight_error in CH as (-> & _).
      eexists _, _, _. split; [reflexivity|]. eauto 10.
    - destruct (loop_returns _ p [ {| name := root_name; value := [] |} ] 0%nat 0 F (le_n _))
        as (p' & h' & res & -> & _ & _ & _ & K).
      exists p', h', res. split; [reflexivity|]. intuition eauto. }
  eexists. split.
  - intros fuel Hfuel. unfold Recursive.ParseConfig, alloc. cbn [app length].
    rewrite (proj2 (more_fuel (enough p)) fuel _ _ _ _ _ Hfuel Hrec). reflexivity.
  - simpl. pose proof size_message_other as Hm.
    destruct K as [->|[->|[->|[n ->]]]]; simpl; try exact I;
      (split; [auto|]); intros limit Heq; destruct (Hm limit) as (M1 & M2 & M3);
      [apply M2|apply M1|apply (M3 (heightLimit p))]; now rewrite Heq.
Qed.

Lemma recursive_ignores_size_limit_witness :
  let p := fresh (bufio_NewReader (text ["a: b"; "c: d"]%string)) (-1) 6 in
  err (ParseConfig p)
  = Some (config_error (ConfigError.mk (size_message 6) 1 0))
  /\ option_map err (Recursive.ParseConfig (enough p) p) = Some None
  /\ exists r,
      (forall fuel, (enough p <= fuel)%nat -> Recursive.ParseConfig fuel p = Some r)
      /\ match err r with
         | None => True
         | Some (config_error e) =>
             (ConfigError.context e = unterminated_message
              \/ ConfigError.context e = terminators_message
              \/ ConfigError.context e = height_message (heightLimit p))
             /\ forall limit, ConfigError.context e <> size_message limit
         | Some _ => False
         end.
Proof.
  intros p. split; [reflexivity|]. split; [reflexivity|].
  apply (recursive_ignores_size_limit p). reflexivity.
Defined.

(** ** The kinds of lines *)

Lemma blanks_split l :
  exists ws rest,
    l = ws ++ rest /\ forallb is_blank ws = true
    /\ match rest with [] => True | b :: _ => is_blank b = false end.
Proof.
  induction l as [|a l (ws & rest & -> & Hws & Hrest)]; [now exists [], []|].
  destruct (is_blank a) eqn:E.
  - exists (a :: ws), rest. simpl. now rewrite E, Hws.
  - now exists [], (a :: ws ++ rest).
Qed.

Lemma classify_close ws :
  forallb is_blank ws = true ->
  exists k, classify (ws ++ [byte_colon]) = Some k /\ is_close k = true.
Proof.
  intros Hws. rewrite classify_shape by (assumption || reflexivity).
  unfold classified. simpl. eexists. split; [reflexivity|].
  unfold is_close. simpl.
  rewrite len_app. change (len [byte_colon]) with 1.
  replace (len ws + 1 - 1) with (len ws) by lia. now rewrite Z.eqb_refl.
Qed.

Lemma classify_value ws content escaped closed :
  forallb is_blank ws = true ->
  (escaped = false -> plain_content content) ->
  (closed = false -> open_ended content) ->
  exists k,
    classify (content_line ws content escaped closed) = Some k
    /\ (is_pair k = true \/ is_leaf k = true).
Proof.
  intros Hws Hp Ho.
  destruct (classify_content ws content escaped closed Hws Hp Ho)
    as (k & Hk & _ & _ & He & _).
  exists k. split; [exact Hk|]. unfold is_pair, is_leaf. rewrite He. simpl.
  destruct (nvPairNameEnd k =? -1); auto.
Qed.

Lemma open_ended_snoc init z :
  z <> byte_colon -> z <> byte_quote -> open_ended (init ++ [z]).
Proof.
  intros H1 H2. unfold open_ended.
  destruct (init ++ [z]) eqn:E; [exact I|]. rewrite <- E, last_last. auto.
Qed.

(** X15. Every line is of one of five kinds, told by its shape, and the
    loop body treats it as that kind: blank (skipped); a comment, [#]
    first after the indentation (skipped); a close, [:] alone after the
    indentation; an open, ending in [:] after a content or after the
    content marker; a content line, any other, with the content marker
    before its content or not and after it or not. *)
Theorem line_kinds l :
  (forallb is_blank l = true /\ classify l = None)
  \/ (exists ws tl,
        forallb is_blank ws = true /\ l = ws ++ byte_hash :: tl /\ classify l = None)
  \/ (exists ws k,
        forallb is_blank ws = true /\ l = ws ++ [byte_colon]
        /\ classify l = Some k /\ is_close k = true)
  \/ (exists ws content escaped k,
        forallb is_blank ws = true
        /\ (escaped = false -> plain_content content)
        /\ l = open_line ws content escaped
        /\ classify l = Some k /\ is_open k = true)
  \/ (exists ws content escaped closed k,
        forallb is_blank ws = true
        /\ (escaped = false -> plain_content content)
        /\ (closed = false -> open_ended content)
        /\ l = content_line ws content escaped closed
        /\ classify l = Some k /\ (is_pair k = true \/ is_leaf k = true)).
Proof.
  destruct (blanks_split l) as (ws & rest & -> & Hws & Hrest).
  destruct rest as [|b tl].
  { left. rewrite app_nil_r. split; [exact Hws|now apply classify_blank]. }
  right.
  destruct (Byte.eqb b byte_hash) eqn:Eh.
  { apply byte_eqb_eq in Eh as ->. left. exists ws, tl.
    split; [exact Hws|]. split; [reflexivity|now apply classify_comment]. }
  right.
  assert (b <> byte_hash) as Hh by (intros ->; discriminate Eh).
  assert (forall content escaped,
             (escaped = false -> plain_content content) ->
             ws ++ b :: tl = open_line ws content escaped ->
             exists ws' content' escaped' k,
               forallb is_blank ws' = true
               /\ (escaped' = false -> plain_content content')
               /\ ws ++ b :: tl = open_line ws' content' escaped'
               /\ classify (ws ++ b :: tl) = Some k /\ is_open k = true) as Hopen.
  { intros content escaped Hp Hl.
    destruct (classify_open ws content escaped Hws Hp) as (k & Hk & Hk' & _).
    exists ws, content, escaped, k. rewrite Hl. auto. }
  assert (forall content escaped closed,
             (escaped = false -> plain_content content) ->
             (closed = false -> open_ended content) ->
             ws ++ b :: tl = content_line ws content escaped closed ->
             exists ws' content' escaped' closed' k,
               forallb is_blank ws' = true
               /\ (escaped' = false -> plain_content content')
               /\ (closed' = false -> open_ended content')
               /\ ws ++ b :: tl = content_line ws' content' escaped' closed'
               /\ classify (ws ++ b :: tl) = Some k
               /\ (is_pair k = true \/ is_leaf k = true)) as Hvalue.
  { intros content escaped closed Hp Ho Hl.
    destruct (classify_value ws content escaped closed Hws Hp Ho) as (k & Hk & Hk').
    exists ws, content, escaped, closed, k. rewrite Hl. auto 10. }
  destruct (Byte.eqb b byte_quote) eqn:Eq.
  - apply byte_eqb_eq in Eq as ->.
    destruct tl as [|z init _] using rev_ind.
    { right. right. apply (Hvalue [] true false); [discriminate|reflexivity|].
      unfold content_line. now rewrite app_nil_r. }
    destruct (Byte.eqb z byte_colon) eqn:Ec.
    { apply byte_eqb_eq in Ec as ->. right. left.
      apply (Hopen init true); [discriminate|reflexivity]. }
    right. right.
    assert (z <> byte_colon) as Hc by (intros ->; discriminate Ec).
    destruct (Byte.eqb z byte_quote) eqn:Ez.
    + apply byte_eqb_eq in Ez as ->.
      apply (Hvalue init true true); [discriminate|discriminate|reflexivity].
    + assert (z <> byte_quote) as Hz by (intros ->; discriminate Ez).
      apply (Hvalue (init ++ [z]) true false);
        [discriminate|intros _; now apply open_ended_snoc|].
      unfold content_line. now rewrite app_nil_r.
  - assert (b <> byte_quote) as Hq by (intros ->; discriminate Eq).
    assert (forall rest', plain_content (b :: rest')) as Hplain by (intros rest'; simpl; auto).
    destruct tl as [|z init _] using rev_ind.
    { destruct (Byte.eqb b byte_colon) eqn:Ec.
      - apply byte_eqb_eq in Ec as ->. left.
        destruct (classify_close ws Hws) as (k & Hk & Hk').
        exists ws, k. auto.
      - right. right.
        assert (b <> byte_colon) as Hc by (intros ->; discriminate Ec).
        apply (Hvalue [b] false false);
          [intros _; apply Hplain|intros _; simpl; auto|].
        unfold content_line. now rewrite app_nil_r. }
    right.
    destruct (Byte.eqb z byte_colon) eqn:Ec.
    { apply byte_eqb_eq in Ec as ->. left.
      apply (Hopen (b :: init) false); [intros _; apply Hplain|reflexivity]. }
    right.
    assert (z <> byte_colon) as Hc by (intros ->; discriminate Ec).
    destruct (Byte.eqb z byte_quote) eqn:Ez.
    + apply byte_eqb_eq in Ez as ->.
      apply (Hvalue (b :: init) false true); [intros _; apply Hplain|discriminate|reflexivity].
    + assert (z <> byte_quote) as Hz by (intros ->; discriminate Ez).
      apply (Hvalue (b :: init ++ [z]) false false); [intros _; apply Hplain| |].
      * intros _. change (b :: init ++ [z]) with ((b :: init) ++ [z]).
        now apply open_ended_snoc.
      * unfold content_line. now rewrite app_nil_r.
Qed.

(** ** Nodes are made in the order [DebugPrintConfig] prints them *)

Lemma descends_alloc_from h x d z :
  descends (h ++ [blank]) x d z -> descends h x d z.
Proof.
  induction 1 as [|d b cell y _ IH Hb Hy]; [constructor|].
  apply lookup_snoc_Some in Hb as [[_ Hb]|[_ <-]].
  - exact (descends_child _ _ _ _ cell y IH Hb Hy).
  - simpl in Hy. now apply elem_of_nil in Hy.
Qed.

(** A path to an old node of the extended memory is a path of the old
    memory. *)
Lemma descends_old h h' c x d z :
  extends h h' c -> (z < length h)%nat ->
  descends h' x d z -> descends h x d z.
Proof.
  intros He Hz H. induction H as [|d b cell' y H IH Hb Hy]; [constructor|].
  apply list_elem_of_lookup in Hy as [i Hi].
  destruct (extends_entry _ _ _ _ _ _ _ He Hb Hi)
    as [(cell & H1 & H2)|[(_ & -> & _)|(_ & _ & Hy)]]; [|lia|lia].
  eapply descends_child; [|exact H1|apply list_elem_of_lookup; eauto].
  apply IH. now apply lookup_lt_Some in H1.
Qed.

(** A path from an old node to a new one goes through [c]. *)
Lemma descends_new h h' c x d z :
  extends h h' c -> ordered h ->
  (x < length h)%nat -> (length h <= z)%nat ->
  descends h' x d z -> exists d', descends h x d' c.
Proof.
  intros He Ho Hx Hz H. induction H as [|d b cell' y H IH Hb Hy]; [lia|].
  apply list_elem_of_lookup in Hy as [i Hi].
  destruct (extends_entry _ _ _ _ _ _ _ He Hb Hi)
    as [(cell & H1 & H2)|[(-> & _ & cell & H1 & _)|(-> & _ & _)]].
  - pose proof (Ho _ _ _ _ H1 H2). lia.
  - exists d. apply (descends_old _ _ _ _ _ _ He); [|exact H].
    now apply lookup_lt_Some in H1.
  - apply IH. lia.
Qed.

Lemma siblings_extends h h' c x y :
  extends h h' c -> siblings h' x y ->
  siblings h x y
  \/ (y = length h /\ exists cell i, h !! c = Some cell /\ value cell !! i = Some x).
Proof.
  intros He (a & cell' & i & j & Ha & Hi & Hj & Hlt).
  destruct (extends_entry _ _ _ _ _ _ _ He Ha Hi)
    as [(ca & A1 & A2)|[(-> & -> & ca & A1 & ->)|(-> & -> & A)]];
    destruct (extends_entry _ _ _ _ _ _ _ He Ha Hj)
      as [(cb & B1 & B2)|[(Hc & -> & cb & B1 & Hj')|(Hn & Hj' & B)]];
    try lia.
  - left. exists a, ca, i, j. rewrite B1 in A1. injection A1 as <-. auto.
  - right. split; [reflexivity|]. subst a. eauto.
  - rewrite B1 in A1. injection A1 as <-. apply lookup_lt_Some in B2. lia.
  - rewrite B1 in A1. injection A1 as <-. lia.
  - apply lookup_lt_Some in B1. lia.
  - apply lookup_lt_Some in B1. lia.
Qed.

Lemma siblings_alloc h x y : siblings (h ++ [blank]) x y -> siblings h x y.
Proof.
  intros (a & cell & i & j & Ha & Hi & Hj & Hlt).
  apply lookup_snoc_Some in Ha as [[_ Ha]|[_ <-]]; [|discriminate].
  exists a, cell, i, j. auto.
Qed.

Lemma siblings_old h x y : ordered h -> siblings h x y -> (x < length h)%nat.
Proof.
  intros Ho (a & cell & i & j & Ha & Hi & _). pose proof (Ho _ _ _ _ Ha Hi). lia.
Qed.

(** No node is below one of its children. *)
Lemma child_not_above h c cell i x d :
  ordered h -> h !! c = Some cell -> value cell !! i = Some x -> ~ descends h x d c.
Proof.
  intros Ho Hc Hi Hd. pose proof (Ho _ _ _ _ Hc Hi).
  pose proof (ordered_descends _ _ _ _ Ho Hd). lia.
Qed.

Lemma in_order_extends h h' c :
  ordered h -> in_order h -> rightmost h c -> extends h h' c -> in_order h'.
Proof.
  intros Ho Hi Hr He x y d z Hsib Hd.
  destruct (le_lt_dec (length h) z) as [Hnew|Hold].
  - exfalso. destruct (siblings_extends _ _ _ _ _ He Hsib) as [Hs|(_ & cell & i & Hc & Hx)].
    + destruct (descends_new _ _ _ _ _ _ He Ho (siblings_old _ _ _ Ho Hs) Hnew Hd) as [d' Hd'].
      exact (Hr _ _ _ Hs Hd').
    + assert (x < length h)%nat as Hlt by (pose proof (Ho _ _ _ _ Hc Hx); lia).
      destruct (descends_new _ _ _ _ _ _ He Ho Hlt Hnew Hd) as [d' Hd'].
      exact (child_not_above _ _ _ _ _ _ Ho Hc Hx Hd').
  - pose proof (descends_old _ _ _ _ _ _ He Hold Hd) as Hd'.
    destruct (siblings_extends _ _ _ _ _ He Hsib) as [Hs|(-> & _)]; [|exact Hold].
    exact (Hi _ _ _ _ Hs Hd').
Qed.

Lemma rightmost_extends h h' c :
  ordered h -> rightmost h c -> extends h h' c -> rightmost h' c.
Proof.
  intros Ho Hr He x y d Hsib Hd.
  assert (c < length h)%nat as Hc.
  { destruct He as (_ & (cell & Hcell & _) & _). now apply lookup_lt_Some in Hcell. }
  pose proof (descends_old _ _ _ _ _ _ He Hc Hd) as Hd'.
  destruct (siblings_extends _ _ _ _ _ He Hsib) as [Hs|(_ & cell & i & Hcell & Hx)].
  - exact (Hr _ _ _ Hs Hd').
  - exact (child_not_above _ _ _ _ _ _ Ho Hcell Hx Hd').
Qed.

Lemma rightmost_push h h' c :
  ordered h -> rightmost h c -> extends h h' c -> rightmost h' (length h).
Proof.
  intros Ho Hr He x y d Hsib Hd.
  destruct (siblings_extends _ _ _ _ _ He Hsib) as [Hs|(_ & cell & i & Hc & Hx)].
  - destruct (descends_new _ _ _ _ _ _ He Ho (siblings_old _ _ _ Ho Hs) (le_n _) Hd)
      as [d' Hd'].
    exact (Hr _ _ _ Hs Hd').
  - assert (x < length h)%nat as Hlt by (pose proof (Ho _ _ _ _ Hc Hx); lia).
    destruct (descends_new _ _ _ _ _ _ He Ho Hlt (le_n _) Hd) as [d' Hd'].
    exact (child_not_above _ _ _ _ _ _ Ho Hc Hx Hd').
Qed.

Lemma in_order_alloc h : in_order h -> in_order (h ++ [blank]).
Proof.
  intros Hi x y d z Hsib%siblings_alloc Hd%descends_alloc_from.
  exact (Hi _ _ _ _ Hsib Hd).
Qed.

(** The node below the top of the stack is the parent of the top. *)
Lemma sound_parent s :
  sound s -> removelast (stack s) <> [] ->
  exists cell,
    heap s !! top (removelast (stack s)) = Some cell /\ c s ∈ value cell.
Proof.
  intros [[rest Hst] Htop _ Hlinked] Hne.
  assert (stack s <> []) as Hne' by (rewrite Hst; discriminate).
  pose proof (app_removelast_last 0%nat Hne') as Hsplit.
  rewrite <- top_last, <- Htop in Hsplit.
  set (below := removelast (stack s)) in *.
  apply (Hlinked (length below - 1)%nat).
  - rewrite Hsplit. rewrite lookup_app_l by (destruct below; [congruence|simpl; lia]).
    now apply top_lookup.
  - rewrite Hsplit.
    replace (S (length below - 1)) with (length below)
      by (destruct below; [congruence|simpl; lia]).
    now apply list_lookup_middle.
Qed.

Lemma rightmost_pop s :
  sound s -> removelast (stack s) <> [] ->
  rightmost (heap s) (c s) ->
  rightmost (heap s ++ [blank]) (top (removelast (stack s))).
Proof.
  intros Hs Hne Hr x y d Hsib%siblings_alloc Hd%descends_alloc_from.
  destruct (sound_parent s Hs Hne) as (cell & Hcell & Hin).
  exact (Hr _ _ _ Hsib (descends_child _ _ _ _ cell (c s) Hd Hcell Hin)).
Qed.

(** What every round keeps, besides [sound]. *)
Lemma build_in_order k s :
  sound s -> ordered (heap s) -> in_order (heap s) -> rightmost (heap s) (c s) ->
  in_order (heap (flow_state (build k s)))
  /\ forall s', build k s = Continue s' -> rightmost (heap s') (c s').
Proof.
  intros Hs Ho Hi Hr. pose proof (sound_c s Hs) as Hlt.
  destruct (scan_cases k) as [H|[H|[H|H]]].
  - rewrite (build_close _ _ H). simpl.
    destruct (len (removelast (stack s)) =? 0) eqn:E; simpl;
      (split; [now apply in_order_alloc|]); [discriminate|].
    intros s' [= <-]. simpl. apply rightmost_pop; [exact Hs| |exact Hr].
    intros Hnil. rewrite Hnil in E. discriminate.
  - rewrite (build_open _ _ H). pose proof (pushed_extends k s Hlt) as He.
    destruct (checkHeight _ _); simpl;
      (split; [exact (in_order_extends _ _ _ Ho Hi Hr He)|]); [discriminate|].
    intros s' [= <-]. simpl. exact (rightmost_push _ _ _ Ho Hr He).
  - rewrite (build_pair _ _ H). simpl.
    pose proof (pair_extends (heap s) (c s)
                  (string_of_list_byte
                     (slice (line (parser s)) (start k) (nvPairNameEnd k)))
                  (string_of_list_byte
                     (slice (line (parser s)) (nvPairNameEnd k + 2) (end_ k))) Hlt) as He.
    split; [exact (in_order_extends _ _ _ Ho Hi Hr He)|].
    intros s' [= <-]. simpl. exact (rightmost_extends _ _ _ Ho Hr He).
  - rewrite (build_leaf _ _ H). simpl.
    pose proof (leaf_extends (heap s) (c s) (span (line (parser s)) k) Hlt) as He.
    split; [exact (in_order_extends _ _ _ Ho Hi Hr He)|].
    intros s' [= <-]. simpl. exact (rightmost_extends _ _ _ Ho Hr He).
Qed.

Lemma round_in_order s :
  sound s -> ordered (heap s) -> in_order (heap s) -> rightmost (heap s) (c s) ->
  in_order (heap (flow_state (round s)))
  /\ forall s', round s = Continue s' -> rightmost (heap s') (c s').
Proof.
  intros Hs Ho Hi Hr. unfold round.
  destruct (nextLine (parser s)) as [p' [e|]]; [split; [exact Hi|discriminate]|].
  unfold body. simpl. destruct (classify (line p')) as [k|].
  - apply (build_in_order k (set_parser p' s));
      [now apply sound_set_parser|exact Ho|exact Hi|exact Hr].
  - split; [exact Hi|]. intros s' [= <-]. exact Hr.
Qed.

Lemma reaches_in_order p s :
  reaches (entry p) s -> in_order (heap s) /\ rightmost (heap s) (c s).
Proof.
  intros Hr.
  assert ((sound s /\ ordered (heap s) /\ unshared (heap s))
          /\ in_order (heap s) /\ rightmost (heap s) (c s)) as [_ H]; [|exact H].
  revert Hr. apply (reaches_invariant
                      (fun s => (sound s /\ ordered (heap s) /\ unshared (heap s))
                                /\ in_order (heap s) /\ rightmost (heap s) (c s))).
  - intros s1 s2 [(Hs & Ho & Hu) (Hi & Hrm)] R.
    pose proof (round_tree s1 Hs (conj Ho Hu)) as T.
    destruct (round_in_order s1 Hs Ho Hi Hrm) as [I' R'].
    rewrite R in T, I'. simpl in T, I'.
    split; [split; [exact (round_sound _ _ Hs R)|exact T]|].
    split; [exact I'|exact (R' _ R)].
  - split; [split; [apply sound_entry|exact (reaches_tree p _ (reaches_here _))]|].
    assert (forall x y, ~ siblings (heap (entry p)) x y) as Hnone.
    { intros x y (a & cell & i & j & Ha & Hi & _). simpl in Ha.
      destruct a; [|discriminate]. injection Ha as <-. discriminate. }
    split.
    + intros x y d z Hsib. now elim (Hnone x y).
    + intros x y d Hsib. now elim (Hnone x y).
Qed.

Lemma ascending_app l1 l2 :
  ascending l1 -> ascending l2 ->
  (forall x y, In x l1 -> In y l2 -> (x < y)%nat) ->
  ascending (l1 ++ l2).
Proof.
  induction l1 as [|a l1 IH]; intros H1 H2 H; [exact H2|].
  destruct H1 as [Ha H1]. simpl. split.
  - apply Forall_app. split; [exact Ha|].
    apply Forall_forall. intros y Hy. apply H; [now left|].
    now apply list_elem_of_In.
  - apply IH; [exact H1|exact H2|]. intros x y Hx Hy. apply H; [now right|exact Hy].
Qed.

Lemma descends_under h a cell y d z :
  h !! a = Some cell -> y ∈ value cell -> descends h y d z -> descends h a (S d) z.
Proof.
  intros Ha Hy. induction 1 as [|d b cell' x _ IH Hb Hx].
  - exact (descends_child _ _ _ _ cell y (descends_here _ _) Ha Hy).
  - exact (descends_child _ _ _ _ cell' x IH Hb Hx).
Qed.

Lemma DebugPrintConfig_S f h a depth :
  DebugPrintConfig (S f) h a depth =
  match h !! a with
  | None => None
  | Some cell =>
      match each (fun v => DebugPrintConfig f h v (depth + 1)) (value cell) with
      | None => None
      | Some out =>
          Some ((dashes (Z.to_nat depth) ++ name cell
                 ++ String (Ascii.ascii_of_byte byte_lf) EmptyString)%string :: out)
      end
  end.
Proof. reflexivity. Qed.

(** What [DebugPrintConfig] writes for a node of an ordered memory: the
    node, then all below it, each once and in the order of their
    addresses. *)
Lemma print_nodes h :
  ordered h -> in_order h ->
  forall fuel a d,
    (a < length h)%nat -> (length h - a <= fuel)%nat ->
    exists nodes,
      DebugPrintConfig fuel h a (Z.of_nat d) = Some (map (printed h) ((a, d) :: nodes))
      /\ ascending (a :: map fst nodes)
      /\ (forall b e, In (b, e) nodes ->
                      exists k, e = (d + S k)%nat /\ descends h a (S k) b)
      /\ (forall b e cell x,
             In (b, e) ((a, d) :: nodes) -> h !! b = Some cell -> x ∈ value cell ->
             In (x, S e) nodes).
Proof.
  intros Ho Hi. induction fuel as [|f IH]; intros a d Ha Hf; [lia|].
  destruct (lookup_lt_is_Some_2 _ _ Ha) as [cell Hcell].
  assert (forall vs pre,
             value cell = pre ++ vs ->
             exists L,
               each (fun v => DebugPrintConfig f h v (Z.of_nat d + 1)) vs
               = Some (map (printed h) L)
               /\ ascending (map fst L)
               /\ (forall b e, In (b, e) L ->
                     exists y k, In y vs /\ e = (S d + k)%nat /\ descends h y k b)
               /\ (forall y, In y vs -> In (y, S d) L)
               /\ (forall b e cell' x,
                      In (b, e) L -> h !! b = Some cell' -> x ∈ value cell' ->
                      In (x, S e) L)) as Hloop.
  { induction vs as [|v vs IHvs]; intros pre Hpre.
    { exists []. simpl. repeat split; auto; intros; contradiction. }
    assert (value cell !! length pre = Some v) as Hv
        by (rewrite Hpre; apply list_lookup_middle; reflexivity).
    pose proof (Ho _ _ _ _ Hcell Hv) as Hlt.
    destruct (IH v (S d) ltac:(lia) ltac:(lia)) as (nv & Hpv & Hav & Hdv & Hcv).
    destruct (IHvs (pre ++ [v])) as (L & HpL & HaL & HdL & HhL & HcL);
      [rewrite <- app_assoc; exact Hpre|].
    assert (forall y, In y vs -> siblings h v y) as Hsib.
    { intros y Hy. apply In_nth_error in Hy as [j Hj].
      exists a, cell, (length pre), (S (length pre + j))%nat.
      split; [exact Hcell|]. split; [exact Hv|]. split; [|lia].
      rewrite Hpre. rewrite lookup_app_r by lia.
      replace (S (length pre + j) - length pre)%nat with (S j) by lia.
      simpl. clear -Hj. revert j Hj.
      induction vs as [|w vs IHw]; intros [|j]; simpl; try discriminate; auto. }
    assert (forall b e b' e', In (b, e) ((v, S d) :: nv) -> In (b', e') L -> (b < b')%nat)
      as Hcross.
    { intros b e b' e' Hb Hb'.
      destruct (HdL _ _ Hb') as (y & k & Hy & _ & Hdy).
      pose proof (ordered_descends _ _ _ _ Ho Hdy) as Hge.
      assert (exists k', descends h v k' b) as [k' Hk'].
      { destruct Hb as [[= <- <-]|Hb]; [exists 0%nat; constructor|].
        destruct (Hdv _ _ Hb) as (k' & _ & Hk'). eauto. }
      pose proof (Hi _ _ _ _ (Hsib y Hy) Hk'). lia. }
    exists (((v, S d) :: nv) ++ L).
    split; [|split; [|split; [|split]]].
    - cbn [each]. replace (Z.of_nat d + 1) with (Z.of_nat (S d)) in * by lia.
      rewrite Hpv. fold (each (fun v0 => DebugPrintConfig f h v0 (Z.of_nat (S d)))).
      rewrite HpL. now rewrite map_app.
    - rewrite map_app. apply ascending_app; [exact Hav|exact HaL|].
      intros x y Hx Hy. apply in_map_iff in Hx as ([b e] & <- & Hx).
      apply in_map_iff in Hy as ([b' e'] & <- & Hy). simpl.
      exact (Hcross _ _ _ _ Hx Hy).
    - intros b e Hb. apply in_app_or in Hb as [[[= <- <-]|Hb]|Hb].
      + exists v, 0%nat. split; [now left|]. split; [lia|constructor].
      + destruct (Hdv _ _ Hb) as (k & -> & Hk). exists v, (S k).
        split; [now left|]. split; [lia|exact Hk].
      + destruct (HdL _ _ Hb) as (y & k & Hy & -> & Hk). exists y, k.
        split; [now right|]. auto.
    - intros y [<-|Hy]; [now left|]. apply in_or_app. right. now apply HhL.
    - intros b e cell' x Hb Hcell' Hx. apply in_app_or in Hb as [Hb|Hb].
      + apply in_or_app. left. right. exact (Hcv _ _ _ _ Hb Hcell' Hx).
      + apply in_or_app. right. exact (HcL _ _ _ _ Hb Hcell' Hx). }
  destruct (Hloop (value cell) [] eq_refl) as (L & HpL & HaL & HdL & HhL & HcL).
  exists L. split; [|split; [|split]].
  - rewrite DebugPrintConfig_S, Hcell, HpL. unfold printed. simpl.
    now rewrite Hcell, Nat2Z.id.
  - simpl. split; [|exact HaL]. apply Forall_forall. intros b Hb.
    apply list_elem_of_In, in_map_iff in Hb as ([b' e] & <- & Hb). simpl.
    destruct (HdL _ _ Hb) as (y & k & Hy & _ & Hk).
    apply In_nth_error in Hy as [j Hj].
    assert (value cell !! j = Some y) as Hj'.
    { clear -Hj. revert j Hj.
      induction (value cell) as [|w vs IHw]; intros [|j]; simpl; try discriminate; auto. }
    pose proof (Ho _ _ _ _ Hcell Hj').
    pose proof (ordered_descends _ _ _ _ Ho Hk). lia.
  - intros b e Hb. destruct (HdL _ _ Hb) as (y & k & Hy & -> & Hk).
    exists k. split; [lia|]. apply (descends_under _ _ cell y); [exact Hcell| |exact Hk].
    now apply list_elem_of_In.
  - intros b e cell' x [[= <- <-]|Hb] Hcell' Hx.
    + rewrite Hcell in Hcell'. injection Hcell' as <-. apply HhL.
      now apply list_elem_of_In.
    + exact (HcL _ _ _ _ Hb Hcell' Hx).
Qed.

(** X16. [DebugPrintConfig] on what [ParseConfig] returns, at depth 0
    and with fuel for every cell, returns, and writes one line for each
    node of the tree and for no other cell: as many dashes as the node is
    levels below the root, then its name.  The lines come in the order
    in which the parser made the nodes, which is the order of their
    lines in the input. *)
Theorem DebugPrintConfig_in_order p fuel :
  (length (memory (ParseConfig p)) <= fuel)%nat ->
  exists nodes,
    DebugPrintConfig fuel (memory (ParseConfig p)) (root (ParseConfig p)) 0
    = Some (map (printed (memory (ParseConfig p))) nodes)
    /\ ascending (map fst nodes)
    /\ forall b e,
         In (b, e) nodes
         <-> descends (memory (ParseConfig p)) (root (ParseConfig p)) e b.
Proof.
  destruct (ParseConfig_leaves p) as (s1 & s2 & e & Hr & Hround & ->). simpl.
  pose proof (reaches_sound _ _ Hr) as Hs.
  destruct (reaches_tree _ _ Hr) as [Ho Hu].
  destruct (reaches_in_order _ _ Hr) as [Hi Hrm].
  pose proof (round_tree s1 Hs (conj Ho Hu)) as [Ho' _].
  destruct (round_in_order s1 Hs Ho Hi Hrm) as [Hi' _].
  pose proof (round_grows s1) as Hg.
  rewrite Hround in Ho', Hi', Hg. simpl in Ho', Hi', Hg.
  assert (0 < length (heap s2))%nat as Hlen.
  { pose proof (sound_c _ Hs). pose proof (grows_length _ _ Hg). lia. }
  intros Hfuel.
  destruct (print_nodes (heap s2) Ho' Hi' fuel 0%nat 0%nat Hlen ltac:(lia))
    as (nodes & Hp & Ha & Hd & Hc).
  exists ((0%nat, 0%nat) :: nodes). split; [exact Hp|]. split; [exact Ha|].
  intros b d. split.
  - intros [[= <- <-]|Hb]; [constructor|].
    destruct (Hd _ _ Hb) as (k & -> & Hk). exact Hk.
  - induction 1 as [|d b cell x _ IH Hb Hx]; [now left|].
    right. exact (Hc _ _ _ _ IH Hb Hx).
Qed.

Lemma DebugPrintConfig_in_order_witness :
  let r := ParseConfig (fresh (bufio_NewReader
                                 (text ["Key: Value"; "List:"; "  1"; "  2"; ":"; "last"]%string))
                          (-1) (-1)) in
  DebugPrintConfig 9 (memory r) (root r) 0
  = Some (map (fun l => (l ++ lf)%string)
            ["__root__"; "-Key"; "--Value"; "-List"; "--1"; "--2"; "-last"]%string)
  /\ exists nodes,
      DebugPrintConfig 9 (memory r) (root r) 0 = Some (map (printed (memory r)) nodes)
      /\ ascending (map fst nodes)
      /\ forall b e, In (b, e) nodes <-> descends (memory r) (root r) e b.
Proof.
  intros r. split; [reflexivity|].
  apply (DebugPrintConfig_in_order
           (fresh (bufio_NewReader
                     (text ["Key: Value"; "List:"; "  1"; "  2"; ":"; "last"]%string))
              (-1) (-1)) 9).
  vm_compute. lia.
Defined.
